(** * con-espressione: MIDI playback threads and the LeapControl front end

    A shallow embedding of [midi_thread.py] (the literal playback thread
    [MidiThread] and the expressive playback thread [BasisMixerMidiThread])
    and of [standalone.py] (the controller front end [LeapControl]).

    Number model.  Python floats are read as exact rationals ([Q]): sums,
    products and comparisons are the mathematical ones, without rounding,
    infinities or NaN.  Python and numpy integers are [Z].  The power
    [2 ** x] is exact at integer [x]; elsewhere it has no rational value and
    the expressive thread takes it from a section variable. *)

From Stdlib Require Import String QArith Qround Qminmax Qpower ZArith Bool List.
From Stdlib Require Import DecimalString.
From Stdlib Require Import Lia Lqa.
From Stdlib Require Import Permutation Sorted.
Import ListNotations.
Open Scope Q_scope.

(** ** Python values shared by both files *)

Definition Qlt_bool (x y : Q) : bool := negb (Qle_bool y x).

(** Exceptions the modelled code can raise. *)
Inductive exception : Type :=
| IndexError
| AttributeError
| UnboundLocalError
| ValueError
| KeyError
| TypeError.

(** [l[i]] on a Python list: a negative index counts from the end, an index
    outside [-len(l), len(l)) raises [IndexError] (here [None]). *)
Definition py_getitem {A : Type} (l : list A) (i : Z) : option A :=
  let n := Z.of_nat (length l) in
  if (0 <=? i)%Z then nth_error l (Z.to_nat i)
  else if (- n <=? i)%Z then nth_error l (Z.to_nat (n + i))
  else None.

(** ** mido messages *)

Module mido.

(** [msg.type].  [meta] stands for the types of [mido.MetaMessage]
    ([end_of_track], [set_tempo], [track_name], ...): the items of a MIDI
    file that are no [mido.Message]. *)
Inductive msg_type : Type :=
| note_on
| note_off
| other (name : string)
| meta (name : string).

(** A message: its type, its two data bytes and its [time] attribute (a
    meta message has a [time] and no data bytes that are read). *)
Record Message : Type := mkMessage {
  type : msg_type;
  note : Z;
  velocity : Z;
  time : Q
}.

(** mido checks every data byte when a message is built or copied: a value
    outside 0..127 raises [ValueError]. *)
Definition check_data_byte (value : Z) : bool :=
  ((0 <=? value) && (value <=? 127))%Z.

(** [Message(type, velocity=v, note=p, time=t)] *)
Definition new (ty : msg_type) (v p : Z) (t : Q) : option Message :=
  if check_data_byte v && check_data_byte p
  then Some (mkMessage ty p v t) else None.

(** [msg.copy(velocity=v)] *)
Definition copy_velocity (msg : Message) (v : Z) : option Message :=
  if check_data_byte v
  then Some (mkMessage (type msg) (note msg) v (time msg)) else None.

Definition is_note_on (msg : Message) : bool :=
  match type msg with note_on => true | _ => false end.

Definition is_note_off (msg : Message) : bool :=
  match type msg with note_off => true | _ => false end.

(** [not isinstance(msg, Message)], the test of [outport.send]. *)
Definition is_meta (msg : Message) : bool :=
  match type msg with meta _ => true | _ => false end.

End mido.

(** ** standalone.py: LeapControl *)

Module LeapControl.

(** Modelled from the spec: the playback thread class [BMThread] that
    [standalone.py] imports is not in [midi_thread.py]; its control surface
    (tempo multiplier, velocity level, dynamics scaler, stop request) is the
    spec's LiveControlSurface, whose setters store the value they are given
    (last write wins). *)
Record BMThread : Type := mkBMThread {
  tempo : Q;
  scaler : Q;
  vel : Q;
  play_flag : bool
}.

Definition thread_set_velocity (v : Q) (th : BMThread) : BMThread :=
  mkBMThread (tempo th) (scaler th) v (play_flag th).

Definition thread_stop_playing (th : BMThread) : BMThread :=
  mkBMThread (tempo th) (scaler th) (vel th) false.

Record t : Type := mkLeapControl {
  song_list : list string;
  cur_song_id : Z;
  cur_song : string;
  playback_thread : option BMThread
}.

(** The state a method leaves behind, on return or when it raises. *)
Inductive outcome : Type :=
| Returned (self : t)
| Raised (e : exception) (self : t).

(** [select_song(val)], for an integer [val] ([int(val)] is [val]).  The
    assignment to [cur_song_id] comes before the list access, so it is kept
    when the access raises. *)
Definition select_song (val : Z) (self : t) : outcome :=
  if (val <? Z.of_nat (length (song_list self)))%Z then
    let self1 :=
      mkLeapControl (song_list self) val (cur_song self) (playback_thread self) in
    match py_getitem (song_list self1) (cur_song_id self1) with
    | Some song =>
        Returned (mkLeapControl (song_list self1) (cur_song_id self1) song
                                (playback_thread self1))
    | None => Raised IndexError self1
    end
  else Returned self.

(** The local [out] of [set_velocity]: unbound ([None]) until one of the two
    [if] statements assigns it. *)
Definition set_velocity_out (val : Q) : option Q :=
  let out := None in
  let out := if Qle_bool val 64 then Some ((0.5 / 64.0) * val + 0.5) else out in
  let out := if Qlt_bool 64 val then Some ((2.0 / 127.0) * val) else out in
  out.

Definition set_velocity (val : Q) (self : t) : outcome :=
  match set_velocity_out val with
  | None => Raised UnboundLocalError self
  | Some out =>
      match playback_thread self with
      | None => Raised AttributeError self
      | Some th =>
          Returned (mkLeapControl (song_list self) (cur_song_id self)
                      (cur_song self) (Some (thread_set_velocity out th)))
      end
  end.

Definition stop (self : t) : t :=
  match playback_thread self with
  | None => self
  | Some th =>
      mkLeapControl (song_list self) (cur_song_id self) (cur_song self)
                    (Some (thread_stop_playing th))
  end.

(** Modelled from the spec: the other two setters of the control surface
    store their value like [set_velocity], and [start] sets the thread
    playing. *)
Definition thread_set_tempo (x : Q) (th : BMThread) : BMThread :=
  mkBMThread x (scaler th) (vel th) (play_flag th).

Definition thread_set_scaler (x : Q) (th : BMThread) : BMThread :=
  mkBMThread (tempo th) x (vel th) (play_flag th).

Definition thread_start (th : BMThread) : BMThread :=
  mkBMThread (tempo th) (scaler th) (vel th) true.

(** [LeapControl(config, song_list)]: [song_list[0]] raises [IndexError]
    (here [None]) on an empty list, and no object comes to be.  The two
    virtual ports are not part of the state. *)
Definition init (song_list : list string) : option t :=
  match py_getitem song_list 0 with
  | Some song => Some (mkLeapControl song_list 0 song None)
  | None => None
  end.

(** [play()].  [join] returns once the thread that was playing has ended;
    [fresh song] stands for the object [BMThread(song, midi_out=...)]
    builds. *)
Definition play (fresh : string -> BMThread) (self : t) : t :=
  let th := fresh (cur_song self) in
  let th := thread_set_tempo 1.0 th in
  let th := thread_set_scaler 0.0 th in
  let th := thread_set_velocity 50.0 th in
  let th := thread_start th in
  mkLeapControl (song_list self) (cur_song_id self) (cur_song self) (Some th).

(** The local [out] of [set_tempo]. *)
Definition set_tempo_out (val : Q) : option Q :=
  let out := None in
  let out := if Qle_bool val 64 then Some (- (2.0 / 128.0) * val + 2.0) else out in
  let out := if Qlt_bool 64 val then Some (- (1.0 / 127.0) * val + 1.5) else out in
  out.

Definition set_tempo (val : Q) (self : t) : outcome :=
  match set_tempo_out val with
  | None => Raised UnboundLocalError self
  | Some out =>
      match playback_thread self with
      | None => Raised AttributeError self
      | Some th =>
          Returned (mkLeapControl (song_list self) (cur_song_id self)
                      (cur_song self) (Some (thread_set_tempo out th)))
      end
  end.

(** [set_ml_scaler(val)]; [100 / 127] is Python 3's true division. *)
Definition set_ml_scaler (val : Q) (self : t) : outcome :=
  let out := (100 / 127) * val in
  match playback_thread self with
  | None => Raised AttributeError self
  | Some th =>
      Returned (mkLeapControl (song_list self) (cur_song_id self)
                  (cur_song self) (Some (thread_set_scaler out th)))
  end.

(** A message from the input port as [parse_midi_msg] reads it: [msg.type]
    and, on a control change, [msg.channel], [msg.control], [msg.value]. *)
Record in_message : Type := mkInMessage {
  msg_type : string;
  msg_channel : Z;
  msg_control : Z;
  msg_value : Z
}.

(** ['...{}'.format(value)] for an integer [value]. *)
Definition format (text : string) (value : Z) : string :=
  (text ++ NilZero.string_of_int (Z.to_int value))%string.

(** A method that prints: the lines printed and the outcome. *)
Definition printing : Type := (list string * outcome)%type.

Definition silent (o : outcome) : printing := ([], o).

(** Statement after statement: what follows runs on the state the first
    statement returns, and not at all when the first raises. *)
Definition and_then (r : printing) (k : t -> printing) : printing :=
  match snd r with
  | Returned self => (fst r ++ fst (k self), snd (k self))
  | Raised _ _ => r
  end.

(** [if cond: body] *)
Definition when (cond : bool) (body : t -> printing) (self : t) : printing :=
  if cond then body self else silent (Returned self).

(** [parse_midi_msg(msg)]: the six [if msg.control == ...] statements run
    one after the other. *)
Definition parse_midi_msg (fresh : string -> BMThread) (msg : in_message)
  (self : t) : printing :=
  if String.eqb (msg_type msg) "control_change" then
    if (msg_channel msg =? 0)%Z then
      and_then (when (msg_control msg =? 20)%Z
                  (fun self => silent (set_tempo (inject_Z (msg_value msg)) self))
                  self) (fun self =>
      and_then (when (msg_control msg =? 21)%Z
                  (fun self => silent (set_velocity (inject_Z (msg_value msg)) self))
                  self) (fun self =>
      and_then (when (msg_control msg =? 22)%Z
                  (fun self => silent (set_ml_scaler (inject_Z (msg_value msg)) self))
                  self) (fun self =>
      and_then (when (msg_control msg =? 23)%Z
                  (fun self =>
                     ([format "Received Song change. New value: " (msg_value msg)],
                      select_song (msg_value msg) self))
                  self) (fun self =>
      and_then (when (msg_control msg =? 24)%Z
                  (fun self =>
                     ([format "Received Play command. New value: " (msg_value msg)],
                      Returned (if (msg_value msg =? 127)%Z
                                then play fresh self else self)))
                  self) (fun self =>
      when (msg_control msg =? 25)%Z
        (fun self =>
           ([format "Received Stop command. New value: " (msg_value msg)],
            Returned (if (msg_value msg =? 127)%Z then stop self else self)))
        self)))))
    else silent (Returned self)
  else silent (Returned self).

(** The [for msg in lc.midi_inport] loop of [main]; it ends at the message
    on which [parse_midi_msg] raises. *)
Fixpoint listen (fresh : string -> BMThread) (inport : list in_message)
  (self : t) : printing :=
  match inport with
  | [] => silent (Returned self)
  | msg :: rest =>
      and_then (parse_midi_msg fresh msg self) (listen fresh rest)
  end.

Definition SONG_LIST : list string :=
  ["bm_files/beethoven_op027_no2_mv1_bm_z.txt";
   "bm_files/chopin_op10_No3_bm_magaloff.txt"]%string.

(** How [main] ends. *)
Inductive ending : Type :=
| Finished
| Crashed (e : exception).

(** The [finally] block: [lc.stop()], then [lc.playback_thread.join()],
    which raises [AttributeError] when there is no thread; an exception
    raised here replaces the one on its way out of the [try]. *)
Definition clean_up (pending : option exception) (self : t) : ending :=
  let self := stop self in
  match playback_thread self with
  | None => Crashed AttributeError
  | Some _ =>
      match pending with
      | Some e => Crashed e
      | None => Finished
      end
  end.

(** [main()].  [inport] holds the messages that arrive before the keyboard
    interrupt; iterating over the port blocks until then. *)
Definition main (fresh : string -> BMThread) (inport : list in_message)
  : list string * ending :=
  match init SONG_LIST with
  | None => ([], Crashed IndexError)
  | Some lc =>
      let r := listen fresh inport lc in
      match snd r with
      | Returned lc =>
          (fst r ++ ["Received keyboard interrupt. Shutting down..."%string],
           clean_up None lc)
      | Raised e lc => (fst r, clean_up (Some e) lc)
      end
  end.

End LeapControl.

(** ** numpy operations used by the expressive thread *)

Module np.

(** [np.round] on a float: to the nearest integer, a tie to the even one. *)
Definition round_half_even (x : Q) : Z :=
  let f := Qfloor x in
  match Qcompare (x - inject_Z f) (1 # 2) with
  | Lt => f
  | Gt => (f + 1)%Z
  | Eq => if Z.even f then f else (f + 1)%Z
  end.

Definition round (x : Q) : Q := inject_Z (round_half_even x).

(** [np.clip(x, a_min, a_max)] is [minimum(a_max, maximum(x, a_min))]. *)
Definition clip (x a_min a_max : Q) : Q := Qmin a_max (Qmax x a_min).

(** [.astype(np.int)] on a float: the fraction is dropped (toward zero). *)
Definition astype_int (x : Q) : Z := Z.quot (Qnum x) (Zpos (Qden x)).

(** [a[idx]] for an index array [idx] of positions inside [a]. *)
Definition take {A : Type} (d : A) (a : list A) (idx : list nat) : list A :=
  map (fun i => nth i a d) idx.

(** [a[idx]] raises [IndexError] unless every index lies inside [a]. *)
Definition index_ok {A : Type} (a : list A) (idx : list nat) : bool :=
  forallb (fun i => (i <? length a)%nat) idx.

(** An elementwise operation on two one-dimensional arrays: arrays of one
    length go entry by entry, an array of length 1 is stretched to the
    other one, anything else raises [ValueError] (here [None]). *)
Definition broadcast2 {A B C : Type} (f : A -> B -> C) (a : list A) (b : list B)
  : option (list C) :=
  if (length a =? length b)%nat
  then Some (map (fun xy => f (fst xy) (snd xy)) (combine a b))
  else match a, b with
       | [x], _ => Some (map (f x) b)
       | _, [y] => Some (map (fun x => f x y) a)
       | _, _ => None
       end.

(** *** [np.argsort] with its default [kind='quicksort']

    numpy's [aquicksort] (npysort/quicksort): an introsort on the index
    array [tosort], comparing the keys [v[tosort[i]]].  Ranges of more than
    [SMALL_QUICKSORT + 1] entries are partitioned around a median of three,
    shorter ones are sorted by insertion, and a postponed range whose depth
    budget is used up is sorted by [aheapsort].  [pl], [pr], [pi], [pj], [pk] are the
    C pointers, as offsets into [tosort]. *)

Section Argsort.

Variable v : list Q.

Local Open Scope nat_scope.

Definition key (tosort : list nat) (p : nat) : Q := nth (nth p tosort O) v 0%Q.

Fixpoint set_nth (a : list nat) (p : nat) (x : nat) : list nat :=
  match a, p with
  | [], _ => []
  | _ :: t, O => x :: t
  | h :: t, S p' => h :: set_nth t p' x
  end.

Definition INTP_SWAP (a : list nat) (p q : nat) : list nat :=
  let tmp := nth q a O in
  set_nth (set_nth a q (nth p a O)) p tmp.

Definition SMALL_QUICKSORT : nat := 15.

Definition npy_get_msb (num : nat) : Z := Z.log2 (Z.of_nat num).

(** [do ++pi; while (LT(v[*pi], vp));] *)
Fixpoint scan_up (fuel : nat) (tosort : list nat) (vp : Q) (pi : nat) : nat :=
  match fuel with
  | O => S pi
  | S fuel' =>
      let pi := S pi in
      if Qlt_bool (key tosort pi) vp then scan_up fuel' tosort vp pi else pi
  end.

(** [do --pj; while (LT(vp, v[*pj]));] *)
Fixpoint scan_down (fuel : nat) (tosort : list nat) (vp : Q) (pj : nat) : nat :=
  match fuel with
  | O => pj - 1
  | S fuel' =>
      let pj := (pj - 1)%nat in
      if Qlt_bool vp (key tosort pj) then scan_down fuel' tosort vp pj else pj
  end.

(** The [for (;;)] loop of the partition; returns [tosort] and [pi]. *)
Fixpoint partition_loop (fuel : nat) (tosort : list nat) (vp : Q) (pi pj : nat)
  : list nat * nat :=
  match fuel with
  | O => (tosort, pi)
  | S fuel' =>
      let pi := scan_up (length tosort) tosort vp pi in
      let pj := scan_down (length tosort) tosort vp pj in
      if (pj <=? pi)%nat then (tosort, pi)
      else partition_loop fuel' (INTP_SWAP tosort pi pj) vp pi pj
  end.

(** One pass of the body of [while ((pr - pl) > SMALL_QUICKSORT)], up to the
    final swap that puts the pivot at [pi]. *)
Definition partition (tosort : list nat) (pl pr : nat) : list nat * nat :=
  let pm := (pl + Nat.div2 (pr - pl))%nat in
  let tosort :=
    if Qlt_bool (key tosort pm) (key tosort pl) then INTP_SWAP tosort pm pl else tosort in
  let tosort :=
    if Qlt_bool (key tosort pr) (key tosort pm) then INTP_SWAP tosort pr pm else tosort in
  let tosort :=
    if Qlt_bool (key tosort pm) (key tosort pl) then INTP_SWAP tosort pm pl else tosort in
  let vp := key tosort pm in
  let pi := pl in
  let pj := (pr - 1)%nat in
  let tosort := INTP_SWAP tosort pm pj in
  let '(tosort, pi) := partition_loop (length tosort) tosort vp pi pj in
  let pk := (pr - 1)%nat in
  (INTP_SWAP tosort pi pk, pi).

(** The inner [while (pj > pl && LT(vp, v[*pk]))] of the insertion sort,
    with [vi] the entry being inserted and [pk = pj - 1]. *)
Fixpoint insertion_shift (tosort : list nat) (pl vi pj : nat) : list nat :=
  match pj with
  | O => set_nth tosort O vi
  | S pk =>
      if (pl <? pj)%nat && Qlt_bool (nth vi v 0%Q) (key tosort pk)
      then insertion_shift (set_nth tosort pj (nth pk tosort O)) pl vi pk
      else set_nth tosort pj vi
  end.

(** [for (pi = pl + 1; pi <= pr; ++pi)], with [count] passes left. *)
Fixpoint insertion_loop (count : nat) (tosort : list nat) (pl pi : nat) : list nat :=
  match count with
  | O => tosort
  | S count' =>
      insertion_loop count' (insertion_shift tosort pl (nth pi tosort O) pi) pl (S pi)
  end.

Definition insertion_sort (tosort : list nat) (pl pr : nat) : list nat :=
  insertion_loop (pr - pl) tosort pl (S pl).

(** [aheapsort] on the [n] entries from [pl]; [a[k]] is [tosort[pl + k - 1]]. *)
Definition heap_get (tosort : list nat) (pl k : nat) : nat :=
  nth (pl + k - 1) tosort O.

Definition heap_set (tosort : list nat) (pl k x : nat) : list nat :=
  set_nth tosort (pl + k - 1) x.

(** The sift loop [for (...; j <= n;)]; returns [tosort] and the final [i]. *)
Fixpoint heap_sift (fuel : nat) (tosort : list nat) (pl n tmp i j : nat)
  : list nat * nat :=
  match fuel with
  | O => (tosort, i)
  | S fuel' =>
      if (j <=? n)%nat then
        let j :=
          if (j <? n)%nat
             && Qlt_bool (nth (heap_get tosort pl j) v 0%Q)
                         (nth (heap_get tosort pl (j + 1)) v 0%Q)
          then (j + 1)%nat else j in
        if Qlt_bool (nth tmp v 0%Q) (nth (heap_get tosort pl j) v 0%Q)
        then heap_sift fuel' (heap_set tosort pl i (heap_get tosort pl j))
                       pl n tmp j (j + j)
        else (tosort, i)
      else (tosort, i)
  end.

(** [for (l = n>>1; l > 0; --l)] *)
Fixpoint heap_build (l : nat) (tosort : list nat) (pl n : nat) : list nat :=
  match l with
  | O => tosort
  | S l' =>
      let tmp := heap_get tosort pl l in
      let '(tosort, i) := heap_sift n tosort pl n tmp l (l + l) in
      heap_build l' (heap_set tosort pl i tmp) pl n
  end.

(** [for (; n > 1;)] *)
Fixpoint heap_extract (n : nat) (tosort : list nat) (pl : nat) : list nat :=
  match n with
  | O => tosort
  | S n' =>
      if (1 <? n)%nat then
        let tmp := heap_get tosort pl n in
        let tosort := heap_set tosort pl n (heap_get tosort pl 1) in
        let '(tosort, i) := heap_sift n tosort pl n' tmp 1 2 in
        heap_extract n' (heap_set tosort pl i tmp) pl
      else tosort
  end.

Definition aheapsort (tosort : list nat) (pl n : nat) : list nat :=
  heap_extract n (heap_build (Nat.div2 n) tosort pl n) pl.

(** The inner [while ((pr - pl) > SMALL_QUICKSORT)]: partition, push the
    larger side with the lowered depth budget, go on with the smaller one.
    Returns [tosort], the range that is left and the stack. *)
Fixpoint partition_while (fuel : nat) (tosort : list nat) (pl pr : nat)
  (cdepth : Z) (stack : list (nat * nat * Z))
  : list nat * nat * nat * list (nat * nat * Z) :=
  match fuel with
  | O => (tosort, pl, pr, stack)
  | S fuel' =>
      if (SMALL_QUICKSORT <? pr - pl)%nat then
        let '(tosort, pi) := partition tosort pl pr in
        let cdepth := (cdepth - 1)%Z in
        if (pi - pl <? pr - pi)%nat
        then partition_while fuel' tosort pl (pi - 1) cdepth
                             ((S pi, pr, cdepth) :: stack)
        else partition_while fuel' tosort (S pi) pr cdepth
                             ((pl, pi - 1, cdepth) :: stack)
      else (tosort, pl, pr, stack)
  end.

(** The outer [while (1)] with its explicit stack of postponed ranges: a
    range taken up with a negative depth budget goes to [aheapsort], any
    other one through the inner loop and the insertion sort; then the next
    range is popped. *)
Fixpoint aquicksort_loop (fuel : nat) (tosort : list nat) (pl pr : nat)
  (cdepth : Z) (stack : list (nat * nat * Z)) : list nat :=
  match fuel with
  | O => tosort
  | S fuel' =>
      let '(tosort, stack) :=
        if (cdepth <? 0)%Z
        then (aheapsort tosort pl (pr - pl + 1), stack)
        else
          let '(tosort, pl, pr, stack) :=
            partition_while (pr - pl) tosort pl pr cdepth stack in
          (insertion_sort tosort pl pr, stack) in
      match stack with
      | [] => tosort
      | (pl', pr', cdepth') :: stack' =>
          aquicksort_loop fuel' tosort pl' pr' cdepth' stack'
      end
  end.

Definition aquicksort (tosort : list nat) (num : nat) : list nat :=
  aquicksort_loop (2 * num + 1) tosort O (num - 1) (npy_get_msb num * 2) [].

(** [np.argsort(v)]: the index array starts as [0, 1, ..., len(v) - 1]. *)
Definition argsort : list nat :=
  aquicksort (seq O (length v)) (length v).

End Argsort.

(** [a.sort()] on an array of floats, through the same ordering. *)
Definition sort (a : list Q) : list Q := take 0 a (argsort a).

End np.


(** ** midi_thread.py: MidiThread, the literal playback thread *)

Module MidiThread.

Import mido.

(** [midi] stands for the message sequence [mido.MidiFile(self.midi)] yields,
    each message with its delay in seconds as [time]. *)
Record t : Type := mkMidiThread {
  midi : list Message;
  vel : option Z;
  tempo : Q
}.

Definition init (midi_path : list Message) : t := mkMidiThread midi_path None 1.

Definition set_velocity (v : option Z) (self : t) : t :=
  mkMidiThread (midi self) v (tempo self).

Definition set_tempo (x : Q) (self : t) : t :=
  mkMidiThread (midi self) (vel self) x.

(** Setter calls come from the controller thread while [run] is looping. *)
Inductive call : Type :=
| call_set_velocity (v : option Z)
| call_set_tempo (x : Q).

Definition apply_call (self : t) (c : call) : t :=
  match c with
  | call_set_velocity v => set_velocity v self
  | call_set_tempo x => set_tempo x self
  end.

Definition apply_calls (cs : list call) (self : t) : t :=
  fold_left apply_call cs self.

(** What [run] does to the outside world. *)
Inductive effect : Type :=
| sleep (seconds : Q)
| send (msg : Message).

Inductive outcome : Type :=
| Returned (out : list effect)
| Raised (e : exception) (out : list effect).

Definition emit (pre : list effect) (o : outcome) : outcome :=
  match o with
  | Returned out => Returned (pre ++ out)
  | Raised e out => Raised e (pre ++ out)
  end.

(** Lines 37-40: the message to play for [msg]; [None] when [msg.copy]
    rejects the override. *)
Definition play_msg (self : t) (msg : Message) : option Message :=
  match type msg with
  | note_on =>
      if negb (velocity msg =? 0)%Z then
        match vel self with
        | Some v => copy_velocity msg v
        | None => Some msg
        end
      else Some msg
  | _ => Some msg
  end.

(** The [for] loop of [run].  [controller] lists, per message, the setter
    calls that land before the loop body reads [self.vel] and [self.tempo]
    for that message.  [time.sleep] raises [ValueError] on a negative
    length, and [outport.send] raises [TypeError] on a meta message, which
    the file yields like any other (its delay has been slept by then). *)
Fixpoint run_loop (self : t) (msgs : list Message) (controller : list (list call))
  : outcome :=
  match msgs with
  | [] => Returned []
  | msg :: rest =>
      let self := apply_calls (hd [] controller) self in
      match play_msg self msg with
      | None => Raised ValueError []
      | Some pm =>
          let seconds := time pm * tempo self in
          if Qlt_bool seconds 0 then Raised ValueError []
          else if is_meta pm then Raised TypeError [sleep seconds]
          else emit [sleep seconds; send pm] (run_loop self rest (tl controller))
      end
  end.

Definition run (self : t) (controller : list (list call)) : outcome :=
  run_loop self (midi self) controller.

End MidiThread.

(** ** midi_thread.py: BasisMixerMidiThread, the expressive playback thread *)

Module BasisMixerMidiThread.

Import mido.

(** The tuple [score_dict[on]]: [ioi], [vt] and [lbpr] are scalars of the
    score position, the other entries are arrays with one value per note. *)
Record position : Type := mkPosition {
  pitch : list Z;
  ioi : Q;
  dur : list Q;
  vt : Q;
  vd : list Q;
  lbpr : Q;
  tim : list Q;
  lart : list Q;
  mel : list Q
}.

(** [score_dict] is the dictionary [load_bm_preds] returns, as its items. *)
Record t : Type := mkThread {
  vel : Q;
  tempo : Q;
  score_dict : list (Q * position);
  vel_min : Z;
  vel_max : Z
}.

Definition init (bm_precomputed : list (Q * position)) (vel_min vel_max : Z) : t :=
  mkThread 64 1 bm_precomputed vel_min vel_max.

Definition set_velocity (v : Q) (self : t) : t :=
  mkThread v (tempo self) (score_dict self) (vel_min self) (vel_max self).

Definition set_tempo (x : Q) (self : t) : t :=
  mkThread (vel self) x (score_dict self) (vel_min self) (vel_max self).

Inductive call : Type :=
| call_set_velocity (v : Q)
| call_set_tempo (x : Q).

Definition apply_call (self : t) (c : call) : t :=
  match c with
  | call_set_velocity v => set_velocity v self
  | call_set_tempo x => set_tempo x self
  end.

Definition apply_calls (cs : list call) (self : t) : t :=
  fold_left apply_call cs self.

(** [self.score_dict[on]] *)
Fixpoint dict_get (d : list (Q * position)) (on : Q) : option position :=
  match d with
  | [] => None
  | (k, p) :: d' => if Qeq_bool k on then Some p else dict_get d' on
  end.

(** A message on the output port, with the elapsed time at which the loop
    decided to send it. *)
Abbreviation sent := (Q * Message)%type.

(** How a loop that polls the clock ends.  [ClockEnd] belongs to the model
    only: the finite list of clock readings ran out. *)
Inductive result (A : Type) : Type :=
| Done (a : A)
| Raised (e : exception)
| ClockEnd.

Arguments Done {A} a.
Arguments Raised {A} e.
Arguments ClockEnd {A}.

Definition bind {A B : Type} (r : result A) (k : A -> result B) : result B :=
  match r with
  | Done a => k a
  | Raised e => Raised e
  | ClockEnd => ClockEnd
  end.

(** Python's [list.sort(key=lambda x: x.time)] is stable: a message goes
    behind the messages that are not later than it. *)
Fixpoint insert_by_time (m : Message) (l : list Message) : list Message :=
  match l with
  | [] => [m]
  | h :: l' => if Qlt_bool (time m) (time h) then m :: l else h :: insert_by_time m l'
  end.

Definition sort_by_time (l : list Message) : list Message :=
  fold_left (fun acc m => insert_by_time m acc) l [].

(** The arrays of one position have one length, one entry per note. *)
Definition same_shape (p : position) : bool :=
  let n := length (pitch p) in
  (length (dur p) =? n)%nat && (length (vd p) =? n)%nat
  && (length (tim p) =? n)%nat && (length (lart p) =? n)%nat.

Fixpoint zip_with {A B C : Type} (f : A -> B -> C) (a : list A) (b : list B) : list C :=
  match a, b with
  | x :: a', y :: b' => f x y :: zip_with f a' b'
  | _, _ => []
  end.

(** The [for p, o, d, v in zip(...)] loop: the note-on and note-off message
    of every note, in array order. *)
Fixpoint make_messages (pitch : list Z) (perf_onset perf_duration : list Q)
  (perf_vel : list Z) : option (list Message * list Message) :=
  match pitch, perf_onset, perf_duration, perf_vel with
  | p :: ps, o :: os, d :: ds, v :: vs =>
      match new note_on v p o, new note_off v p (o + d), make_messages ps os ds vs with
      | Some on_msg, Some off_msg, Some (ons, offs) =>
          Some (on_msg :: ons, off_msg :: offs)
      | _, _, _ => None
      end
  | _, _, _, _ => Some ([], [])
  end.

(** The loop [while len(on_messages) > 0] (lines 149-171).  Each call of
    [time.time()] takes the next reading off [clock]. *)
Fixpoint send_loop (init_time : Q) (clock : list Q)
  (on_messages off_messages : list Message) {struct clock}
  : result (list sent * list Message * list Q) :=
  match on_messages with
  | [] => Done ([], off_messages, clock)
  | on_msg :: on_rest =>
      match clock with
      | [] => ClockEnd
      | t1 :: clock1 =>
          let current_time := t1 - init_time in
          let due := Qle_bool (time on_msg) current_time in
          let out1 := if due then [(current_time, on_msg)] else [] in
          let on_messages := if due then on_rest else on_messages in
          match off_messages with
          | [] =>
              bind (send_loop init_time clock1 on_messages [])
                   (fun '(out, offs, clock') => Done (out1 ++ out, offs, clock'))
          | off_msg :: off_rest =>
              match clock1 with
              | [] => ClockEnd
              | t2 :: clock2 =>
                  let current_time := t2 - init_time in
                  let due := Qle_bool (time off_msg) current_time in
                  let out2 := if due then [(current_time, off_msg)] else [] in
                  let off_messages := if due then off_rest else off_messages in
                  bind (send_loop init_time clock2 on_messages off_messages)
                       (fun '(out, offs, clock') =>
                          Done (out1 ++ out2 ++ out, offs, clock'))
              end
          end
      end
  end.

(** The loop [while len(off_messages) > 0] (lines 174-178). *)
Fixpoint drain_loop (init_time : Q) (clock : list Q) (off_messages : list Message)
  {struct clock} : result (list sent * list Message * list Q) :=
  match off_messages with
  | [] => Done ([], [], clock)
  | off_msg :: off_rest =>
      match clock with
      | [] => ClockEnd
      | t1 :: clock1 =>
          let current_time := t1 - init_time in
          if Qle_bool (time off_msg) current_time
          then bind (drain_loop init_time clock1 off_rest)
                    (fun '(out, offs, clock') =>
                       Done ((current_time, off_msg) :: out, offs, clock'))
          else drain_loop init_time clock1 off_messages
      end
  end.

Section Run.

(** The power [2 ** x].  At an integer [x] it is the exact power of two; at
    any other [x] it is irrational, and [pow2_frac x] stands for the float
    the expression evaluates to. *)
Variable pow2_frac : Q -> Q.

Definition exp2 (x : Q) : Q :=
  let x := Qred x in
  if (Zpos (Qden x) =? 1)%Z then Qpower 2 (Qnum x) else pow2_frac x.

(** Line 102. *)
Definition eq_onset_of (prev_eq_onset bpr_a : Q) (p : position) : Q :=
  prev_eq_onset + exp2 (lbpr p) * bpr_a * ioi p.

(** Lines 122-124, for one note. *)
Definition perf_vel_of (self : t) (vt vel_a vd : Q) : Z :=
  np.astype_int
    (np.clip (np.round (vt * vel_a - vd))
             (inject_Z (vel_min self)) (inject_Z (vel_max self))).

(** Line 119 before it is indexed: the product [(2 ** lart) * bpr_a * dur];
    [None] when the two arrays cannot be combined. *)
Definition duration_product (bpr_a : Q) (p : position) : option (list Q) :=
  np.broadcast2 (fun l d => exp2 l * bpr_a * d) (lart p) (dur p).

Definition durations (bpr_a : Q) (p : position) : list Q :=
  match duration_product bpr_a p with
  | Some product => product
  | None => []
  end.

(** What lines 98-124 compute for one score position, when they raise
    nothing (see [project_raises]). *)
Record projection : Type := mkProjection {
  eq_onset : Q;
  perf_onset_idx : list nat;
  perf_pitch : list Z;
  perf_onset : list Q;
  perf_duration : list Q;
  perf_vel : list Z
}.

Definition project (self : t) (prev_eq_onset : Q) (p : position) : projection :=
  let bpr_a := tempo self in
  let vel_a := vel self in
  let eq_onset := eq_onset_of prev_eq_onset bpr_a p in
  let perf_onset := map (fun x => eq_onset - x) (tim p) in
  let perf_onset_idx := np.argsort perf_onset in
  let perf_onset := np.take 0 perf_onset perf_onset_idx in
  let pitch := np.take 0%Z (pitch p) perf_onset_idx in
  let perf_duration :=
    np.take 0 (durations bpr_a p) perf_onset_idx in
  let perf_vel :=
    np.take 0%Z (map (fun x => perf_vel_of self (vt p) vel_a x) (vd p))
            perf_onset_idx in
  mkProjection eq_onset perf_onset_idx pitch perf_onset perf_duration perf_vel.

(** What lines 111-124 raise on arrays of other lengths than [tim]: the
    index array has one index per entry of [tim], and indexing an array
    that is shorter is an [IndexError]; the product of line 119 is a
    [ValueError] when [lart] and [dur] differ in length and neither has
    length 1. *)
Definition project_raises (self : t) (prev_eq_onset : Q) (p : position)
  : option exception :=
  let perf_onset_idx := perf_onset_idx (project self prev_eq_onset p) in
  if negb (np.index_ok (pitch p) perf_onset_idx) then Some IndexError
  else match duration_product (tempo self) p with
       | None => Some ValueError
       | Some product =>
           if negb (np.index_ok product perf_onset_idx) then Some IndexError
           else if negb (np.index_ok (vd p) perf_onset_idx) then Some IndexError
           else None
       end.

(** The variables of [run] that live across score positions. *)
Record state : Type := mkState {
  self_now : t;
  prev_eq_onset : Q;
  off_messages : list Message;
  readings : list Q;
  outport : list sent
}.

(** The body of [for on in unique_onsets] (lines 88-171).  [calls] are the
    setter calls of the controller thread that land before the body reads
    [self.tempo] and [self.vel]. *)
Definition run_position (init_time : Q) (calls : list call) (st : state) (on : Q)
  : result state :=
  match dict_get (score_dict (self_now st)) on with
  | None => Raised KeyError
  | Some p =>
      let self := apply_calls calls (self_now st) in
      match project_raises self (prev_eq_onset st) p with
      | Some e => Raised e
      | None =>
      let pr := project self (prev_eq_onset st) p in
      match make_messages (perf_pitch pr) (perf_onset pr)
                          (perf_duration pr) (perf_vel pr) with
      | None => Raised ValueError
      | Some (on_messages, new_off) =>
          let off_messages := sort_by_time (off_messages st ++ new_off) in
          bind (send_loop init_time (readings st) on_messages off_messages)
               (fun '(out, offs, clock') =>
                  Done (mkState self (eq_onset pr) offs clock' (outport st ++ out)))
      end
      end
  end.

Fixpoint run_positions (init_time : Q) (controller : list (list call))
  (st : state) (unique_onsets : list Q) : result state :=
  match unique_onsets with
  | [] => Done st
  | on :: rest =>
      bind (run_position init_time (hd [] controller) st on)
           (fun st' => run_positions init_time (tl controller) st' rest)
  end.

(** [run]: [clock] holds the readings of [time.time()], the first of them
    taken for [init_time]; [controller] holds, per score position, the
    setter calls of the controller thread.  The loop starts from
    [prev_eq_onset = 0.5] and an empty [off_messages]. *)
Definition run (self : t) (controller : list (list call)) (clock : list Q)
  : result state :=
  let unique_onsets := np.sort (map fst (score_dict self)) in
  match clock with
  | [] => ClockEnd
  | init_time :: clock =>
      bind (run_positions init_time controller
              (mkState self 0.5 [] clock []) unique_onsets)
           (fun st =>
              bind (drain_loop init_time (readings st) (off_messages st))
                   (fun '(out, offs, clock') =>
                      Done (mkState (self_now st) (prev_eq_onset st) offs clock'
                                    (outport st ++ out))))
  end.

(** The values [eq_onset] takes at line 102 over a sequence of positions. *)
Fixpoint eq_onsets (self : t) (controller : list (list call)) (prev_eq_onset : Q)
  (ps : list position) : list Q :=
  match ps with
  | [] => []
  | p :: ps' =>
      let self := apply_calls (hd [] controller) self in
      let eq_onset := eq_onset_of prev_eq_onset (tempo self) p in
      eq_onset :: eq_onsets self (tl controller) eq_onset ps'
  end.

End Run.

End BasisMixerMidiThread.

(** ** The playback thread with a stop request *)

Module BMThread.

Import mido BasisMixerMidiThread.

Section Run.

Variable pow2_frac : Q -> Q.

(** Modelled from the spec: [BMThread.run] and [stop_playing], which
    [standalone.py] calls, are not in [midi_thread.py].  The spec's
    scheduler checks the stop request once per dispatch iteration of
    Streaming; a request that is seen ends Streaming at once, skips the
    score positions that are left and goes to Draining, which sends what
    the note-off queue holds.  Apart from that check the loop is
    [BasisMixerMidiThread.send_loop].  [stop_after = Some k] says that the
    request becomes visible at the check number [k] (counting from 0),
    [None] that no request is made.  The result also tells whether the
    request was seen. *)
Fixpoint stream_loop (init_time : Q) (clock : list Q) (stop_after : option nat)
  (on_messages off_messages : list Message) {struct clock}
  : result (list sent * list Message * list Q * option nat * bool) :=
  match on_messages with
  | [] => Done ([], off_messages, clock, stop_after, false)
  | on_msg :: on_rest =>
      match stop_after with
      | Some O => Done ([], off_messages, clock, stop_after, true)
      | _ =>
          let stop_after := option_map Nat.pred stop_after in
          match clock with
          | [] => ClockEnd
          | t1 :: clock1 =>
              let current_time := t1 - init_time in
              let due := Qle_bool (time on_msg) current_time in
              let out1 := if due then [(current_time, on_msg)] else [] in
              let on_messages := if due then on_rest else on_messages in
              match off_messages with
              | [] =>
                  bind (stream_loop init_time clock1 stop_after on_messages [])
                       (fun '(out, offs, clock', stop_after', stopped) =>
                          Done (out1 ++ out, offs, clock', stop_after', stopped))
              | off_msg :: off_rest =>
                  match clock1 with
                  | [] => ClockEnd
                  | t2 :: clock2 =>
                      let current_time := t2 - init_time in
                      let due := Qle_bool (time off_msg) current_time in
                      let out2 := if due then [(current_time, off_msg)] else [] in
                      let off_messages := if due then off_rest else off_messages in
                      bind (stream_loop init_time clock2 stop_after
                                        on_messages off_messages)
                           (fun '(out, offs, clock', stop_after', stopped) =>
                              Done (out1 ++ out2 ++ out, offs, clock',
                                    stop_after', stopped))
                  end
              end
          end
      end
  end.

(** One score position: projected and queued as in
    [BasisMixerMidiThread.run_position], then streamed. *)
Definition run_position (init_time : Q) (calls : list call)
  (stop_after : option nat) (st : state) (on : Q)
  : result (state * option nat * bool) :=
  match dict_get (score_dict (self_now st)) on with
  | None => Raised KeyError
  | Some p =>
      let self := apply_calls calls (self_now st) in
      match project_raises pow2_frac self (prev_eq_onset st) p with
      | Some e => Raised e
      | None =>
      let pr := project pow2_frac self (prev_eq_onset st) p in
      match make_messages (perf_pitch pr) (perf_onset pr)
                          (perf_duration pr) (perf_vel pr) with
      | None => Raised ValueError
      | Some (on_messages, new_off) =>
          let off_messages := sort_by_time (off_messages st ++ new_off) in
          bind (stream_loop init_time (readings st) stop_after
                            on_messages off_messages)
               (fun '(out, offs, clock', stop_after', stopped) =>
                  Done (mkState self (eq_onset pr) offs clock' (outport st ++ out),
                        stop_after', stopped))
      end
      end
  end.

Fixpoint run_positions (init_time : Q) (controller : list (list call))
  (stop_after : option nat) (st : state) (unique_onsets : list Q)
  : result (state * bool) :=
  match unique_onsets with
  | [] => Done (st, false)
  | on :: rest =>
      bind (run_position init_time (hd [] controller) stop_after st on)
           (fun '(st', stop_after', stopped) =>
              if stopped then Done (st', true)
              else run_positions init_time (tl controller) stop_after' st' rest)
  end.

(** A finished run: what was sent up to the end of Streaming, whether a stop
    request ended it, the note-off queue at that moment, and what Draining
    sent. *)
Record finished : Type := mkFinished {
  sent_streaming : list sent;
  stop_seen : bool;
  pending_offs : list Message;
  sent_draining : list sent
}.

Definition run (self : t) (controller : list (list call))
  (stop_after : option nat) (clock : list Q) : result finished :=
  let unique_onsets := np.sort (map fst (score_dict self)) in
  match clock with
  | [] => ClockEnd
  | init_time :: clock =>
      bind (run_positions init_time controller stop_after
              (mkState self 0.5 [] clock []) unique_onsets)
           (fun '(st, stopped) =>
              bind (drain_loop init_time (readings st) (off_messages st))
                   (fun '(out, _, _) =>
                      Done (mkFinished (outport st) stopped (off_messages st) out)))
  end.

End Run.

End BMThread.

(** * Vocabulary of the statements, and example inputs *)

(** ** LeapControl *)

Section LeapControlVocabulary.

Import LeapControl.

(** The velocity level the spec's LiveControlSurface holds: an integer in
    the MIDI range 0..127. *)
Definition midi_velocity_level (x : Q) : Prop :=
  exists z : Z, (0 <= z <= 127)%Z /\ x == inject_Z z.

Definition two_songs : t :=
  mkLeapControl ["beethoven"%string; "chopin"%string] 0 "beethoven"%string None.

Definition idle_thread : BMThread := mkBMThread 1 0 50 true.

Definition playing_control : t :=
  mkLeapControl ["beethoven"%string; "chopin"%string] 0 "beethoven"%string
                (Some idle_thread).

(** [cur_song] is the entry of [song_list] that [cur_song_id] names. *)
Definition song_in_step (self : t) : Prop :=
  py_getitem (song_list self) (cur_song_id self) = Some (cur_song self).

(** The object a method leaves behind, whether it returns or raises. *)
Definition state_of (o : outcome) : t :=
  match o with
  | Returned self => self
  | Raised _ self => self
  end.

(** A control change on channel 0. *)
Definition control (number value : Z) : in_message :=
  mkInMessage "control_change" 0 number value.

(** The one message that makes [parse_midi_msg] call [play]. *)
Definition is_play_command (msg : in_message) : bool :=
  String.eqb (msg_type msg) "control_change" && (msg_channel msg =? 0)%Z
  && (msg_control msg =? 24)%Z && (msg_value msg =? 127)%Z.

(** A constructor for the examples: the thread starts from these values
    whatever the song. *)
Definition fresh_thread (song : string) : BMThread := mkBMThread 0 0 0 false.

End LeapControlVocabulary.

(** ** Literal playback *)

Section LiteralVocabulary.

Import mido MidiThread.

(** The messages an effect list sends, in order. *)
Fixpoint sent_messages (out : list effect) : list Message :=
  match out with
  | [] => []
  | send m :: out' => m :: sent_messages out'
  | sleep _ :: out' => sent_messages out'
  end.

Fixpoint sleep_lengths (out : list effect) : list Q :=
  match out with
  | [] => []
  | sleep s :: out' => s :: sleep_lengths out'
  | send _ :: out' => sleep_lengths out'
  end.

(** An override the transport accepts: none, or a MIDI data byte. *)
Definition override_ok (ov : option Z) : Prop :=
  match ov with
  | None => True
  | Some v => (0 <= v <= 127)%Z
  end.


Definition two_note_file : list Message :=
  [mkMessage note_on 60 64 1; mkMessage note_off 60 64 (1 # 2);
   mkMessage note_on 62 0 1].

(** A note-on that starts a note: its velocity is not 0. *)
Definition sounding (msg : Message) : bool :=
  is_note_on msg && negb (velocity msg =? 0)%Z.

Definition Qsum (l : list Q) : Q := fold_right Qplus 0 l.

(** A file with a control change, a note and the end of the note. *)
Definition pedal_file : list Message :=
  [mkMessage (other "control_change") 64 127 0; mkMessage note_on 60 64 (1 # 2);
   mkMessage note_off 60 64 1].

(** The meta message that ends every track of a MIDI file. *)
Definition end_of_track : Message := mkMessage (meta "end_of_track") 0 0 0.

(** The two files as [mido.MidiFile] yields them, end of track included. *)
Definition two_note_track : list Message := two_note_file ++ [end_of_track].

Definition pedal_track : list Message := pedal_file ++ [end_of_track].

(** A file that names its track before the first note. *)
Definition named_track : list Message :=
  mkMessage (meta "track_name") 0 0 0 :: two_note_track.

End LiteralVocabulary.

(** ** Orders and merges *)

(** The key at index [i] of the array [v]. *)
Definition keyv (v : list Q) (i : nat) : Q := nth i v 0.

(** [a] comes before [b] in an ascending order of the keys whose ties keep
    the array order. *)
Definition precedes (v : list Q) (a b : nat) : Prop :=
  keyv v a < keyv v b \/ (keyv v a == keyv v b /\ (a < b)%nat).

(** One insertion, read on the reversed sorted prefix: the new entry [vi]
    passes the entries whose key is larger than its own. *)
Fixpoint ins_rev (v : list Q) (vi : nat) (rl : list nat) : list nat :=
  match rl with
  | [] => [vi]
  | e :: rl' =>
      if Qlt_bool (keyv v vi) (keyv v e) then e :: ins_rev v vi rl' else vi :: rl
  end.

Fixpoint isort_rev (v : list Q) (rl : list nat) (rest : list nat) : list nat :=
  match rest with
  | [] => rl
  | x :: rest' => isort_rev v (ins_rev v x rl) rest'
  end.

(** [l] is [l1] and [l2] merged, each in its own order. *)
Inductive Interleave {A : Type} : list A -> list A -> list A -> Prop :=
| Interleave_nil : Interleave [] [] []
| Interleave_left (a : A) (l1 l2 l : list A) :
    Interleave l1 l2 l -> Interleave (a :: l1) l2 (a :: l)
| Interleave_right (a : A) (l1 l2 l : list A) :
    Interleave l1 l2 l -> Interleave l1 (a :: l2) (a :: l).

(** ** The index array during [np.argsort] *)

Section SortVocabulary.

Local Open Scope nat_scope.

(** [a'] differs from [a] only between the offsets [pl] and [pr], where it
    holds the same entries in another order. *)
Definition permuted_within (pl pr : nat) (a a' : list nat) : Prop :=
  length a' = length a /\
  (forall i, i < pl \/ pr < i -> nth i a' 0 = nth i a 0) /\
  Permutation a' a.

(** The keys between the offsets [pl] and [pr] ascend. *)
Definition sorted_between (v : list Q) (pl pr : nat) (a : list nat) : Prop :=
  forall i j, pl <= i -> i <= j -> j <= pr -> (np.key v a i <= np.key v a j)%Q.

(** The key at heap position [k] (counting from 1) of the range at [pl]. *)
Definition heap_key (v : list Q) (pl : nat) (a : list nat) (k : nat) : Q :=
  keyv v (np.heap_get a pl k).

(** Every child up to [n] whose parent is [lo] or later is not above its
    parent. *)
Definition heap_from (v : list Q) (pl : nat) (a : list nat) (n lo : nat)
  : Prop :=
  forall c, 2 <= c <= n -> lo <= c / 2 ->
            (heap_key v pl a c <= heap_key v pl a (c / 2))%Q.

(** The ranges the stack holds. *)
Definition ranges_of (stack : list (nat * nat * Z)) : list (nat * nat) :=
  map fst stack.

Definition inside (X : nat * nat) (i : nat) : Prop := fst X <= i <= snd X.

Definition apart (X Y : nat * nat) : Prop := snd X < fst Y \/ snd Y < fst X.

Fixpoint disjoint_ranges (R : list (nat * nat)) : Prop :=
  match R with
  | [] => True
  | X :: R' => Forall (apart X) R' /\ disjoint_ranges R'
  end.

Definition weight (R : list (nat * nat)) : nat :=
  list_sum (map (fun X => snd X - fst X + 1) R).

(** The state of the sort between two steps: [a] holds the indices
    [0 .. n-1], the ranges still to be sorted are non-empty, inside the
    array and disjoint, and two offsets are in key order unless one pending
    range holds both. *)
Definition pending_ok (v : list Q) (n : nat) (a : list nat)
  (R : list (nat * nat)) : Prop :=
  length a = n /\
  Permutation a (seq 0 n) /\
  Forall (fun X => fst X <= snd X /\ snd X < n) R /\
  disjoint_ranges R /\
  forall i j, i < j -> j < n ->
    (np.key v a i <= np.key v a j)%Q \/
    Exists (fun X => inside X i /\ inside X j) R.

End SortVocabulary.

(** ** The expressive thread *)

Section ExpressiveVocabulary.

Import mido BasisMixerMidiThread.

(** How many note-on messages a part of the port holds. *)
Definition note_ons_in (out : list sent) : nat :=
  length (filter is_note_on (map snd out)).

(** Every message is sent at or after its scheduled time. *)
Definition on_time (out : list sent) : Prop :=
  Forall (fun s => time (snd s) <= fst s) out.

(** How many of the clock readings show an elapsed time of [deadline] or
    more. *)
Definition readings_from (init_time deadline : Q) (clock : list Q) : nat :=
  length (filter (fun t => Qle_bool deadline (t - init_time)) clock).

(** [off] is a note-off for the note that [on] starts. *)
Definition answers (on off : Message) : Prop :=
  type off = note_off /\ note off = note on /\ velocity off = velocity on.

Definition answered_in (on : Message) (l : list Message) : Prop :=
  exists off, In off l /\ answers on off.

(** What holds of the port and of the note-off queue between positions:
    the queue holds note-offs only, everything was sent on time, and every
    note-on sent has its note-off on the port or in the queue. *)
Definition queues_ok (port : list sent) (off_queue : list Message) : Prop :=
  Forall (fun m => type m = note_off) off_queue /\
  on_time port /\
  forall on, In on (map snd port) -> type on = note_on ->
             answered_in on (map snd port ++ off_queue).

(** The thread object as the body of the loop reads it at position [n]
    (counting from 0), after the setter calls of [controller] up to there. *)
Fixpoint thread_at (self : t) (controller : list (list call)) (n : nat) : t :=
  let self := apply_calls (hd [] controller) self in
  match n with
  | O => self
  | S n' => thread_at self (tl controller) n'
  end.

(** The score positions in the order [run] visits them. *)
Definition ordered_positions (self : t) : list position :=
  flat_map (fun on => match dict_get (score_dict self) on with
                      | Some p => [p]
                      | None => []
                      end)
           (np.sort (map fst (score_dict self))).

(** A stand-in for the float power at fractional exponents, for examples in
    which every exponent is an integer. *)
Definition pow2_frac_unused (x : Q) : Q := 1.

(** The thread of scenarios B and C: [vel_min = 30], [vel_max = 110]. *)
Definition default_thread : t := init [] 30 110.

(** Scenario A: one position, one note, [lbpr = 0], [ioi = 1.0]. *)
Definition scenario_a : t :=
  init [(0, mkPosition [60%Z] 1.0 [1] 1 [0] 0 [0] [0] [0])] 30 110.

(** One position, one note, [lbpr = 1] and [ioi = 1.0]: the beat period is
    doubled. *)
Definition doubled_beat : t :=
  init [(0, mkPosition [60%Z] 1.0 [1] 1 [0] 1 [0] [0] [0])] 30 110.

(** Scenario D: two notes whose onsets are 2.0 and 1.5. *)
Definition scenario_d : position :=
  mkPosition [60%Z; 64%Z] 1.5 [1; 1] 1 [0; 0] 0 [0; 0.5] [0; 0] [0; 0].

(** A chord of 17 notes that all start together. *)
Definition chord17 : position :=
  mkPosition (map Z.of_nat (seq 60 17)) 0 (repeat 1 17) 1 (repeat 0 17) 0
             (repeat 0 17) (repeat 0 17) (repeat 0 17).

(** Scenario E: a chord of two notes, then a third note one beat later. *)
Definition scenario_e : t :=
  init [(0, mkPosition [60%Z; 64%Z] 0 [1; 2] 1 [0; 0] 0 [0; 0] [0; 0] [0; 0]);
        (1, mkPosition [67%Z] 1 [1] 1 [0] 0 [0] [0] [0])] 30 110.

(** The clock starts at 100; the stop request is seen at the fourth check,
    after both notes of the chord have been started and before the third
    note is due. *)
Definition scenario_e_clock : list Q :=
  [100; 100.5; 100.5; 100.501; 100.501; 100.9; 100.9; 101.5; 102.5; 102.501;
   102.502].

(** A note held back by 0.1 s, and 0.03 s after its score position a chord
    of two notes, the second of them short: its note-off is due at 0.58,
    before the held-back note starts at 0.6. *)
Definition late_chord : t :=
  init [(0, mkPosition [60%Z] 0 [0.5] 1 [0] 0 [-0.1] [0] [0]);
        (0.25, mkPosition [64%Z; 67%Z] 0.03 [1; 0.04] 1 [0; 0] 0 [0; -0.01]
                          [0; 0] [0; 0])] 30 110.

(** The clock starts at 100 and is always on time: every message of the
    first position goes out at its scheduled time, and the loop turns once
    per millisecond afterwards.  (Turns of the loop in which nothing is due
    are left out.) *)
Definition late_chord_clock : list Q :=
  [100; 100.3; 100.3; 100.6; 100.6; 100.601; 100.601; 100.602; 100.602;
   101.1; 101.53].

(** A note-on of [port] is answered when a note-off for its note and
    velocity has been sent at the same or a later time. *)
Definition answered_later (port : list sent) : Prop :=
  forall on, In on port -> type (snd on) = note_on ->
  exists off, In off port /\ answers (snd on) (snd off) /\ fst on <= fst off.

(** The positions [run] reads for the keys [onsets], in that order. *)
Definition positions_at (d : list (Q * position)) (onsets : list Q)
  : list position :=
  flat_map (fun on => match dict_get d on with
                      | Some p => [p]
                      | None => []
                      end) onsets.

(** The pitches of the score, position after position in the order [run]
    visits them. *)
Definition score_pitches (self : t) : list Z :=
  flat_map pitch (ordered_positions self).

(** The arrays of every position have one length, and the pitches are data
    bytes. *)
Definition well_formed_score (d : list (Q * position)) : Prop :=
  Forall (fun kp => same_shape (snd kp) = true /\
                    Forall (fun x => (0 <= x <= 127)%Z) (pitch (snd kp))) d.

(** A chord of two notes whose [tim] array has one entry only, and one
    whose [tim] array has three. *)
Definition short_tim_chord : t :=
  init [(0, mkPosition [60%Z; 64%Z] 0 [1; 1] 1 [0; 0] 0 [0] [0; 0] [0; 0])]
       30 110.

Definition long_tim_chord : t :=
  init [(0, mkPosition [60%Z; 64%Z] 0 [1; 1] 1 [0; 0] 0 [0; 0; 0] [0; 0] [0; 0])]
       30 110.

(** The arrays of every position have one length. *)
Definition even_shapes (d : list (Q * position)) : Prop :=
  Forall (fun kp => same_shape (snd kp) = true) d.

(** The velocity band lies inside the data bytes. *)
Definition midi_band (self : t) : Prop :=
  (0 <= vel_min self)%Z /\ (vel_min self <= vel_max self)%Z /\
  (vel_max self <= 127)%Z.

Definition in_band (self : t) (m : Message) : Prop :=
  (vel_min self <= velocity m <= vel_max self)%Z.

(** The messages [run] makes for the keys [onsets] (lines 88-143, without
    the clock): for every position its note-ons, then its note-offs.  The
    list ends where [run] would raise. *)
Fixpoint planned (pow2_frac : Q -> Q) (self : t) (controller : list (list call))
  (prev_eq_onset : Q) (onsets : list Q) : list Message :=
  match onsets with
  | [] => []
  | on :: rest =>
      match dict_get (score_dict self) on with
      | None => []
      | Some p =>
          let self := apply_calls (hd [] controller) self in
          match project_raises pow2_frac self prev_eq_onset p with
          | Some _ => []
          | None =>
          let pr := project pow2_frac self prev_eq_onset p in
          match make_messages (perf_pitch pr) (perf_onset pr)
                              (perf_duration pr) (perf_vel pr) with
          | None => []
          | Some (on_messages, off_messages) =>
              on_messages ++ off_messages
              ++ planned pow2_frac self (tl controller) (eq_onset pr) rest
          end
          end
      end
  end.

(** Every reading of [clock] shows an elapsed time of [deadline] or more. *)
Definition all_late (init_time deadline : Q) (clock : list Q) : Prop :=
  Forall (fun t => deadline <= t - init_time) clock.

(** A clock first read at 100 and then, twelve times, long after the piece
    is over: whatever is waiting is due. *)
Definition late_clock : list Q := 100 :: repeat 200 12.

(** A thread whose band reaches above the data bytes. *)
Definition loud_thread : t :=
  init [(0, mkPosition [60%Z] 0 [1] 1 [0] 0 [0] [0] [0])] 30 200.

(** A thread whose band is the wrong way round. *)
Definition swapped_thread : t := init [] 110 30.

End ExpressiveVocabulary.

(** * Proofs *)

(** ** Comparisons on rationals *)

Lemma Qlt_bool_iff (x y : Q) : Qlt_bool x y = true <-> x < y.
Proof.
  unfold Qlt_bool. rewrite negb_true_iff.
  split; intro H.
  - apply Qnot_le_lt. intro Hle. apply Qle_bool_iff in Hle. congruence.
  - destruct (Qle_bool y x) eqn:E; [|reflexivity].
    apply Qle_bool_iff in E. lra.
Qed.

Lemma Qlt_bool_false_iff (x y : Q) : Qlt_bool x y = false <-> y <= x.
Proof.
  unfold Qlt_bool. rewrite negb_false_iff. apply Qle_bool_iff.
Qed.

Lemma Qle_bool_false_iff (x y : Q) : Qle_bool x y = false <-> y < x.
Proof.
  split; intro H.
  - apply Qnot_le_lt. intro Hle. apply Qle_bool_iff in Hle. congruence.
  - destruct (Qle_bool x y) eqn:E; [|reflexivity].
    apply Qle_bool_iff in E. lra.
Qed.


(** ** LeapControl: song selection and the velocity mapping *)

Section LeapControlFacts.

Import LeapControl.

Lemma py_getitem_in_range {A : Type} (l : list A) (i : Z) :
  (- Z.of_nat (length l) <= i < Z.of_nat (length l))%Z ->
  exists x, py_getitem l i = Some x.
Proof.
  intros [Hlo Hhi]. unfold py_getitem.
  destruct (0 <=? i)%Z eqn:E0.
  - apply Z.leb_le in E0.
    destruct (nth_error l (Z.to_nat i)) eqn:E; [eauto|].
    apply nth_error_None in E. lia.
  - apply Z.leb_gt in E0.
    destruct (- Z.of_nat (length l) <=? i)%Z eqn:E1.
    + destruct (nth_error l (Z.to_nat (Z.of_nat (length l) + i))) eqn:E; [eauto|].
      apply nth_error_None in E. lia.
    + apply Z.leb_gt in E1. lia.
Qed.

Lemma py_getitem_below_range {A : Type} (l : list A) (i : Z) :
  (i < - Z.of_nat (length l))%Z -> py_getitem l i = None.
Proof.
  intro H. unfold py_getitem.
  destruct (0 <=? i)%Z eqn:E0; [apply Z.leb_le in E0; lia|].
  destruct (- Z.of_nat (length l) <=? i)%Z eqn:E1; [apply Z.leb_le in E1; lia|].
  reflexivity.
Qed.

(** Below [-len(song_list)] the guard lets [val] through and the list access
    raises, with [cur_song_id] already overwritten. *)
Lemma select_song_below_range (val : Z) (self : t) :
  (val < - Z.of_nat (length (song_list self)))%Z ->
  select_song val self =
  Raised IndexError
    (mkLeapControl (song_list self) val (cur_song self) (playback_thread self)).
Proof.
  intro H. unfold select_song.
  replace (val <? Z.of_nat (length (song_list self)))%Z with true
    by (symmetry; apply Z.ltb_lt; lia).
  cbn [song_list cur_song_id]. now rewrite py_getitem_below_range.
Qed.

(** C10, as stated, fails: [val = -3] is below [len(song_list) = 2], yet
    [select_song] does not set the current song to [song_list[val]]; the
    list access raises [IndexError] after [cur_song_id] has become [-3]. *)
Lemma select_song_minus_three_raises :
  (-3 < Z.of_nat (length (song_list two_songs)))%Z /\
  select_song (-3) two_songs =
    Raised IndexError
      (mkLeapControl ["beethoven"%string; "chopin"%string] (-3)
                     "beethoven"%string None) /\
  ~ (exists self', select_song (-3) two_songs = Returned self').
Proof.
  split; [vm_compute; reflexivity|].
  split; [reflexivity|].
  intros [self' H]. vm_compute in H. discriminate H.
Qed.

(** C10 (amended): for every integer [val] with
    [-len(song_list) <= val], [select_song(val)] returns; for
    [val >= len(song_list)] it leaves the object unchanged, and for
    [val < len(song_list)] it sets [cur_song_id] to [val] and the current
    song to [song_list[val]] (a negative [val] counting from the end). *)
Theorem select_song_spec (val : Z) (self : t) :
  (- Z.of_nat (length (song_list self)) <= val)%Z ->
  exists self',
    select_song val self = Returned self' /\
    ((Z.of_nat (length (song_list self)) <= val)%Z -> self' = self) /\
    ((val < Z.of_nat (length (song_list self)))%Z ->
       cur_song_id self' = val /\
       py_getitem (song_list self) val = Some (cur_song self') /\
       song_list self' = song_list self /\
       playback_thread self' = playback_thread self).
Proof.
  intro Hlo. unfold select_song.
  destruct (val <? Z.of_nat (length (song_list self)))%Z eqn:E.
  - apply Z.ltb_lt in E. cbn [song_list cur_song_id cur_song playback_thread].
    destruct (py_getitem_in_range (song_list self) val) as [song Hsong]; [lia|].
    rewrite Hsong. eexists. split; [reflexivity|].
    split; [lia|]. intros _. cbn. auto.
  - apply Z.ltb_ge in E. exists self. split; [reflexivity|].
    split; [reflexivity|lia].
Qed.

Lemma select_song_spec_witness :
  (exists self', select_song 1 two_songs = Returned self' /\
                 cur_song_id self' = 1%Z /\ cur_song self' = "chopin"%string) /\
  (exists self', select_song 2 two_songs = Returned self' /\ self' = two_songs).
Proof.
  split.
  - destruct (select_song_spec 1 two_songs) as (s & Hs & _ & Hin);
      [vm_compute; discriminate|].
    exists s. split; [exact Hs|].
    destruct Hin as (Hid & Hsong & _); [vm_compute; reflexivity|].
    split; [exact Hid|].
    change (Some "chopin"%string = Some (cur_song s)) in Hsong. congruence.
  - destruct (select_song_spec 2 two_songs) as (s & Hs & Hout & _);
      [vm_compute; discriminate|].
    exists s. split; [exact Hs|]. apply Hout. vm_compute. discriminate.
Defined.

(** The two [if] statements of [set_velocity] always bind [out]. *)
Lemma set_velocity_out_cases (val : Q) :
  (val <= 64 /\ set_velocity_out val = Some ((0.5 / 64.0) * val + 0.5)) \/
  (64 < val /\ set_velocity_out val = Some ((2.0 / 127.0) * val)).
Proof.
  unfold set_velocity_out.
  destruct (Qle_bool val 64) eqn:E.
  - left. apply Qle_bool_iff in E. split; [exact E|].
    replace (Qlt_bool 64 val) with false; [reflexivity|].
    symmetry. apply Qlt_bool_false_iff. exact E.
  - right. apply Qle_bool_false_iff in E. split; [exact E|].
    replace (Qlt_bool 64 val) with true; [reflexivity|].
    symmetry. apply Qlt_bool_iff. exact E.
Qed.

(** C9, as stated, fails: the raw value 0 lies in [0, 127] and is mapped to
    1/2, which is no integer of the MIDI range 0..127. *)
Lemma set_velocity_zero_not_midi :
  0 <= 0 <= 127 /\
  set_velocity 0 playing_control =
    Returned (mkLeapControl ["beethoven"%string; "chopin"%string] 0
                "beethoven"%string
                (Some (mkBMThread 1 0 ((0.5 / 64.0) * 0 + 0.5) true))) /\
  (0.5 / 64.0) * 0 + 0.5 == 1 # 2 /\
  ~ midi_velocity_level ((0.5 / 64.0) * 0 + 0.5).
Proof.
  split; [split; discriminate|].
  split; [reflexivity|].
  split; [reflexivity|].
  intros (z & _ & Hz).
  assert (H : inject_Z (2 * z) == 1).
  { rewrite inject_Z_mult. rewrite <- Hz. reflexivity. }
  unfold Qeq, inject_Z in H. cbn [Qnum Qden] in H. lia.
Qed.

(** C9 (amended): for every raw controller value in [0, 127] the mapping of
    [set_velocity] hands the playback thread's velocity setter a scale
    factor in [0.5, 2]: [(0.5 / 64) * val + 0.5] up to 64 and
    [(2 / 127) * val] above; it is not a velocity in MIDI units. *)
Theorem set_velocity_scale_range (val : Q) (self : t) (th : BMThread) :
  0 <= val <= 127 ->
  playback_thread self = Some th ->
  exists out,
    set_velocity val self =
      Returned (mkLeapControl (song_list self) (cur_song_id self) (cur_song self)
                  (Some (thread_set_velocity out th))) /\
    1 # 2 <= out <= 2 /\
    (val <= 64 -> out == (1 # 128) * val + (1 # 2)) /\
    (64 < val -> out == (2 # 127) * val).
Proof.
  intros [Hlo Hhi] Hth. unfold set_velocity. rewrite Hth.
  assert (Hlow : (0.5 / 64.0) * val + 0.5 == (1 # 128) * val + (1 # 2)) by field.
  assert (Hhigh : (2.0 / 127.0) * val == (2 # 127) * val) by field.
  destruct (set_velocity_out_cases val) as [[Hle E] | [Hgt E]]; rewrite E.
  - eexists. split; [reflexivity|]. rewrite Hlow.
    split; [split; lra|]. split; [intros _; reflexivity | intro; lra].
  - eexists. split; [reflexivity|]. rewrite Hhigh.
    split; [split; lra|]. split; [intro; lra | intros _; reflexivity].
Qed.

Lemma set_velocity_scale_range_witness :
  exists out,
    set_velocity 127 playing_control =
      Returned (mkLeapControl ["beethoven"%string; "chopin"%string] 0
                  "beethoven"%string (Some (thread_set_velocity out idle_thread))) /\
    1 # 2 <= out <= 2.
Proof.
  destruct (set_velocity_scale_range 127 playing_control idle_thread)
    as (out & Hrun & Hrange & _).
  - split; discriminate.
  - reflexivity.
  - exists out. split; [exact Hrun | exact Hrange].
Defined.

End LeapControlFacts.

(** ** MidiThread: literal playback *)

Section LiteralPlayback.

Import mido MidiThread.

Lemma check_data_byte_true (v : Z) :
  (0 <= v <= 127)%Z -> check_data_byte v = true.
Proof.
  intro H. unfold check_data_byte.
  apply andb_true_intro. split; apply Z.leb_le; lia.
Qed.

Lemma sent_messages_app (a b : list effect) :
  sent_messages (a ++ b) = sent_messages a ++ sent_messages b.
Proof.
  induction a as [|[s|m] a IH]; cbn [app sent_messages]; now rewrite ?IH.
Qed.

Lemma sleep_lengths_app (a b : list effect) :
  sleep_lengths (a ++ b) = sleep_lengths a ++ sleep_lengths b.
Proof.
  induction a as [|[s|m] a IH]; cbn [app sleep_lengths]; now rewrite ?IH.
Qed.

Lemma play_msg_total (self : t) (msg : Message) :
  override_ok (vel self) -> exists pm, play_msg self msg = Some pm.
Proof.
  intro Hov. unfold play_msg.
  destruct (type msg); eauto.
  destruct (negb (velocity msg =? 0)%Z); eauto.
  destruct (vel self) as [v|]; eauto.
  unfold copy_velocity. cbn in Hov. rewrite check_data_byte_true by exact Hov.
  eauto.
Qed.

Lemma play_msg_time (self : t) (msg pm : Message) :
  play_msg self msg = Some pm -> time pm = time msg.
Proof.
  unfold play_msg, copy_velocity. intro H.
  destruct (type msg); try (injection H as <-; reflexivity).
  destruct (negb (velocity msg =? 0)%Z); try (injection H as <-; reflexivity).
  destruct (vel self) as [v|]; try (injection H as <-; reflexivity).
  destruct (check_data_byte v); [injection H as <-; reflexivity | discriminate].
Qed.


Lemma play_msg_meta (self : t) (msg pm : Message) :
  play_msg self msg = Some pm -> is_meta pm = is_meta msg.
Proof.
  unfold play_msg, copy_velocity, is_meta. intro H.
  destruct (type msg) eqn:Ety; try (injection H as <-; now rewrite Ety).
  destruct (negb (velocity msg =? 0)%Z); try (injection H as <-; now rewrite Ety).
  destruct (vel self) as [v|]; try (injection H as <-; now rewrite Ety).
  destruct (check_data_byte v); [injection H as <-; reflexivity | discriminate].
Qed.

Lemma emit_nil (o : outcome) : emit [] o = o.
Proof. destruct o; reflexivity. Qed.

Lemma emit_emit (pre1 pre2 : list effect) (o : outcome) :
  emit pre1 (emit pre2 o) = emit (pre1 ++ pre2) o.
Proof. destruct o; cbn [emit]; now rewrite app_assoc. Qed.

Lemma run_loop_app (self : t) (pre rest : list Message) :
  run_loop self (pre ++ rest) [] =
  match run_loop self pre [] with
  | Returned out1 => emit out1 (run_loop self rest [])
  | Raised e out1 => Raised e out1
  end.
Proof.
  induction pre as [|m pre IH].
  - cbn [app run_loop]. now rewrite emit_nil.
  - cbn [app run_loop hd tl apply_calls fold_left].
    destruct (play_msg self m) as [pm|]; [|reflexivity].
    destruct (Qlt_bool (time pm * tempo self) 0); [reflexivity|].
    destruct (is_meta pm); [reflexivity|].
    rewrite IH. destruct (run_loop self pre []); cbn [emit].
    + now rewrite emit_emit.
    + reflexivity.
Qed.

(** Messages that are no meta messages and whose delays can be slept are
    played one after the other. *)
Lemma run_loop_plays (self : t) (pre : list Message) :
  override_ok (vel self) ->
  Forall (fun m => is_meta m = false) pre ->
  (forall m, In m pre -> 0 <= time m * tempo self) ->
  exists out,
    run_loop self pre [] = Returned out /\
    sleep_lengths out = map (fun m => time m * tempo self) pre /\
    Forall2 (fun msg pm => play_msg self msg = Some pm) pre (sent_messages out).
Proof.
  intros Hov Hmeta. induction Hmeta as [|m pre Hm _ IH]; intro Htimes.
  - exists []. repeat split. constructor.
  - destruct IH as (out & E & Hs & Hf); [intros x Hx; apply Htimes; now right|].
    cbn [run_loop hd tl apply_calls fold_left].
    destruct (play_msg_total self m Hov) as [pm Hpm]. rewrite Hpm.
    rewrite (play_msg_meta self m pm Hpm), Hm.
    replace (Qlt_bool (time pm * tempo self) 0) with false.
    2:{ symmetry. apply Qlt_bool_false_iff. rewrite (play_msg_time _ _ _ Hpm).
        apply Htimes. now left. }
    rewrite E. eexists. split; [reflexivity|].
    cbn [emit app sleep_lengths sent_messages map]. split.
    + now rewrite Hs, (play_msg_time _ _ _ Hpm).
    + now constructor.
Qed.

(** At a meta message the delay is slept and [send] raises. *)
Lemma run_loop_meta (self : t) (m : Message) (post : list Message) :
  is_meta m = true -> 0 <= time m * tempo self ->
  run_loop self (m :: post) [] = Raised TypeError [sleep (time m * tempo self)].
Proof.
  intros Hm Ht. cbn [run_loop hd tl apply_calls fold_left].
  assert (Hpm : play_msg self m = Some m).
  { unfold play_msg. unfold is_meta in Hm. now destruct (type m). }
  rewrite Hpm, Hm.
  replace (Qlt_bool (time m * tempo self) 0) with false; [reflexivity|].
  symmetry. now apply Qlt_bool_false_iff.
Qed.



(** C8, as stated, fails: two runs over the same two messages start with
    the same values (no override, tempo 1); in the second one the setters
    are called after the first message has been played, and the second
    message is sent with another velocity after another sleep. *)
Lemma literal_run_setters_after_start :
  let self := init [mkMessage note_on 60 64 1; mkMessage note_on 62 64 1] in
  let late_calls := [[]; [call_set_velocity (Some 100%Z); call_set_tempo 2]] in
  run self [] =
    Returned [sleep (1 * 1); send (mkMessage note_on 60 64 1);
              sleep (1 * 1); send (mkMessage note_on 62 64 1)] /\
  run self late_calls =
    Returned [sleep (1 * 1); send (mkMessage note_on 60 64 1);
              sleep (1 * 2); send (mkMessage note_on 62 100 1)] /\
  run self late_calls <> run self [].
Proof.
  cbv zeta. split; [reflexivity|]. split; [reflexivity|].
  vm_compute. discriminate.
Qed.

Lemma run_loop_emit_app (self : t) (msgs1 msgs2 : list Message)
  (calls : list call) :
  run_loop self (msgs1 ++ msgs2) (repeat [] (length msgs1) ++ [calls]) =
  match run_loop self msgs1 [] with
  | Returned out1 => emit out1 (run_loop (apply_calls calls self) msgs2 [])
  | Raised e out1 => Raised e out1
  end.
Proof.
  induction msgs1 as [|msg rest IH].
  - cbn [app length repeat run_loop]. rewrite emit_nil.
    destruct msgs2 as [|m2 rest2]; reflexivity.
  - cbn [app length repeat run_loop hd tl apply_calls fold_left].
    destruct (play_msg self msg) as [pm|]; [|reflexivity].
    destruct (Qlt_bool _ 0); [reflexivity|].
    destruct (is_meta pm); [reflexivity|].
    rewrite IH. destruct (run_loop self rest []) as [out1|e out1].
    + cbn [emit]. now rewrite emit_emit.
    + reflexivity.
Qed.

Lemma apply_calls_midi (cs : list call) (s : t) :
  midi (apply_calls cs s) = midi s.
Proof.
  revert s. induction cs as [|c cs IH]; intro s; [reflexivity|].
  cbn [apply_calls fold_left]. unfold apply_calls in IH. rewrite IH.
  destruct c; reflexivity.
Qed.

Lemma apply_calls_vel_tempo (cs : list call) (s s' : t) :
  vel s = vel s' -> tempo s = tempo s' ->
  vel (apply_calls cs s) = vel (apply_calls cs s') /\
  tempo (apply_calls cs s) = tempo (apply_calls cs s').
Proof.
  revert s s'. induction cs as [|c cs IH]; intros s s' Hv Ht; [now split|].
  cbn [apply_calls fold_left]. apply IH; destruct c; cbn; congruence.
Qed.

(** The loop reads the thread object only through [vel] and [tempo]. *)
Lemma run_loop_ext (msgs : list Message) (ctl : list (list call)) (s s' : t) :
  vel s = vel s' -> tempo s = tempo s' ->
  run_loop s msgs ctl = run_loop s' msgs ctl.
Proof.
  revert ctl s s'. induction msgs as [|m ms IH]; intros ctl s s' Hv Ht;
    [reflexivity|].
  cbn [run_loop].
  destruct (apply_calls_vel_tempo (hd [] ctl) s s' Hv Ht) as [Hv' Ht'].
  unfold play_msg. rewrite Hv', Ht'.
  destruct (match type m with
            | note_on => _ | note_off => _ | other _ => _ | meta _ => _
            end) as [pm|]; [|reflexivity].
  destruct (Qlt_bool _ 0); [reflexivity|].
  destruct (is_meta pm); [reflexivity|].
  now rewrite (IH (tl ctl) _ _ Hv' Ht').
Qed.

(** C8 (amended): in literal playback the velocity override and the tempo
    stretch are read again for every message.  When the setters are called
    after the messages [msgs1] have been played, those messages are sent
    and timed with the values the thread started with, and every later
    message [msgs2] with the values the calls have set; without calls the
    start values hold throughout. *)
Theorem literal_run_reads_per_message (self : t) (msgs1 msgs2 : list Message)
  (calls : list call) :
  run (mkMidiThread (msgs1 ++ msgs2) (vel self) (tempo self))
      (repeat [] (length msgs1) ++ [calls]) =
  match run (mkMidiThread msgs1 (vel self) (tempo self)) [] with
  | Returned out1 =>
      emit out1
        (run (apply_calls calls (mkMidiThread msgs2 (vel self) (tempo self))) [])
  | Raised e out1 => Raised e out1
  end.
Proof.
  unfold run. cbn [midi]. rewrite run_loop_emit_app.
  rewrite (run_loop_ext msgs1 [] _ (mkMidiThread msgs1 (vel self) (tempo self)))
    by reflexivity.
  destruct (run_loop (mkMidiThread msgs1 (vel self) (tempo self)) msgs1 []);
    [|reflexivity].
  rewrite apply_calls_midi. cbn [midi]. f_equal.
  apply run_loop_ext; apply apply_calls_vel_tempo; reflexivity.
Qed.

End LiteralPlayback.

(** ** BasisMixerMidiThread: velocities and the equivalent onset *)

Section Projection.

Import mido BasisMixerMidiThread.

Lemma Qmax_inject_Z (a b : Z) :
  Qmax (inject_Z a) (inject_Z b) = inject_Z (Z.max a b).
Proof.
  unfold Qmax, GenericMinMax.gmax, Z.max, Qcompare, inject_Z. cbn [Qnum Qden].
  rewrite !Z.mul_1_r. destruct (a ?= b)%Z; reflexivity.
Qed.

Lemma Qmin_inject_Z (a b : Z) :
  Qmin (inject_Z a) (inject_Z b) = inject_Z (Z.min a b).
Proof.
  unfold Qmin, GenericMinMax.gmin, Z.min, Qcompare, inject_Z. cbn [Qnum Qden].
  rewrite !Z.mul_1_r. destruct (a ?= b)%Z; reflexivity.
Qed.

Lemma astype_int_inject_Z (z : Z) : np.astype_int (inject_Z z) = z.
Proof. unfold np.astype_int, inject_Z. cbn [Qnum Qden]. apply Z.quot_1_r. Qed.

(** [np.round] stays within one half of its argument. *)
Lemma round_half_even_near (x : Q) :
  x - (1 # 2) <= inject_Z (np.round_half_even x) <= x + (1 # 2).
Proof.
  unfold np.round_half_even.
  pose proof (Qfloor_le x) as Hlo. pose proof (Qlt_floor x) as Hhi.
  rewrite inject_Z_plus in Hhi. change (inject_Z 1) with 1 in Hhi.
  destruct (Qcompare (x - inject_Z (Qfloor x)) (1 # 2)) eqn:E.
  - apply Qeq_alt in E.
    destruct (Z.even (Qfloor x)); [|rewrite inject_Z_plus; change (inject_Z 1) with 1];
      split; lra.
  - apply Qlt_alt in E. split; lra.
  - apply Qgt_alt in E. rewrite inject_Z_plus. change (inject_Z 1) with 1.
    split; lra.
Qed.

Lemma perf_vel_of_clip (self : t) (vt vel_a vd : Q) :
  perf_vel_of self vt vel_a vd =
  Z.min (vel_max self) (Z.max (np.round_half_even (vt * vel_a - vd)) (vel_min self)).
Proof.
  unfold perf_vel_of, np.clip, np.round.
  now rewrite Qmax_inject_Z, Qmin_inject_Z, astype_int_inject_Z.
Qed.

(** C2: for every note, whatever [vt], [vd] and the velocity level are, the
    performed velocity is the integer
    [clip(round(vt * velocity - vd), vel_min, vel_max)], the rounding being
    to the nearest integer; with [vel_min <= vel_max] it lies in
    [[vel_min, vel_max]]: a value below is raised to [vel_min], a value
    above is lowered to [vel_max], none is rejected. *)
Theorem perf_velocity_clipped (self : t) (vt vel_a vd : Q) :
  (vel_min self <= vel_max self)%Z ->
  let r := np.round_half_even (vt * vel_a - vd) in
  let v := perf_vel_of self vt vel_a vd in
  inject_Z v ==
    np.clip (np.round (vt * vel_a - vd))
            (inject_Z (vel_min self)) (inject_Z (vel_max self)) /\
  vt * vel_a - vd - (1 # 2) <= inject_Z r <= vt * vel_a - vd + (1 # 2) /\
  (vel_min self <= v <= vel_max self)%Z /\
  ((vel_min self <= r <= vel_max self)%Z -> v = r) /\
  ((r < vel_min self)%Z -> v = vel_min self) /\
  ((vel_max self < r)%Z -> v = vel_max self).
Proof.
  intros Hband r v. subst r v. rewrite perf_vel_of_clip.
  split.
  { unfold np.clip, np.round. now rewrite Qmax_inject_Z, Qmin_inject_Z. }
  split; [apply round_half_even_near|].
  repeat split; intros; lia.
Qed.

Lemma perf_velocity_clipped_witness :
  perf_vel_of default_thread 1.0 64 0.0 = 64%Z /\
  perf_vel_of default_thread 1.0 200 0.0 = 110%Z /\
  (30 <= perf_vel_of default_thread 1.0 200 0.0 <= 110)%Z.
Proof.
  split; [reflexivity|]. split; [reflexivity|].
  destruct (perf_velocity_clipped default_thread 1.0 200 0.0) as (_ & _ & H & _).
  - cbn. lia.
  - exact H.
Defined.

Variable pow2_frac : Q -> Q.

Lemma last_cons_seed {A : Type} (a d : A) (l : list A) :
  last (a :: l) d = last l a.
Proof.
  revert a d. induction l as [|b l IH]; intros a d; [reflexivity|].
  change (last (a :: b :: l) d) with (last (b :: l) d).
  now rewrite !IH.
Qed.

Lemma eq_onsets_snoc (self : t) (controller : list (list call)) (prev : Q)
  (ps : list position) (p : position) :
  eq_onsets pow2_frac self controller prev (ps ++ [p]) =
  eq_onsets pow2_frac self controller prev ps ++
  [last (eq_onsets pow2_frac self controller prev ps) prev
   + exp2 pow2_frac (lbpr p) * tempo (thread_at self controller (length ps)) * ioi p].
Proof.
  revert self controller prev.
  induction ps as [|q ps IH]; intros self controller prev.
  - reflexivity.
  - cbn [app eq_onsets length thread_at]. rewrite IH.
    now rewrite last_cons_seed.
Qed.

Lemma apply_calls_score_dict (cs : list call) (s : t) :
  score_dict (apply_calls cs s) = score_dict s.
Proof.
  revert s. induction cs as [|c cs IH]; intro s; [reflexivity|].
  cbn [apply_calls fold_left]. unfold apply_calls in IH. rewrite IH.
  destruct c; reflexivity.
Qed.

(** Across the positions of a run, [prev_eq_onset] follows [eq_onsets]. *)
Lemma run_positions_eq_onset (init_time : Q) (unique_onsets : list Q) :
  forall (controller : list (list call)) (st st' : state),
  run_positions pow2_frac init_time controller st unique_onsets = Done st' ->
  prev_eq_onset st' =
  last (eq_onsets pow2_frac (self_now st) controller (prev_eq_onset st)
          (flat_map (fun on => match dict_get (score_dict (self_now st)) on with
                               | Some p => [p]
                               | None => []
                               end) unique_onsets))
       (prev_eq_onset st)
  /\ score_dict (self_now st') = score_dict (self_now st).
Proof.
  induction unique_onsets as [|on rest IH]; intros controller st st' H.
  - cbn in H. injection H as <-. now split.
  - cbn [run_positions bind] in H.
    destruct (run_position pow2_frac init_time (hd [] controller) st on)
      as [st1| |] eqn:E1; try discriminate.
    unfold run_position in E1.
    destruct (dict_get (score_dict (self_now st)) on) as [p|] eqn:Ep;
      [|discriminate].
    destruct (project_raises _ _ _ _); [discriminate|].
    destruct (make_messages _ _ _ _) as [[ons offs]|]; [|discriminate].
    destruct (send_loop _ _ _ _) as [[[out offs'] clock']| |]; try discriminate.
    cbn [bind] in E1. injection E1 as <-.
    apply IH in H. cbn [self_now prev_eq_onset] in H.
    rewrite apply_calls_score_dict in H. destruct H as [H Hd].
    split; [|exact Hd].
    rewrite H. cbn [flat_map]. rewrite Ep. cbn [app eq_onsets project eq_onset].
    now rewrite last_cons_seed.
Qed.

Lemma Qred_inject_Z (k : Z) : Qred (inject_Z k) = inject_Z k.
Proof.
  unfold Qred, inject_Z.
  pose proof (Z.ggcd_gcd k 1) as Hg.
  pose proof (Z.ggcd_correct_divisors k 1) as Hd.
  destruct (Z.ggcd k 1) as [g [aa bb]]. cbn [fst snd] in *.
  rewrite Z.gcd_1_r in Hg. subst g. destruct Hd as [Ha Hb].
  rewrite Z.mul_1_l in Ha, Hb. now subst.
Qed.

Lemma exp2_integer (x : Q) (k : Z) :
  x == inject_Z k -> exp2 pow2_frac x = 2 ^ k.
Proof.
  intro Hx. unfold exp2.
  rewrite (Qred_complete _ _ Hx), Qred_inject_Z.
  reflexivity.
Qed.

(** C1: over the score positions in ascending key order the accumulator
    obeys [eq_onset(n) = eq_onset(n-1) + 2^lbpr(n) * tempo * ioi(n)], the
    tempo being the value the thread holds when position [n] is read and
    [eq_onset(-1)] the seed.  The factor [2 ** lbpr] is the power of two
    at every integer [lbpr] (2 at 1, 1 at 0, 1/2 at -1) and the float power
    of [lbpr] itself elsewhere.  [run] seeds the accumulator with 0.5 and
    ends with the last value of that sequence; for one position with
    [lbpr = 0], [ioi = 1.0] and tempo 1.0 the value is 1.5. *)
Theorem eq_onset_recurrence (self : t) (controller : list (list call)) :
  (forall prev ps p,
     eq_onsets pow2_frac self controller prev (ps ++ [p]) =
     eq_onsets pow2_frac self controller prev ps ++
     [last (eq_onsets pow2_frac self controller prev ps) prev
      + exp2 pow2_frac (lbpr p)
        * tempo (thread_at self controller (length ps)) * ioi p]) /\
  (forall prev ps p k,
     lbpr p == inject_Z k ->
     eq_onsets pow2_frac self controller prev (ps ++ [p]) =
     eq_onsets pow2_frac self controller prev ps ++
     [last (eq_onsets pow2_frac self controller prev ps) prev
      + 2 ^ k * tempo (thread_at self controller (length ps)) * ioi p]) /\
  (forall x, (Zpos (Qden (Qred x)) <> 1)%Z ->
     exp2 pow2_frac x = pow2_frac (Qred x)) /\
  (forall clock st,
     run pow2_frac self controller clock = Done st ->
     prev_eq_onset st =
     last (eq_onsets pow2_frac self controller 0.5 (ordered_positions self)) 0.5) /\
  (forall p,
     lbpr p = 0 -> ioi p = 1.0 -> tempo self = 1.0 ->
     exists e, eq_onsets pow2_frac self [] 0.5 [p] = [e] /\ e == 1.5).
Proof.
  split; [intros; apply eq_onsets_snoc|]. split; [|split; [|split]].
  - intros prev ps p k Hk. rewrite eq_onsets_snoc.
    now rewrite (exp2_integer (lbpr p) k Hk).
  - intros x Hx. unfold exp2. apply Z.eqb_neq in Hx. now rewrite Hx.
  - intros clock st H. unfold run in H.
    destruct clock as [|init_time clock]; [discriminate|].
    destruct (run_positions pow2_frac init_time controller _ _) as [st1| |] eqn:E;
      try discriminate.
    cbn [bind] in H.
    destruct (drain_loop _ _ _) as [[[out offs] clock']| |]; try discriminate.
    cbn [bind] in H. injection H as <-. cbn [prev_eq_onset].
    apply run_positions_eq_onset in E. destruct E as [E _]. exact E.
  - intros p Hl Hi Ht. eexists. split; [reflexivity|].
    cbn [hd apply_calls fold_left]. unfold eq_onset_of. rewrite Hl, Hi, Ht.
    reflexivity.
Qed.

Lemma exp2_nonneg (x : Q) :
  (forall y, 0 <= pow2_frac y) -> 0 <= exp2 pow2_frac x.
Proof.
  intro Hfrac. unfold exp2.
  destruct (Z.pos (Qden (Qred x)) =? 1)%Z; [|apply Hfrac].
  apply Qpower_0_le. discriminate.
Qed.

(** C6: over score positions in ascending key order, whose [ioi] is the
    interval to the position before and so not negative, and with a tempo
    above 0 at every position, the accumulator [eq_onset] does not decrease
    from the seed to the first position nor from one position to the
    next. *)
Theorem eq_onsets_nondecreasing (self : t) (controller : list (list call))
  (prev : Q) (ps : list position) :
  (forall y, 0 <= pow2_frac y) ->
  (forall n, (n < length ps)%nat -> 0 < tempo (thread_at self controller n)) ->
  (forall p, In p ps -> 0 <= ioi p) ->
  Sorted Qle (prev :: eq_onsets pow2_frac self controller prev ps).
Proof.
  intro Hfrac. revert self controller prev.
  induction ps as [|p ps IH]; intros self controller prev Htempo Hioi.
  - repeat constructor.
  - cbn [eq_onsets]. constructor.
    + apply IH.
      * intros n Hn. apply (Htempo (S n)). cbn [length]. lia.
      * intros q Hq. apply Hioi. now right.
    + constructor. unfold eq_onset_of.
      assert (H0 : 0 <= exp2 pow2_frac (lbpr p)) by now apply exp2_nonneg.
      assert (H1 : 0 < tempo (apply_calls (hd [] controller) self)).
      { apply (Htempo O). cbn [length]. lia. }
      assert (H2 : 0 <= ioi p) by (apply Hioi; now left).
      assert (H3 : 0 <= exp2 pow2_frac (lbpr p)
                       * tempo (apply_calls (hd [] controller) self) * ioi p).
      { apply Qmult_le_0_compat; [apply Qmult_le_0_compat|]; lra. }
      lra.
Qed.

End Projection.

Section ProjectionExamples.

Import mido BasisMixerMidiThread.

Lemma eq_onset_recurrence_witness :
  (exists st,
     run pow2_frac_unused scenario_a [] [10; 11; 11.5; 11.5; 13] = Done st /\
     prev_eq_onset st == 1.5 /\
     map snd (outport st) =
       [mkMessage note_on 60 64 (0.5 + 1 * 1 * 1.0 - 0);
        mkMessage note_off 60 64 (0.5 + 1 * 1 * 1.0 - 0 + 1 * 1 * 1)]) /\
  (exists st,
     run pow2_frac_unused doubled_beat [] [10; 12.5; 12.5; 13.5] = Done st /\
     prev_eq_onset st == 2.5 /\
     map (fun s => time (snd s)) (outport st) = [0.5 + 2 * 1 * 1.0 - 0;
                                                 0.5 + 2 * 1 * 1.0 - 0 + 1 * 1 * 1]) /\
  (forall prev,
     eq_onsets pow2_frac_unused doubled_beat [] prev
               (ordered_positions doubled_beat)
     = [prev + 2 ^ 1 * 1 * 1.0]).
Proof.
  split; [|split].
  - destruct (eq_onset_recurrence pow2_frac_unused scenario_a [])
      as (_ & _ & _ & Hrun & _).
    assert (Hst : exists st,
               run pow2_frac_unused scenario_a [] [10; 11; 11.5; 11.5; 13]
               = Done st
               /\ map snd (outport st) =
                  [mkMessage note_on 60 64 (0.5 + 1 * 1 * 1.0 - 0);
                   mkMessage note_off 60 64 (0.5 + 1 * 1 * 1.0 - 0 + 1 * 1 * 1)]).
    { eexists. split; [vm_compute; reflexivity|]. reflexivity. }
    destruct Hst as (st & Hst & Hout). exists st. split; [exact Hst|].
    split; [|exact Hout].
    rewrite (Hrun _ _ Hst). vm_compute. reflexivity.
  - destruct (eq_onset_recurrence pow2_frac_unused doubled_beat [])
      as (_ & _ & _ & Hrun & _).
    assert (Hst : exists st,
               run pow2_frac_unused doubled_beat [] [10; 12.5; 12.5; 13.5]
               = Done st
               /\ map (fun s => time (snd s)) (outport st) =
                  [0.5 + 2 * 1 * 1.0 - 0; 0.5 + 2 * 1 * 1.0 - 0 + 1 * 1 * 1]).
    { eexists. split; [vm_compute; reflexivity|]. reflexivity. }
    destruct Hst as (st & Hst & Hout). exists st. split; [exact Hst|].
    split; [|exact Hout].
    rewrite (Hrun _ _ Hst). vm_compute. reflexivity.
  - intro prev.
    destruct (eq_onset_recurrence pow2_frac_unused doubled_beat [])
      as (_ & Hint & _).
    exact (Hint prev [] (mkPosition [60%Z] 1.0 [1] 1 [0] 1 [0] [0] [0]) 1%Z
                (Qeq_refl _)).
Defined.

Lemma eq_onsets_nondecreasing_witness :
  Sorted Qle
    (0.5 :: eq_onsets pow2_frac_unused scenario_a [] 0.5
              (ordered_positions scenario_a)).
Proof.
  apply eq_onsets_nondecreasing.
  - intro y. discriminate.
  - intros n Hn. change (n < 1)%nat in Hn.
    destruct n; [reflexivity | lia].
  - intros p Hp. vm_compute in Hp. destruct Hp as [<- | []]. discriminate.
Defined.

End ProjectionExamples.

(** ** numpy's argsort on short arrays: a stable insertion sort *)

Section ArgsortFacts.

Variable v : list Q.

Local Open Scope nat_scope.

Lemma set_nth_middle (l rest : list nat) (x y : nat) :
  np.set_nth (l ++ x :: rest) (length l) y = l ++ y :: rest.
Proof.
  induction l as [|a l IH]; [reflexivity|].
  cbn [app length np.set_nth]. now rewrite IH.
Qed.

Lemma ins_rev_length (vi : nat) (rl : list nat) :
  length (ins_rev v vi rl) = S (length rl).
Proof.
  induction rl as [|e rl IH]; [reflexivity|].
  cbn [ins_rev]. destruct (Qlt_bool _ _); cbn [length]; now rewrite ?IH.
Qed.

Lemma insertion_shift_spec (l : list nat) :
  forall (x : nat) (rest : list nat) (vi : nat),
  np.insertion_shift v (l ++ x :: rest) 0 vi (length l) =
  rev (ins_rev v vi (rev l)) ++ rest.
Proof.
  induction l as [|e l IH] using rev_ind; intros x rest vi.
  - reflexivity.
  - rewrite length_app, Nat.add_1_r. cbn [np.insertion_shift length].
    rewrite rev_unit. cbn [ins_rev]. unfold np.key, keyv.
    replace (nth (length l) ((l ++ [e]) ++ x :: rest) 0) with e
      by (rewrite <- app_assoc; cbn [app]; now rewrite nth_middle).
    cbn [Nat.ltb Nat.leb andb].
    replace (S (length l)) with (length (l ++ [e]))
      by (now rewrite length_app, Nat.add_1_r).
    rewrite !set_nth_middle.
    destruct (Qlt_bool (nth vi v 0%Q) (nth e v 0%Q)).
    + rewrite <- app_assoc. cbn [app]. rewrite IH.
      cbn [rev]. now rewrite <- app_assoc.
    + cbn [rev]. rewrite rev_involutive. now rewrite <- !app_assoc.
Qed.

Lemma insertion_loop_spec (rest : list nat) :
  forall pre : list nat,
  np.insertion_loop v (length rest) (pre ++ rest) 0 (length pre) =
  rev (isort_rev v (rev pre) rest).
Proof.
  induction rest as [|x rest IH]; intro pre.
  - cbn. now rewrite app_nil_r, rev_involutive.
  - cbn [length np.insertion_loop isort_rev].
    rewrite nth_middle, insertion_shift_spec.
    replace (S (length pre)) with (length (rev (ins_rev v x (rev pre))))
      by (now rewrite length_rev, ins_rev_length, length_rev).
    rewrite IH. now rewrite rev_involutive.
Qed.

Lemma partition_while_small (fuel : nat) (a : list nat) (pl pr : nat)
  (cdepth : Z) (stack : list (nat * nat * Z)) :
  pr - pl <= np.SMALL_QUICKSORT ->
  np.partition_while v fuel a pl pr cdepth stack = (a, pl, pr, stack).
Proof.
  intro H. destruct fuel; [reflexivity|]. cbn [np.partition_while].
  apply Nat.ltb_ge in H. now rewrite H.
Qed.

(** Up to 16 entries [aquicksort] never partitions: [argsort] is the
    insertion sort of the index array. *)
Lemma argsort_small :
  length v <= 16 -> np.argsort v = rev (isort_rev v [] (seq 0 (length v))).
Proof.
  intro Hn. unfold np.argsort, np.aquicksort.
  rewrite Nat.add_1_r. cbn [np.aquicksort_loop].
  replace (np.npy_get_msb (length v) * 2 <? 0)%Z with false.
  2:{ symmetry. apply Z.ltb_ge. unfold np.npy_get_msb.
      pose proof (Z.log2_nonneg (Z.of_nat (length v))). lia. }
  rewrite partition_while_small by (unfold np.SMALL_QUICKSORT; lia).
  unfold np.insertion_sort. rewrite Nat.sub_0_r.
  destruct (length v) as [|n]; [reflexivity|].
  cbn [seq]. replace (S n - 1) with (length (seq 1 n))
    by (rewrite length_seq; lia).
  change (0 :: seq 1 n) with ([0] ++ seq 1 n).
  change 1 with (length [0]) at 2.
  now rewrite insertion_loop_spec.
Qed.

Lemma ins_rev_perm (vi : nat) (rl : list nat) :
  Permutation (ins_rev v vi rl) (vi :: rl).
Proof.
  induction rl as [|e rl IH]; [reflexivity|].
  cbn [ins_rev]. destruct (Qlt_bool _ _); [|reflexivity].
  rewrite IH. apply perm_swap.
Qed.

Lemma isort_rev_perm (rest : list nat) :
  forall rl, Permutation (isort_rev v rl rest) (rl ++ rest).
Proof.
  induction rest as [|x rest IH]; intro rl.
  - cbn. now rewrite app_nil_r.
  - cbn [isort_rev]. rewrite IH, ins_rev_perm.
    cbn [app]. apply Permutation_middle.
Qed.

Lemma precedes_trans_index (a b c : nat) :
  precedes v a b -> (keyv v b <= keyv v c)%Q -> a < c -> precedes v a c.
Proof.
  unfold precedes. intros [Hlt | [Heq Hab]] Hbc Hac.
  - left. lra.
  - destruct (Qlt_le_dec (keyv v b) (keyv v c)); [left; lra|].
    right. split; [lra | exact Hac].
Qed.

(** The reversed prefix stays sorted downwards when a larger index is
    inserted. *)
Lemma ins_rev_sorted (vi : nat) (rl : list nat) :
  StronglySorted (fun a b => precedes v b a) rl ->
  Forall (fun e => e < vi) rl ->
  StronglySorted (fun a b => precedes v b a) (ins_rev v vi rl).
Proof.
  induction rl as [|e rl IH]; intros Hs Hlt.
  - repeat constructor.
  - apply StronglySorted_inv in Hs. destruct Hs as [Hs He].
    inversion Hlt as [|? ? Hev Hlt']; subst.
    cbn [ins_rev]. destruct (Qlt_bool (keyv v vi) (keyv v e)) eqn:E.
    + apply Qlt_bool_iff in E. constructor; [now apply IH|].
      rewrite (ins_rev_perm vi rl). constructor; [|exact He].
      left. exact E.
    + apply Qlt_bool_false_iff in E. constructor.
      * now constructor.
      * constructor.
        -- destruct (Qlt_le_dec (keyv v e) (keyv v vi)); [now left|].
           right. split; [lra | exact Hev].
        -- rewrite Forall_forall in He, Hlt' |- *. intros b Hb.
           apply precedes_trans_index with (b := e);
             [now apply He | exact E | now apply Hlt'].
Qed.

Lemma isort_rev_sorted (rest : list nat) :
  forall rl,
  StronglySorted (fun a b => precedes v b a) rl ->
  StronglySorted lt rest ->
  Forall (fun e => Forall (fun x => e < x) rest) rl ->
  StronglySorted (fun a b => precedes v b a) (isort_rev v rl rest).
Proof.
  induction rest as [|x rest IH]; intros rl Hs Hrest Hlt; [exact Hs|].
  cbn [isort_rev]. apply StronglySorted_inv in Hrest.
  destruct Hrest as [Hrest Hx]. apply IH.
  - apply ins_rev_sorted; [exact Hs|].
    rewrite Forall_forall in Hlt |- *. intros e He.
    specialize (Hlt e He). now inversion Hlt.
  - exact Hrest.
  - rewrite (ins_rev_perm x rl). constructor; [exact Hx|].
    rewrite Forall_forall in Hlt |- *. intros e He.
    specialize (Hlt e He). now inversion Hlt.
Qed.

Lemma StronglySorted_snoc {A : Type} (R : A -> A -> Prop) (l : list A) (a : A) :
  StronglySorted R l -> Forall (fun x => R x a) l -> StronglySorted R (l ++ [a]).
Proof.
  induction l as [|b l IH]; intros Hs Ha.
  - repeat constructor.
  - apply StronglySorted_inv in Hs. destruct Hs as [Hs Hb].
    inversion Ha; subst. cbn [app]. constructor; [now apply IH|].
    apply Forall_app. split; [exact Hb | now constructor].
Qed.

Lemma StronglySorted_rev {A : Type} (R : A -> A -> Prop) (l : list A) :
  StronglySorted (fun a b => R b a) l -> StronglySorted R (rev l).
Proof.
  induction l as [|a l IH]; intro Hs; [constructor|].
  apply StronglySorted_inv in Hs. destruct Hs as [Hs Ha].
  cbn [rev]. apply StronglySorted_snoc; [now apply IH|].
  rewrite Forall_forall in Ha |- *. intros x Hx. apply Ha.
  now apply in_rev.
Qed.

Lemma seq_StronglySorted (s n : nat) : StronglySorted lt (seq s n).
Proof.
  revert s. induction n as [|n IH]; intro s; [constructor|].
  cbn [seq]. constructor; [apply IH|].
  rewrite Forall_forall. intros x Hx. apply in_seq in Hx. lia.
Qed.

(** On at most 16 keys [np.argsort] returns the indices in ascending key
    order, equal keys in array order. *)
Lemma argsort_small_stable :
  length v <= 16 ->
  Permutation (np.argsort v) (seq 0 (length v)) /\
  StronglySorted (precedes v) (np.argsort v).
Proof.
  intro Hn. rewrite (argsort_small Hn). split.
  - rewrite <- Permutation_rev. now rewrite isort_rev_perm.
  - apply StronglySorted_rev. apply isort_rev_sorted.
    + constructor.
    + apply seq_StronglySorted.
    + constructor.
Qed.

End ArgsortFacts.

Section TakeFacts.

Lemma take_seq {A : Type} (d : A) (l : list A) :
  np.take d l (seq 0 (length l)) = l.
Proof.
  unfold np.take.
  enough (H : forall pre, map (fun i => nth i (pre ++ l) d)
                            (seq (length pre) (length l)) = l)
    by exact (H []).
  induction l as [|a l IH]; intro pre; [reflexivity|].
  cbn [length seq map]. rewrite nth_middle. f_equal.
  specialize (IH (pre ++ [a])).
  rewrite length_app, Nat.add_1_r, <- app_assoc in IH. exact IH.
Qed.

Lemma take_perm {A : Type} (d : A) (l : list A) (idx : list nat) :
  Permutation idx (seq 0 (length l)) -> Permutation (np.take d l idx) l.
Proof.
  intro H. rewrite <- (take_seq d l) at 2.
  unfold np.take. now apply Permutation_map.
Qed.

Lemma precedes_sorted_keys (v : list Q) (idx : list nat) :
  StronglySorted (precedes v) idx -> StronglySorted Qle (np.take 0 v idx).
Proof.
  induction idx as [|a idx IH]; intro Hs; [constructor|].
  apply StronglySorted_inv in Hs. destruct Hs as [Hs Ha].
  cbn [np.take map]. constructor; [now apply IH|].
  rewrite Forall_forall in Ha |- *. intros x Hx.
  apply in_map_iff in Hx. destruct Hx as (b & <- & Hb).
  destruct (Ha b Hb) as [Hlt | [Heq _]]; unfold keyv in *; lra.
Qed.

End TakeFacts.

(** ** numpy's argsort on arrays of any length *)

Section IndexArrays.

Local Open Scope nat_scope.

Lemma set_nth_length (a : list nat) (p x : nat) :
  length (np.set_nth a p x) = length a.
Proof.
  revert p. induction a as [|h a IH]; intro p; [reflexivity|].
  destruct p; cbn [np.set_nth length]; now rewrite ?IH.
Qed.

Lemma nth_set_nth_eq (a : list nat) (p x d : nat) :
  p < length a -> nth p (np.set_nth a p x) d = x.
Proof.
  revert p. induction a as [|h a IH]; intros p Hp; [cbn in Hp; lia|].
  destruct p; cbn [np.set_nth nth]; [reflexivity|].
  apply IH. cbn in Hp. lia.
Qed.

Lemma nth_set_nth_neq (a : list nat) (p q x d : nat) :
  p <> q -> nth q (np.set_nth a p x) d = nth q a d.
Proof.
  revert p q. induction a as [|h a IH]; intros p q Hpq; [reflexivity|].
  destruct p, q; cbn [np.set_nth nth]; try reflexivity; try lia.
  apply IH. lia.
Qed.

Lemma set_nth_perm (a : list nat) (p x d : nat) :
  p < length a -> Permutation (x :: a) (nth p a d :: np.set_nth a p x).
Proof.
  revert p. induction a as [|h a IH]; intros p Hp; [cbn in Hp; lia|].
  destruct p; cbn [np.set_nth nth].
  - apply perm_swap.
  - cbn in Hp. rewrite perm_swap. rewrite (IH p) by lia.
    apply perm_swap.
Qed.

Lemma swap_length (a : list nat) (p q : nat) :
  length (np.INTP_SWAP a p q) = length a.
Proof. unfold np.INTP_SWAP. now rewrite !set_nth_length. Qed.

Lemma nth_swap_l (a : list nat) (p q : nat) :
  p < length a -> q < length a ->
  nth p (np.INTP_SWAP a p q) 0 = nth q a 0.
Proof.
  intros Hp Hq. unfold np.INTP_SWAP.
  apply nth_set_nth_eq. now rewrite set_nth_length.
Qed.

Lemma nth_swap_r (a : list nat) (p q : nat) :
  p < length a -> q < length a ->
  nth q (np.INTP_SWAP a p q) 0 = nth p a 0.
Proof.
  intros Hp Hq. unfold np.INTP_SWAP.
  destruct (Nat.eq_dec p q) as [-> | Hne].
  - rewrite nth_set_nth_eq by (now rewrite set_nth_length). reflexivity.
  - rewrite nth_set_nth_neq by exact Hne. now apply nth_set_nth_eq.
Qed.

Lemma nth_swap_other (a : list nat) (p q r : nat) :
  r <> p -> r <> q -> nth r (np.INTP_SWAP a p q) 0 = nth r a 0.
Proof.
  intros Hp Hq. unfold np.INTP_SWAP.
  rewrite !nth_set_nth_neq by congruence. reflexivity.
Qed.

Lemma swap_perm (a : list nat) (p q : nat) :
  p < length a -> q < length a -> Permutation (np.INTP_SWAP a p q) a.
Proof.
  intros Hp Hq. unfold np.INTP_SWAP.
  set (b := np.set_nth a q (nth p a 0)).
  assert (H1 : Permutation (nth p a 0 :: a) (nth q a 0 :: b))
    by (apply set_nth_perm; exact Hq).
  assert (H2 : Permutation (nth q a 0 :: b) (nth p b 0 :: np.set_nth b p (nth q a 0))).
  { apply set_nth_perm. unfold b. now rewrite set_nth_length. }
  assert (Hpb : nth p b 0 = nth p a 0).
  { unfold b. destruct (Nat.eq_dec q p) as [-> | Hne].
    - now apply nth_set_nth_eq.
    - now apply nth_set_nth_neq. }
  rewrite Hpb in H2. symmetry.
  apply Permutation_cons_inv with (a := nth p a 0).
  now rewrite H1.
Qed.

Lemma permuted_within_refl (pl pr : nat) (a : list nat) :
  permuted_within pl pr a a.
Proof. split; [reflexivity|]. split; [reflexivity|]. reflexivity. Qed.

Lemma permuted_within_trans (pl pr : nat) (a b c : list nat) :
  permuted_within pl pr a b -> permuted_within pl pr b c ->
  permuted_within pl pr a c.
Proof.
  intros (L1 & O1 & P1) (L2 & O2 & P2). repeat split.
  - congruence.
  - intros i Hi. rewrite O2, O1 by exact Hi. reflexivity.
  - now rewrite P2.
Qed.

Lemma permuted_within_swap (pl pr : nat) (a : list nat) (p q : nat) :
  pr < length a -> pl <= p <= pr -> pl <= q <= pr ->
  permuted_within pl pr a (np.INTP_SWAP a p q).
Proof.
  intros Hpr Hp Hq. repeat split.
  - apply swap_length.
  - intros i Hi. apply nth_swap_other; lia.
  - apply swap_perm; lia.
Qed.

Lemma slices (a : list nat) (pl pr : nat) :
  pl <= pr -> pr < length a ->
  exists A M B,
    a = A ++ M ++ B /\ length A = pl /\ length M = pr - pl + 1.
Proof.
  intros Hle Hpr.
  exists (firstn pl a), (firstn (pr - pl + 1) (skipn pl a)),
         (skipn (pr - pl + 1) (skipn pl a)).
  split; [now rewrite !firstn_skipn|].
  split; [rewrite length_firstn; lia|].
  rewrite length_firstn, length_skipn. lia.
Qed.

(** The frame of an operation that rewrites one slice. *)
Lemma permuted_within_slices (A M M' B : list nat) :
  Permutation M' M ->
  permuted_within (length A) (length A + length M - 1)
                  (A ++ M ++ B) (A ++ M' ++ B).
Proof.
  intro HP. pose proof (Permutation_length HP) as HL. repeat split.
  - rewrite !length_app. lia.
  - intros i [Hi | Hi].
    + now rewrite !app_nth1 by exact Hi.
    + destruct M as [|m M].
      * apply Permutation_sym, Permutation_nil in HP. now subst M'.
      * cbn [length] in *.
        rewrite !(app_nth2 A) by lia. rewrite !app_nth2 by (cbn [length]; lia).
        rewrite HL. reflexivity.
  - apply Permutation_app_head. now apply Permutation_app_tail.
Qed.

(** Inside the slice every entry of [a'] is an entry of the slice of [a]. *)
Lemma permuted_within_source (pl pr : nat) (a a' : list nat) (i : nat) :
  permuted_within pl pr a a' -> pl <= i <= pr -> pr < length a ->
  exists i', pl <= i' <= pr /\ nth i a' 0 = nth i' a 0.
Proof.
  intros (HL & HO & HP) Hi Hpr.
  destruct (slices a pl pr) as (A & M & B & Ea & HA & HM); [lia | lia|].
  destruct (slices a' pl pr) as (A' & M' & B' & Ea' & HA' & HM'); [lia | lia|].
  assert (HLM : length M' = length M) by lia.
  assert (EA : A' = A).
  { apply nth_ext with (d := 0) (d' := 0); [lia|].
    intros k Hk. assert (Hk' : k < pl \/ pr < k) by lia.
    specialize (HO k Hk').
    rewrite Ea, Ea' in HO. now rewrite !app_nth1 in HO by lia. }
  assert (EB : B' = B).
  { assert (HLB : length B' = length B).
    { rewrite Ea, Ea', !length_app in HL. lia. }
    apply nth_ext with (d := 0) (d' := 0); [exact HLB|].
    intros k Hk. assert (Hk' : pr + 1 + k < pl \/ pr < pr + 1 + k) by lia.
    specialize (HO (pr + 1 + k) Hk').
    rewrite Ea, Ea' in HO.
    rewrite !(app_nth2 A), !(app_nth2 A') in HO by lia.
    rewrite !app_nth2 in HO by lia.
    replace (pr + 1 + k - length A' - length M') with k in HO by lia.
    replace (pr + 1 + k - length A - length M) with k in HO by lia.
    exact HO. }
  subst A' B'. rewrite Ea, Ea' in HP.
  apply Permutation_app_inv_l, Permutation_app_inv_r in HP.
  assert (Hin : In (nth i a' 0) M').
  { rewrite Ea'. rewrite app_nth2 by lia. rewrite app_nth1 by lia.
    apply nth_In. lia. }
  apply (Permutation_in _ HP) in Hin.
  apply (In_nth _ _ 0) in Hin. destruct Hin as (k & Hk & Ek).
  exists (pl + k). split; [lia|].
  rewrite Ea, app_nth2 by lia. rewrite app_nth1 by lia.
  replace (pl + k - length A) with k by lia. now symmetry.
Qed.

End IndexArrays.

Section RangeSorts.

Variable v : list Q.

Local Open Scope nat_scope.

Lemma insertion_shift_stop (tosort : list nat) (pl vi : nat) :
  np.insertion_shift v tosort pl vi pl = np.set_nth tosort pl vi.
Proof.
  destruct pl; [reflexivity|].
  cbn [np.insertion_shift]. now rewrite Nat.ltb_irrefl.
Qed.

Lemma insertion_shift_range (A l : list nat) :
  forall (x : nat) (rest : list nat) (vi : nat),
  np.insertion_shift v (A ++ l ++ x :: rest) (length A) vi (length A + length l) =
  A ++ rev (ins_rev v vi (rev l)) ++ rest.
Proof.
  induction l as [|e l IH] using rev_ind; intros x rest vi.
  - cbn [app length rev ins_rev]. rewrite Nat.add_0_r, insertion_shift_stop.
    apply set_nth_middle.
  - rewrite length_app, Nat.add_1_r, Nat.add_succ_r.
    cbn [np.insertion_shift].
    rewrite rev_unit. cbn [ins_rev]. unfold np.key, keyv.
    assert (E1 : A ++ (l ++ [e]) ++ x :: rest = (A ++ l) ++ e :: x :: rest)
      by (now rewrite <- !app_assoc).
    assert (E2 : A ++ (l ++ [e]) ++ x :: rest = (A ++ l ++ [e]) ++ x :: rest)
      by (now rewrite <- !app_assoc).
    replace (nth (length A + length l) (A ++ (l ++ [e]) ++ x :: rest) 0) with e
      by (rewrite E1, <- length_app; now rewrite nth_middle).
    replace (length A <? S (length A + length l)) with true
      by (symmetry; apply Nat.ltb_lt; lia).
    cbn [andb].
    replace (S (length A + length l)) with (length (A ++ l ++ [e]))
      by (rewrite !length_app; cbn [length]; lia).
    rewrite E2, !set_nth_middle.
    destruct (Qlt_bool (nth vi v 0%Q) (nth e v 0%Q)).
    + replace ((A ++ l ++ [e]) ++ e :: rest) with (A ++ l ++ e :: e :: rest)
        by (now rewrite <- !app_assoc).
      rewrite IH. cbn [rev]. now rewrite <- !app_assoc.
    + cbn [rev]. rewrite rev_involutive. now rewrite <- !app_assoc.
Qed.

Lemma insertion_loop_range (A B mid : list nat) :
  forall pre : list nat,
  np.insertion_loop v (length mid) (A ++ pre ++ mid ++ B) (length A)
                    (length A + length pre) =
  A ++ rev (isort_rev v (rev pre) mid) ++ B.
Proof.
  induction mid as [|x mid IH]; intro pre.
  - cbn. now rewrite rev_involutive.
  - cbn [length np.insertion_loop isort_rev app].
    replace (nth (length A + length pre) (A ++ pre ++ x :: mid ++ B) 0) with x
      by (rewrite app_assoc, <- length_app; now rewrite nth_middle).
    rewrite insertion_shift_range.
    replace (S (length A + length pre))
      with (length A + length (rev (ins_rev v x (rev pre))))
      by (rewrite length_rev, ins_rev_length, length_rev; lia).
    rewrite IH. now rewrite rev_involutive.
Qed.

Lemma ins_rev_descending (vi : nat) (rl : list nat) :
  StronglySorted (fun a b => keyv v b <= keyv v a)%Q rl ->
  StronglySorted (fun a b => keyv v b <= keyv v a)%Q (ins_rev v vi rl).
Proof.
  induction rl as [|e rl IH]; intro Hs.
  - repeat constructor.
  - apply StronglySorted_inv in Hs. destruct Hs as [Hs He].
    cbn [ins_rev]. destruct (Qlt_bool (keyv v vi) (keyv v e)) eqn:E.
    + apply Qlt_bool_iff in E. constructor; [now apply IH|].
      rewrite (ins_rev_perm v vi rl). constructor; [lra | exact He].
    + apply Qlt_bool_false_iff in E. constructor; [now constructor|].
      constructor; [exact E|].
      rewrite Forall_forall in He |- *. intros b Hb. specialize (He b Hb).
      cbn in He. lra.
Qed.

Lemma isort_rev_descending (rest : list nat) :
  forall rl,
  StronglySorted (fun a b => keyv v b <= keyv v a)%Q rl ->
  StronglySorted (fun a b => keyv v b <= keyv v a)%Q (isort_rev v rl rest).
Proof.
  induction rest as [|x rest IH]; intros rl Hs; [exact Hs|].
  cbn [isort_rev]. apply IH. now apply ins_rev_descending.
Qed.

Lemma StronglySorted_nth {A : Type} (R : A -> A -> Prop) (l : list A) (d : A) :
  StronglySorted R l ->
  forall i j, i < j -> j < length l -> R (nth i l d) (nth j l d).
Proof.
  induction 1 as [|a l Hs IH Ha]; intros i j Hij Hj; [cbn in Hj; lia|].
  destruct j as [|j]; [lia|]. cbn [length] in Hj.
  destruct i as [|i]; cbn [nth].
  - rewrite Forall_forall in Ha. apply Ha. apply nth_In. lia.
  - apply IH; lia.
Qed.

(** A slice that ascends makes [sorted_between] hold. *)
Lemma sorted_between_slices (A M B : list nat) :
  StronglySorted (fun a b => keyv v a <= keyv v b)%Q M ->
  sorted_between v (length A) (length A + length M - 1) (A ++ M ++ B).
Proof.
  intros Hs i j Hi Hij Hj.
  destruct (Nat.eq_dec i j) as [-> | Hne]; [apply Qle_refl|].
  unfold np.key.
  destruct M as [|m M]; [cbn [length] in Hj; lia|]. cbn [length] in Hj.
  rewrite !(app_nth2 A) by lia. rewrite !app_nth1 by (cbn [length]; lia).
  apply (StronglySorted_nth _ _ 0%nat Hs); cbn [length]; lia.
Qed.

(** The insertion sort of [aquicksort] sorts its range. *)
Lemma insertion_sort_spec (a : list nat) (pl pr : nat) :
  pl <= pr -> pr < length a ->
  permuted_within pl pr a (np.insertion_sort v a pl pr) /\
  sorted_between v pl pr (np.insertion_sort v a pl pr).
Proof.
  intros Hle Hpr.
  destruct (slices a pl pr Hle Hpr) as (A & M & B & Ea & HA & HM).
  destruct M as [|m mid]; [cbn [length] in HM; lia|]. cbn [length] in HM.
  assert (Epr : pr = length A + length mid) by lia.
  subst pr pl a. unfold np.insertion_sort.
  replace (length A + length mid - length A) with (length mid) by lia.
  replace (S (length A)) with (length A + length [m]) by (cbn [length]; lia).
  change (A ++ (m :: mid) ++ B) with (A ++ [m] ++ mid ++ B).
  rewrite insertion_loop_range.
  change (A ++ [m] ++ mid ++ B) with (A ++ (m :: mid) ++ B).
  assert (HP : Permutation (rev (isort_rev v (rev [m]) mid)) (m :: mid)).
  { rewrite <- Permutation_rev. now rewrite isort_rev_perm. }
  replace (length A + length mid)
    with (length A + length (m :: mid) - 1) by (cbn [length]; lia).
  split.
  - now apply permuted_within_slices.
  - rewrite <- (Permutation_length HP).
    apply sorted_between_slices. apply StronglySorted_rev.
    apply isort_rev_descending. repeat constructor.
Qed.

End RangeSorts.

Section Partition.

Variable v : list Q.

Local Open Scope nat_scope.

Lemma key_swap_l (a : list nat) (p q : nat) :
  p < length a -> q < length a ->
  np.key v (np.INTP_SWAP a p q) p = np.key v a q.
Proof. intros. unfold np.key. now rewrite nth_swap_l. Qed.

Lemma key_swap_r (a : list nat) (p q : nat) :
  p < length a -> q < length a ->
  np.key v (np.INTP_SWAP a p q) q = np.key v a p.
Proof. intros. unfold np.key. now rewrite nth_swap_r. Qed.

Lemma key_swap_other (a : list nat) (p q r : nat) :
  r <> p -> r <> q -> np.key v (np.INTP_SWAP a p q) r = np.key v a r.
Proof. intros. unfold np.key. now rewrite nth_swap_other. Qed.

(** [do ++pi; while (LT(v[*pi], vp));] stops at the first entry from
    [pi + 1] on that is not below the pivot, given that there is one. *)
Lemma scan_up_spec (a : list nat) (vp : Q) (s : nat) :
  Qlt_bool (np.key v a s) vp = false ->
  forall fuel pi,
  pi < s -> s - pi <= fuel ->
  let r := np.scan_up v fuel a vp pi in
  pi < r <= s /\
  Qlt_bool (np.key v a r) vp = false /\
  forall i, pi < i < r -> Qlt_bool (np.key v a i) vp = true.
Proof.
  intro Hs. induction fuel as [|fuel IH]; intros pi Hpi Hfuel; [lia|].
  cbn [np.scan_up]. destruct (Qlt_bool (np.key v a (S pi)) vp) eqn:E.
  - assert (Hne : S pi <> s) by (intros <-; congruence).
    destruct (IH (S pi)) as (H1 & H2 & H3); [lia | lia|].
    cbv zeta. split; [lia|]. split; [exact H2|].
    intros i Hi. destruct (Nat.eq_dec i (S pi)) as [-> | Hi']; [exact E|].
    apply H3. lia.
  - cbv zeta. split; [lia|]. split; [exact E|]. intros i Hi. lia.
Qed.

(** [do --pj; while (LT(vp, v[*pj]));] stops at the first entry from
    [pj - 1] down that is not above the pivot, given that there is one. *)
Lemma scan_down_spec (a : list nat) (vp : Q) (s : nat) :
  Qlt_bool vp (np.key v a s) = false ->
  forall fuel pj,
  s < pj -> pj - s <= fuel ->
  let r := np.scan_down v fuel a vp pj in
  s <= r < pj /\
  Qlt_bool vp (np.key v a r) = false /\
  forall j, r < j < pj -> Qlt_bool vp (np.key v a j) = true.
Proof.
  intro Hs. induction fuel as [|fuel IH]; intros pj Hpj Hfuel; [lia|].
  cbn [np.scan_down]. destruct (Qlt_bool vp (np.key v a (pj - 1))) eqn:E.
  - assert (Hne : pj - 1 <> s) by (intros <-; congruence).
    destruct (IH (pj - 1)) as (H1 & H2 & H3); [lia | lia|].
    cbv zeta. split; [lia|]. split; [exact H2|].
    intros j Hj. destruct (Nat.eq_dec j (pj - 1)) as [-> | Hj']; [exact E|].
    apply H3. lia.
  - cbv zeta. split; [lia|]. split; [exact E|]. intros j Hj. lia.
Qed.

(** The [for (;;)] loop of the partition, between [pl] and [pr] with the
    pivot parked at [pr - 1]. *)
Lemma partition_loop_spec (pl pr : nat) (vp : Q) :
  forall fuel a pi pj,
  pl <= pi -> pi < pj -> pj <= pr - 1 -> pr < length a ->
  pj - pi <= fuel ->
  (forall i, pl <= i <= pi -> (np.key v a i <= vp)%Q) ->
  (forall j, pj <= j <= pr -> (vp <= np.key v a j)%Q) ->
  np.key v a (pr - 1) = vp ->
  let a' := fst (np.partition_loop v fuel a vp pi pj) in
  let r := snd (np.partition_loop v fuel a vp pi pj) in
  permuted_within pl pr a a' /\
  pl < r <= pr - 1 /\
  (forall i, pl <= i < r -> (np.key v a' i <= vp)%Q) /\
  (forall j, r <= j <= pr -> (vp <= np.key v a' j)%Q) /\
  np.key v a' (pr - 1) = vp.
Proof.
  induction fuel as [|fuel IH];
    intros a pi pj Hpl Hij Hpj Hpr Hfuel Hlow Hhigh Hpivot; [lia|].
  cbn [np.partition_loop].
  destruct (scan_up_spec a vp pj) with (fuel := length a) (pi := pi)
    as (U1 & U2 & U3); [|lia|lia|].
  { apply Qlt_bool_false_iff. apply Hhigh. lia. }
  destruct (scan_down_spec a vp pi) with (fuel := length a) (pj := pj)
    as (D1 & D2 & D3); [|lia|lia|].
  { apply Qlt_bool_false_iff. apply Hlow. lia. }
  cbv zeta in U1, U2, U3, D1, D2, D3.
  set (pi' := np.scan_up v (length a) a vp pi) in *.
  set (pj' := np.scan_down v (length a) a vp pj) in *.
  apply Qlt_bool_false_iff in U2, D2.
  assert (Hlow' : forall i, pl <= i < pi' -> (np.key v a i <= vp)%Q).
  { intros i Hi. destruct (Nat.le_gt_cases i pi); [apply Hlow; lia|].
    apply Qlt_le_weak, Qlt_bool_iff, U3. lia. }
  assert (Hhigh' : forall j, pj' < j <= pr -> (vp <= np.key v a j)%Q).
  { intros j Hj. destruct (Nat.le_gt_cases pj j); [apply Hhigh; lia|].
    apply Qlt_le_weak, Qlt_bool_iff, D3. lia. }
  destruct (pj' <=? pi') eqn:E.
  - apply Nat.leb_le in E. cbn [fst snd].
    split; [apply permuted_within_refl|]. split; [lia|].
    split; [exact Hlow'|]. split; [|exact Hpivot].
    intros j Hj. destruct (Nat.eq_dec j pi') as [-> | Hne]; [exact U2|].
    apply Hhigh'. lia.
  - apply Nat.leb_gt in E.
    specialize (IH (np.INTP_SWAP a pi' pj') pi' pj').
    destruct IH as (I1 & I2 & I3 & I4 & I5); try lia.
    + rewrite swap_length. lia.
    + intros i Hi. destruct (Nat.eq_dec i pi') as [-> | Hne].
      * rewrite key_swap_l by lia. exact D2.
      * rewrite key_swap_other by lia. apply Hlow'. lia.
    + intros j Hj. destruct (Nat.eq_dec j pj') as [-> | Hne].
      * rewrite key_swap_r by lia. exact U2.
      * rewrite key_swap_other by lia. apply Hhigh'. lia.
    + rewrite key_swap_other by lia. exact Hpivot.
    + cbv zeta in I1, I2, I3, I4, I5. split; [|now repeat split].
      eapply permuted_within_trans; [|exact I1].
      apply permuted_within_swap; lia.
Qed.

(** A swap under a comparison puts the smaller key at [q]. *)
Lemma compare_swap_spec (pl pr : nat) (a : list nat) (p q : nat) :
  pr < length a -> pl <= p <= pr -> pl <= q <= pr -> p <> q ->
  let a' := if Qlt_bool (np.key v a p) (np.key v a q)
            then np.INTP_SWAP a p q else a in
  permuted_within pl pr a a' /\
  (np.key v a' q <= np.key v a' p)%Q /\
  ((np.key v a' p = np.key v a p /\ np.key v a' q = np.key v a q) \/
   (np.key v a' p = np.key v a q /\ np.key v a' q = np.key v a p)) /\
  (forall r, r <> p -> r <> q -> np.key v a' r = np.key v a r).
Proof.
  intros Hpr Hp Hq Hne. cbv zeta.
  destruct (Qlt_bool (np.key v a p) (np.key v a q)) eqn:E.
  - apply Qlt_bool_iff in E.
    split; [apply permuted_within_swap; lia|].
    rewrite key_swap_l, key_swap_r by lia.
    split; [lra|]. split; [now right|].
    intros r Hrp Hrq. now apply key_swap_other.
  - apply Qlt_bool_false_iff in E.
    split; [apply permuted_within_refl|]. split; [exact E|].
    split; [now left|]. reflexivity.
Qed.

(** One partition step: the pivot ends at [pi], strictly inside the range,
    with nothing larger before it and nothing smaller behind it. *)
Lemma partition_spec (a : list nat) (pl pr : nat) :
  pl + 2 <= pr -> pr < length a ->
  let a' := fst (np.partition v a pl pr) in
  let pi := snd (np.partition v a pl pr) in
  permuted_within pl pr a a' /\
  pl < pi < pr /\
  (forall i, pl <= i <= pi -> (np.key v a' i <= np.key v a' pi)%Q) /\
  (forall j, pi <= j <= pr -> (np.key v a' pi <= np.key v a' j)%Q).
Proof.
  intros Hsize Hpr. unfold np.partition.
  set (pm := pl + Nat.div2 (pr - pl)).
  assert (Hpm : pl < pm < pr).
  { unfold pm. rewrite Nat.div2_div.
    pose proof (Nat.div_mod_eq (pr - pl) 2) as Hdm.
    pose proof (Nat.mod_upper_bound (pr - pl) 2) as Hmod. lia. }
  destruct (compare_swap_spec pl pr a pm pl) as (P1 & O1 & C1 & F1); try lia.
  set (a1 := if Qlt_bool (np.key v a pm) (np.key v a pl)
             then np.INTP_SWAP a pm pl else a) in *.
  assert (L1 : length a1 = length a) by apply P1.
  destruct (compare_swap_spec pl pr a1 pr pm) as (P2 & O2 & C2 & F2); try lia.
  set (a2 := if Qlt_bool (np.key v a1 pr) (np.key v a1 pm)
             then np.INTP_SWAP a1 pr pm else a1) in *.
  assert (L2 : length a2 = length a) by (destruct P2; lia).
  destruct (compare_swap_spec pl pr a2 pm pl) as (P3 & O3 & C3 & F3); try lia.
  set (a3 := if Qlt_bool (np.key v a2 pm) (np.key v a2 pl)
             then np.INTP_SWAP a2 pm pl else a2) in *.
  assert (L3 : length a3 = length a) by (destruct P3; lia).
  assert (Hlo3 : (np.key v a3 pl <= np.key v a3 pm)%Q) by exact O3.
  assert (Hhi3 : (np.key v a3 pm <= np.key v a3 pr)%Q).
  { assert (E2 : np.key v a2 pl = np.key v a1 pl) by (apply F2; lia).
    assert (E3 : np.key v a3 pr = np.key v a2 pr) by (apply F3; lia).
    rewrite E3. destruct C3 as [[C3a _] | [C3a _]]; rewrite C3a.
    - exact O2.
    - rewrite E2. destruct C2 as [[C2a C2b] | [C2a C2b]].
      + rewrite C2a. rewrite C2a, C2b in O2. lra.
      + rewrite C2a. exact O1. }
  set (vp := np.key v a3 pm) in *.
  set (a4 := np.INTP_SWAP a3 pm (pr - 1)).
  assert (L4 : length a4 = length a) by (unfold a4; rewrite swap_length; lia).
  assert (P4 : permuted_within pl pr a3 a4)
    by (apply permuted_within_swap; lia).
  assert (Hpivot : np.key v a4 (pr - 1) = vp)
    by (unfold a4; rewrite key_swap_r by lia; reflexivity).
  assert (Hlo4 : (np.key v a4 pl <= vp)%Q)
    by (unfold a4; rewrite key_swap_other by lia; exact Hlo3).
  assert (Hhi4 : (vp <= np.key v a4 pr)%Q)
    by (unfold a4; rewrite key_swap_other by lia; exact Hhi3).
  destruct (partition_loop_spec pl pr vp (length a4) a4 pl (pr - 1))
    as (I1 & I2 & I3 & I4 & I5); try lia.
  { intros i Hi. replace i with pl by lia. exact Hlo4. }
  { intros j Hj. destruct (Nat.eq_dec j pr) as [-> | Hne]; [exact Hhi4|].
    replace j with (pr - 1) by lia. rewrite Hpivot. apply Qle_refl. }
  { exact Hpivot. }
  cbv zeta in I1, I2, I3, I4, I5.
  destruct (np.partition_loop v (length a4) a4 vp pl (pr - 1)) as [a5 pi] eqn:E5.
  cbn [fst snd] in *.
  assert (L5 : length a5 = length a) by (destruct I1; lia).
  split.
  { eapply permuted_within_trans; [|apply permuted_within_swap; lia].
    eapply permuted_within_trans; [|exact I1].
    eapply permuted_within_trans; [|exact P4].
    eapply permuted_within_trans; [|exact P3].
    eapply permuted_within_trans; [exact P1 | exact P2]. }
  split; [lia|].
  rewrite key_swap_l by lia. rewrite I5. split.
  - intros i Hi. destruct (Nat.eq_dec i pi) as [-> | Hne].
    + rewrite key_swap_l by lia. rewrite I5. apply Qle_refl.
    + rewrite key_swap_other by lia. apply I3. lia.
  - intros j Hj. destruct (Nat.eq_dec j pi) as [-> | Hne].
    + rewrite key_swap_l by lia. rewrite I5. apply Qle_refl.
    + destruct (Nat.eq_dec j (pr - 1)) as [-> | Hne'].
      * rewrite key_swap_r by lia. apply I4. lia.
      * rewrite key_swap_other by lia. apply I4. lia.
Qed.

End Partition.

Section Heapsort.

Variable v : list Q.
Variable pl : nat.

Local Open Scope nat_scope.

Lemma half_bounds (c : nat) : 2 * (c / 2) <= c /\ c < 2 * (c / 2) + 2.
Proof.
  pose proof (Nat.div_mod_eq c 2). pose proof (Nat.mod_upper_bound c 2). lia.
Qed.

Local Ltac halves :=
  repeat match goal with
         | |- context [?c / 2] =>
             let h := fresh "h" in
             pose proof (half_bounds c); set (h := c / 2) in *; clearbody h
         | _ : context [?c / 2] |- _ =>
             let h := fresh "h" in
             pose proof (half_bounds c); set (h := c / 2) in *; clearbody h
         end;
  lia.

Lemma heap_key_set_eq (a : list nat) (k x : nat) :
  1 <= k -> pl + k <= length a -> heap_key v pl (np.heap_set a pl k x) k = keyv v x.
Proof.
  intros Hk Hlen. unfold heap_key, np.heap_get, np.heap_set.
  rewrite nth_set_nth_eq by halves. reflexivity.
Qed.

Lemma heap_key_set_neq (a : list nat) (k k' x : nat) :
  1 <= k -> 1 <= k' -> k <> k' ->
  heap_key v pl (np.heap_set a pl k x) k' = heap_key v pl a k'.
Proof.
  intros Hk Hk' Hne. unfold heap_key, np.heap_get, np.heap_set.
  rewrite nth_set_nth_neq by halves. reflexivity.
Qed.

Lemma heap_set_same (a : list nat) (k : nat) :
  np.heap_set a pl k (np.heap_get a pl k) = a.
Proof.
  unfold np.heap_set, np.heap_get. generalize (pl + k - 1) as p.
  induction a as [|h a IH]; intro p; [reflexivity|].
  destruct p; cbn [np.set_nth nth]; [reflexivity|]. now rewrite IH.
Qed.

(** Moving the entry at [j] into the hole at [i] and filling [j] instead
    leaves the same entries. *)
Lemma hole_moves (a : list nat) (n i j tmp : nat) :
  1 <= i <= n -> 1 <= j <= n -> i <> j -> pl + n <= length a ->
  permuted_within pl (pl + n - 1)
    (np.heap_set a pl i tmp)
    (np.heap_set (np.heap_set a pl i (np.heap_get a pl j)) pl j tmp).
Proof.
  intros Hi Hj Hne Hlen. unfold np.heap_set, np.heap_get.
  set (I := pl + i - 1). set (J := pl + j - 1).
  assert (HI : I < length a) by (unfold I; lia).
  assert (HJ : J < length a) by (unfold J; lia).
  assert (HIJ : I <> J) by (unfold I, J; lia).
  split; [now rewrite !set_nth_length|]. split.
  - intros k Hk. rewrite !nth_set_nth_neq by (unfold I, J; lia). reflexivity.
  - set (x := nth J a 0). set (b := np.set_nth a I x).
    assert (H1 : Permutation (tmp :: b) (x :: np.set_nth b J tmp)).
    { replace x with (nth J b 0)
        by (unfold b; now rewrite nth_set_nth_neq by exact HIJ).
      apply set_nth_perm. unfold b. now rewrite set_nth_length. }
    assert (H2 : Permutation (tmp :: a) (nth I a 0 :: np.set_nth a I tmp))
      by (now apply set_nth_perm).
    assert (H3 : Permutation (x :: a) (nth I a 0 :: b))
      by (now apply set_nth_perm).
    apply Permutation_cons_inv with (a := x).
    apply Permutation_cons_inv with (a := nth I a 0).
    apply Permutation_sym.
    eapply perm_trans; [apply perm_swap|].
    eapply perm_trans; [apply perm_skip, Permutation_sym, H2|].
    eapply perm_trans; [apply perm_swap|].
    eapply perm_trans; [apply perm_skip, H3|].
    eapply perm_trans; [apply perm_swap|].
    apply perm_skip, H1.
Qed.

(** The sift loop with the hole at [i]: once [tmp] is put where the loop
    ends, the heap order holds from [lo] on. *)
Lemma heap_sift_spec (n lo tmp : nat) :
  forall fuel a i j,
  1 <= lo -> lo <= i -> i <= n -> j = i + i -> n < j + fuel ->
  pl + n <= length a ->
  (forall c, 2 <= c <= n -> lo <= c / 2 -> c <> i -> c / 2 <> i ->
             (heap_key v pl a c <= heap_key v pl a (c / 2))%Q) ->
  (2 <= i -> lo <= i / 2 ->
   (keyv v tmp <= heap_key v pl a (i / 2))%Q /\
   forall c, 2 <= c <= n -> c / 2 = i -> (heap_key v pl a c <= heap_key v pl a (i / 2))%Q) ->
  let a' := fst (np.heap_sift v fuel a pl n tmp i j) in
  let i' := snd (np.heap_sift v fuel a pl n tmp i j) in
  heap_from v pl (np.heap_set a' pl i' tmp) n lo /\
  permuted_within pl (pl + n - 1) (np.heap_set a pl i tmp)
                  (np.heap_set a' pl i' tmp).
Proof.
  assert (Hstop : forall a i,
             1 <= lo -> lo <= i -> i <= n -> pl + n <= length a ->
             (forall c, 2 <= c <= n -> lo <= c / 2 -> c <> i -> c / 2 <> i ->
                        (heap_key v pl a c <= heap_key v pl a (c / 2))%Q) ->
             (2 <= i -> lo <= i / 2 -> (keyv v tmp <= heap_key v pl a (i / 2))%Q) ->
             (forall c, 2 <= c <= n -> c / 2 = i -> (heap_key v pl a c <= keyv v tmp)%Q) ->
             heap_from v pl (np.heap_set a pl i tmp) n lo).
  { intros a i Hlo Hi Hn Hlen HR HU HC c Hc Hpar.
    destruct (Nat.eq_dec c i) as [-> | Hci].
    - rewrite heap_key_set_eq by halves.
      rewrite heap_key_set_neq by halves. now apply HU.
    - destruct (Nat.eq_dec (c / 2) i) as [Hpi | Hpi].
      + rewrite Hpi. rewrite heap_key_set_eq by halves.
        rewrite heap_key_set_neq by halves. now apply HC.
      + rewrite !heap_key_set_neq by halves. now apply HR. }
  induction fuel as [|fuel IH];
    intros a i j Hlo Hi Hn Hj Hfuel Hlen HR HU.
  - cbn [np.heap_sift fst snd]. split; [|apply permuted_within_refl].
    apply Hstop; try assumption.
    + intros H2 Hp. now apply HU.
    + intros c Hc Hpar. halves.
  - cbn [np.heap_sift].
    destruct (j <=? n) eqn:Ejn.
    2:{ apply Nat.leb_gt in Ejn. cbn [fst snd].
        split; [|apply permuted_within_refl].
        apply Hstop; try assumption.
        - intros H2 Hp. now apply HU.
        - intros c Hc Hpar. halves. }
    apply Nat.leb_le in Ejn.
    set (jm := if (j <? n)
                  && Qlt_bool (nth (np.heap_get a pl j) v 0%Q)
                              (nth (np.heap_get a pl (j + 1)) v 0%Q)
               then j + 1 else j).
    assert (Hjm : (jm = j \/ (jm = j + 1 /\ j < n)) /\
                  forall c, 2 <= c <= n -> c / 2 = i ->
                            (heap_key v pl a c <= heap_key v pl a jm)%Q).
    { unfold jm. destruct (j <? n) eqn:Ejn'.
      - apply Nat.ltb_lt in Ejn'. cbn [andb].
        destruct (Qlt_bool _ _) eqn:E.
        + apply Qlt_bool_iff in E. split; [right; lia|].
          intros c Hc Hpar. assert (c = j \/ c = j + 1) as [-> | ->] by halves.
          * apply Qlt_le_weak. exact E.
          * apply Qle_refl.
        + apply Qlt_bool_false_iff in E. split; [now left|].
          intros c Hc Hpar. assert (c = j \/ c = j + 1) as [-> | ->] by halves.
          * apply Qle_refl.
          * exact E.
      - apply Nat.ltb_ge in Ejn'. cbn [andb]. split; [now left|].
        intros c Hc Hpar. assert (c = j) as -> by halves. apply Qle_refl. }
    destruct Hjm as [Hjm Hmax].
    assert (Hjmpar : jm / 2 = i) by halves.
    assert (Hjmn : 2 <= jm <= n) by halves.
    fold (keyv v tmp). fold (keyv v (np.heap_get a pl jm)).
    fold (heap_key v pl a jm).
    destruct (Qlt_bool (keyv v tmp) (heap_key v pl a jm)) eqn:E.
    + apply Qlt_bool_iff in E.
      set (a1 := np.heap_set a pl i (np.heap_get a pl jm)).
      assert (Ha1i : heap_key v pl a1 i = heap_key v pl a jm)
        by (unfold a1; now rewrite heap_key_set_eq by halves).
      assert (Ha1 : forall k, 1 <= k -> k <> i -> heap_key v pl a1 k = heap_key v pl a k)
        by (intros k Hk Hki; unfold a1; now rewrite heap_key_set_neq by halves).
      specialize (IH a1 jm (jm + jm)).
      destruct IH as [IH1 IH2]; try halves.
      * unfold a1, np.heap_set. rewrite set_nth_length. halves.
      * intros c Hc Hpar Hcj Hpj.
        destruct (Nat.eq_dec c i) as [-> | Hci].
        -- rewrite Ha1i, Ha1 by halves. apply HU; halves.
        -- destruct (Nat.eq_dec (c / 2) i) as [Hpi | Hpi].
           ++ rewrite Hpi, Ha1i, Ha1 by halves. now apply Hmax.
           ++ rewrite !Ha1 by halves. now apply HR.
      * intros _ _. rewrite Hjmpar, Ha1i. split; [now apply Qlt_le_weak|].
        intros c Hc Hpar. rewrite Ha1 by halves. rewrite <- Hpar.
        apply HR; halves.
      * cbv zeta in IH1, IH2. split; [exact IH1|].
        eapply permuted_within_trans; [|exact IH2].
        apply hole_moves; halves.
    + apply Qlt_bool_false_iff in E. cbn [fst snd].
      split; [|apply permuted_within_refl].
      apply Hstop; try assumption.
      * intros H2 Hp. now apply HU.
      * intros c Hc Hpar. pose proof (Hmax c Hc Hpar). lra.
Qed.

Lemma heap_build_spec (n : nat) :
  forall l a,
  l <= n / 2 -> pl + n <= length a -> heap_from v pl a n (l + 1) ->
  heap_from v pl (np.heap_build v l a pl n) n 1 /\
  permuted_within pl (pl + n - 1) a (np.heap_build v l a pl n).
Proof.
  induction l as [|l IH]; intros a Hl Hlen Hheap.
  - cbn [np.heap_build]. split; [exact Hheap | apply permuted_within_refl].
  - cbn [np.heap_build].
    destruct (heap_sift_spec n (S l) (np.heap_get a pl (S l)) n a (S l) (S l + S l))
      as [S1 S2]; try halves.
    + intros c Hc Hpar Hci Hpi. apply Hheap; halves.
    + cbv zeta in S1, S2.
      destruct (np.heap_sift v n a pl n (np.heap_get a pl (S l)) (S l) (S l + S l))
        as [a' i'] eqn:E.
      cbn [fst snd] in S1, S2. rewrite heap_set_same in S2.
      destruct (IH (np.heap_set a' pl i' (np.heap_get a pl (S l)))) as [B1 B2].
      * halves.
      * destruct S2 as [L _]. halves.
      * replace (l + 1) with (S l) by halves. exact S1.
      * split; [exact B1|]. eapply permuted_within_trans; eassumption.
Qed.

Lemma heap_root_max (a : list nat) (n : nat) :
  heap_from v pl a n 1 ->
  forall k, 1 <= k <= n -> (heap_key v pl a k <= heap_key v pl a 1)%Q.
Proof.
  intros Hheap k. induction k as [k IH] using lt_wf_ind. intro Hk.
  destruct (Nat.eq_dec k 1) as [-> | Hne]; [apply Qle_refl|].
  assert (Hpar : 1 <= k / 2 < k) by halves.
  eapply Qle_trans; [apply Hheap; lia|]. apply IH; halves.
Qed.

(** The extraction loop on a heap of [m] entries followed by a sorted tail
    up to [n] that nothing of the heap exceeds. *)
Lemma heap_extract_spec (n : nat) :
  forall m a,
  m <= n -> pl + n <= length a ->
  heap_from v pl a m 1 ->
  (forall k k', 1 <= k -> k <= k' -> m < k' -> k' <= n ->
                (heap_key v pl a k <= heap_key v pl a k')%Q) ->
  (forall k k', 1 <= k -> k <= k' -> k' <= n ->
                (heap_key v pl (np.heap_extract v m a pl) k
                 <= heap_key v pl (np.heap_extract v m a pl) k')%Q) /\
  permuted_within pl (pl + n - 1) a (np.heap_extract v m a pl).
Proof.
  induction m as [|m IH]; intros a Hm Hlen Hheap Htail.
  - cbn [np.heap_extract]. split; [|apply permuted_within_refl].
    intros k k' Hk Hkk Hk'.
    destruct (Nat.eq_dec k k') as [-> | Hne]; [apply Qle_refl|].
    apply Htail; halves.
  - cbn [np.heap_extract]. destruct (1 <? S m) eqn:E1.
    2:{ apply Nat.ltb_ge in E1. split; [|apply permuted_within_refl].
        intros k k' Hk Hkk Hk'.
        destruct (Nat.eq_dec k k') as [-> | Hne]; [apply Qle_refl|].
        apply Htail; halves. }
    apply Nat.ltb_lt in E1.
    set (tmp := np.heap_get a pl (S m)).
    set (a1 := np.heap_set a pl (S m) (np.heap_get a pl 1)).
    assert (La1 : length a1 = length a)
      by (unfold a1, np.heap_set; now rewrite set_nth_length).
    assert (Ha1 : forall k, 1 <= k -> k <> S m -> heap_key v pl a1 k = heap_key v pl a k)
      by (intros k Hk Hne; unfold a1; now rewrite heap_key_set_neq by halves).
    assert (Ha1m : heap_key v pl a1 (S m) = heap_key v pl a 1)
      by (unfold a1; now rewrite heap_key_set_eq by halves).
    destruct (heap_sift_spec m 1 tmp (S m) a1 1 2) as [S1 S2]; try halves.
    + intros c Hc Hpar Hci Hpi. rewrite !Ha1 by halves. apply Hheap; halves.
    + cbv zeta in S1, S2.
      destruct (np.heap_sift v (S m) a1 pl m tmp 1 2) as [a' i'] eqn:E.
      cbn [fst snd] in S1, S2.
      set (f := np.heap_set a' pl i' tmp) in *.
      assert (Hswap : permuted_within pl (pl + n - 1) a (np.heap_set a1 pl 1 tmp)).
      { pose proof (hole_moves a n (S m) 1 tmp) as H.
        unfold a1, tmp. rewrite heap_set_same in H.
        destruct H as (H1 & H2 & H3); try halves.
        split; [exact H1|]. split; [|exact H3].
        intros k Hk. apply H2. halves. }
      assert (Lf : length f = length a).
      { destruct S2 as [L _]. destruct Hswap as [L' _]. halves. }
      assert (Hwide : permuted_within pl (pl + n - 1) (np.heap_set a1 pl 1 tmp) f).
      { destruct S2 as (L & O & P). split; [exact L|]. split; [|exact P].
        intros k Hk. apply O. halves. }
      assert (Hout : forall k, m < k -> k <= n ->
                heap_key v pl f k = heap_key v pl a1 k).
      { intros k Hk Hkn. unfold heap_key, np.heap_get.
        destruct S2 as (_ & O & _). rewrite O by halves.
        unfold np.heap_set. rewrite nth_set_nth_neq by halves. reflexivity. }
      assert (Hin : forall k, 1 <= k <= m ->
                exists k0, 1 <= k0 <= S m /\ heap_key v pl f k = heap_key v pl a k0).
      { intros k Hk.
        destruct (permuted_within_source pl (pl + m - 1)
                    (np.heap_set a1 pl 1 tmp) f (pl + k - 1) S2)
          as (p & Hp & Ep); [lia| |].
        { unfold np.heap_set. rewrite set_nth_length. halves. }
        unfold heap_key, np.heap_get. rewrite Ep.
        destruct (Nat.eq_dec p pl) as [-> | Hne].
        - exists (S m). split; [lia|].
          unfold np.heap_set. replace (pl + 1 - 1) with pl by halves.
          rewrite nth_set_nth_eq by halves. reflexivity.
        - exists (p - pl + 1). split; [lia|].
          unfold np.heap_set. rewrite nth_set_nth_neq by halves.
          unfold a1, np.heap_set. rewrite nth_set_nth_neq by halves.
          f_equal. f_equal. halves. }
      destruct (IH f) as [E1' E2']; try halves.
      * exact S1.
      * intros k k' Hk Hkk Hmk Hk'.
        destruct (Nat.eq_dec k k') as [-> | Hne]; [apply Qle_refl|].
        assert (Hk'val : heap_key v pl f k' = heap_key v pl a1 k') by (apply Hout; lia).
        destruct (Nat.le_gt_cases k m) as [Hkm | Hkm].
        -- destruct (Hin k) as (k0 & Hk0 & ->); [lia|].
           rewrite Hk'val.
           destruct (Nat.eq_dec k' (S m)) as [-> | Hne'].
           ++ rewrite Ha1m. apply (heap_root_max a (S m) Hheap). halves.
           ++ rewrite Ha1 by halves.
              destruct (Nat.eq_dec k0 k') as [-> | Hne0]; [apply Qle_refl|].
              apply Htail; halves.
        -- rewrite Hk'val, (Hout k) by halves.
           destruct (Nat.eq_dec k (S m)) as [-> | Hne'].
           ++ rewrite Ha1m, Ha1 by halves. apply Htail; halves.
           ++ rewrite !Ha1 by halves. apply Htail; halves.
      * split; [exact E1'|].
        eapply permuted_within_trans; [|exact E2'].
        eapply permuted_within_trans; eassumption.
Qed.

Lemma aheapsort_spec (a : list nat) (n : nat) :
  1 <= n -> pl + n <= length a ->
  permuted_within pl (pl + n - 1) a (np.aheapsort v a pl n) /\
  sorted_between v pl (pl + n - 1) (np.aheapsort v a pl n).
Proof.
  intros Hn Hlen. unfold np.aheapsort. rewrite Nat.div2_div.
  destruct (heap_build_spec n (n / 2) a) as [B1 B2]; [lia | exact Hlen | |].
  { intros c Hc Hpar. halves. }
  destruct (heap_extract_spec n n (np.heap_build v (n / 2) a pl n))
    as [E1 E2]; [lia | | exact B1 | |].
  { destruct B2 as [L _]. lia. }
  { intros k k' _ _ Hk Hk'. lia. }
  split; [eapply permuted_within_trans; eassumption|].
  intros i j Hi Hij Hj.
  specialize (E1 (i - pl + 1) (j - pl + 1)).
  unfold heap_key, np.heap_get, keyv in E1.
  replace (pl + (i - pl + 1) - 1) with i in E1 by lia.
  replace (pl + (j - pl + 1) - 1) with j in E1 by lia.
  apply E1; lia.
Qed.

End Heapsort.

Section Introsort.

Variable v : list Q.
Variable n : nat.

Local Open Scope nat_scope.

Lemma weight_cons (pl pr : nat) (R : list (nat * nat)) :
  weight ((pl, pr) :: R) = pr - pl + 1 + weight R.
Proof. reflexivity. Qed.

Lemma ranges_of_cons (pl pr : nat) (cdepth : Z) (stack : list (nat * nat * Z)) :
  ranges_of ((pl, pr, cdepth) :: stack) = (pl, pr) :: ranges_of stack.
Proof. reflexivity. Qed.

Lemma weight_app (R S : list (nat * nat)) :
  weight (R ++ S) = weight R + weight S.
Proof. unfold weight. now rewrite map_app, list_sum_app. Qed.

Lemma disjoint_ranges_app (R S : list (nat * nat)) :
  disjoint_ranges R -> disjoint_ranges S ->
  Forall (fun Y => Forall (apart Y) S) R ->
  disjoint_ranges (R ++ S).
Proof.
  induction R as [|Y R IH]; intros HR HS HRS; [exact HS|].
  cbn [app disjoint_ranges] in *. destruct HR as [HY HR].
  inversion HRS as [|? ? HYS HRS']; subst. split.
  - apply Forall_app. now split.
  - now apply IH.
Qed.

(** Replacing the range [X] by ranges inside it, after permuting the
    entries of [X] so that everything across the new ranges is in order. *)
Lemma refine_range (a a' : list nat) (X : nat * nat)
  (News rest : list (nat * nat)) :
  pending_ok v n a (X :: rest) ->
  permuted_within (fst X) (snd X) a a' ->
  Forall (fun Y => fst X <= fst Y /\ fst Y <= snd Y /\ snd Y <= snd X) News ->
  disjoint_ranges News ->
  (forall i j, fst X <= i -> i < j -> j <= snd X ->
     (np.key v a' i <= np.key v a' j)%Q \/
     Exists (fun Y => inside Y i /\ inside Y j) News) ->
  pending_ok v n a' (News ++ rest).
Proof.
  intros (HL & HP & HR & HD & HO) Hperm HN HND Hcross.
  pose proof (Forall_inv HR) as [HX1 HX2].
  pose proof (Forall_inv_tail HR) as HR'.
  cbn [disjoint_ranges] in HD. destruct HD as [HXrest HD].
  pose proof Hperm as (HL' & HOut & HP').
  assert (Hkey : forall k, k < fst X \/ snd X < k ->
                           np.key v a' k = np.key v a k).
  { intros k Hk. unfold np.key. now rewrite HOut. }
  assert (Hsrc : forall k, inside X k ->
                 exists k', inside X k' /\ np.key v a' k = np.key v a k').
  { intros k Hk.
    destruct (permuted_within_source _ _ a a' k Hperm Hk) as (k' & Hk' & E);
      [lia|].
    exists k'. split; [exact Hk'|]. unfold np.key. now rewrite E. }
  assert (Hfar : forall k m, inside X k -> ~ inside X m -> m < n ->
                 Exists (fun Y => inside Y k /\ inside Y m) (X :: rest) ->
                 False).
  { intros k m Hk Hm Hmn HE. apply Exists_cons in HE. destruct HE as [[_ H] | HE'].
    - now apply Hm.
    - rewrite Forall_forall in HXrest. rewrite Exists_exists in HE'.
      destruct HE' as (Y & HY & Hk' & Hm').
      specialize (HXrest Y HY). unfold apart, inside in *. lia. }
  split; [lia|]. split; [now rewrite HP'|]. split; [|split].
  - apply Forall_app. split; [|exact HR'].
    rewrite Forall_forall in HN |- *. intros Y HY.
    specialize (HN Y HY). lia.
  - apply disjoint_ranges_app; [exact HND | exact HD|].
    rewrite Forall_forall in HN, HXrest |- *. intros Y HY.
    rewrite Forall_forall. intros Z HZ.
    specialize (HN Y HY). specialize (HXrest Z HZ).
    unfold apart in *. lia.
  - intros i j Hij Hj.
    destruct (le_lt_dec (fst X) i) as [Hi1 | Hi1];
      [destruct (le_lt_dec i (snd X)) as [Hi2 | Hi2]|].
    + (* i inside X *)
      destruct (le_lt_dec j (snd X)) as [Hj2 | Hj2].
      * destruct (Hcross i j Hi1 Hij Hj2) as [H | H]; [now left|].
        right. apply Exists_app. now left.
      * left. destruct (Hsrc i) as (i' & Hi' & ->); [unfold inside; lia|].
        rewrite (Hkey j) by lia.
        destruct (HO i' j) as [H | H]; [unfold inside in Hi'; lia | lia | exact H|].
        exfalso. apply (Hfar i' j Hi'); [unfold inside; lia | lia | exact H].
    + (* i right of X *)
      rewrite (Hkey i), (Hkey j) by lia.
      destruct (HO i j Hij Hj) as [H | H]; [now left|].
      right. apply Exists_app. right.
      apply Exists_cons in H. destruct H as [[Hi' _] | H']; [|exact H'].
      unfold inside in Hi'. lia.
    + (* i left of X *)
      rewrite (Hkey i) by lia.
      destruct (le_lt_dec (fst X) j) as [Hj1 | Hj1];
        [destruct (le_lt_dec j (snd X)) as [Hj2 | Hj2]|].
      * left. destruct (Hsrc j) as (j' & Hj' & ->); [unfold inside; lia|].
        destruct (HO i j') as [H | H];
          [unfold inside in Hj'; lia | unfold inside in Hj'; lia | exact H|].
        exfalso. apply (Hfar j' i Hj'); [unfold inside; lia | lia|].
        rewrite Exists_exists in H |- *.
        destruct H as (Y & HY & H1 & H2). exists Y. tauto.
      * rewrite (Hkey j) by lia.
        destruct (HO i j Hij Hj) as [H | H]; [now left|].
        right. apply Exists_app. right.
        apply Exists_cons in H. destruct H as [[Hi' _] | H']; [|exact H'].
        unfold inside in Hi'. lia.
      * rewrite (Hkey j) by lia.
        destruct (HO i j Hij Hj) as [H | H]; [now left|].
        right. apply Exists_app. right.
        apply Exists_cons in H. destruct H as [[Hi' _] | H']; [|exact H'].
        unfold inside in Hi'. lia.
Qed.

(** A range that has been sorted is no longer pending. *)
Lemma sorted_range_done (a a' : list nat) (pl pr : nat)
  (rest : list (nat * nat)) :
  pending_ok v n a ((pl, pr) :: rest) ->
  permuted_within pl pr a a' -> sorted_between v pl pr a' ->
  pending_ok v n a' rest.
Proof.
  intros Hok Hperm Hsorted.
  apply (refine_range a a' (pl, pr) [] rest Hok Hperm).
  - constructor.
  - exact I.
  - intros i j Hi Hij Hj. left. apply Hsorted; cbn [fst snd] in *; lia.
Qed.

Lemma partition_while_spec :
  forall fuel a pl pr cdepth stack,
  pending_ok v n a ((pl, pr) :: ranges_of stack) ->
  exists a' pl' pr' stack',
    np.partition_while v fuel a pl pr cdepth stack = (a', pl', pr', stack') /\
    pending_ok v n a' ((pl', pr') :: ranges_of stack') /\
    weight ((pl', pr') :: ranges_of stack')
    <= weight ((pl, pr) :: ranges_of stack).
Proof.
  induction fuel as [|fuel IH]; intros a pl pr cdepth stack Hok.
  - exists a, pl, pr, stack. cbn [np.partition_while]. auto.
  - cbn [np.partition_while].
    destruct (np.SMALL_QUICKSORT <? pr - pl) eqn:Ebig.
    2:{ exists a, pl, pr, stack. auto. }
    apply Nat.ltb_lt in Ebig. unfold np.SMALL_QUICKSORT in Ebig.
    pose proof Hok as (HL & _ & HR & _).
    pose proof (Forall_inv HR) as [_ Hpr]. cbn [fst snd] in Hpr.
    pose proof (partition_spec v a pl pr) as Hpart.
    destruct (np.partition v a pl pr) as [a1 pi] eqn:Epart.
    cbn [fst snd] in Hpart.
    destruct Hpart as (Hperm & Hpi & Hleft & Hright); [lia | lia|].
    assert (Hcross : forall i j, pl <= i -> i < j -> j <= pr ->
              (np.key v a1 i <= np.key v a1 j)%Q \/
              (i <= pi - 1 /\ j <= pi - 1) \/ (S pi <= i /\ S pi <= j)).
    { intros i j Hi Hij Hj.
      destruct (le_lt_dec j (pi - 1)); [right; left; lia|].
      destruct (le_lt_dec (S pi) i); [right; right; lia|].
      left. eapply Qle_trans; [apply Hleft | apply Hright]; lia. }
    destruct (pi - pl <? pr - pi).
    + destruct (IH a1 pl (pi - 1) (cdepth - 1)%Z
                   ((S pi, pr, (cdepth - 1)%Z) :: stack))
        as (a' & pl' & pr' & stack' & E & Hok' & Hw).
      * apply (refine_range a a1 (pl, pr) [(pl, pi - 1); (S pi, pr)]
                 (ranges_of stack) Hok Hperm).
        -- repeat constructor; cbn [fst snd]; lia.
        -- cbn [disjoint_ranges]. repeat split; auto.
           constructor; [|constructor]. unfold apart. cbn [fst snd]. lia.
        -- intros i j Hi Hij Hj. cbn [fst snd] in Hi, Hj.
           destruct (Hcross i j Hi Hij Hj) as [H | [H | H]]; [now left| |];
             right.
           ++ apply Exists_cons_hd. unfold inside. cbn [fst snd]. lia.
           ++ apply Exists_cons_tl, Exists_cons_hd.
              unfold inside. cbn [fst snd]. lia.
      * exists a', pl', pr', stack'. split; [exact E|]. split; [exact Hok'|].
        eapply Nat.le_trans; [exact Hw|].
        rewrite ?ranges_of_cons, ?weight_cons. lia.
    + destruct (IH a1 (S pi) pr (cdepth - 1)%Z
                   ((pl, pi - 1, (cdepth - 1)%Z) :: stack))
        as (a' & pl' & pr' & stack' & E & Hok' & Hw).
      * apply (refine_range a a1 (pl, pr) [(S pi, pr); (pl, pi - 1)]
                 (ranges_of stack) Hok Hperm).
        -- repeat constructor; cbn [fst snd]; lia.
        -- cbn [disjoint_ranges]. repeat split; auto.
           constructor; [|constructor]. unfold apart. cbn [fst snd]. lia.
        -- intros i j Hi Hij Hj. cbn [fst snd] in Hi, Hj.
           destruct (Hcross i j Hi Hij Hj) as [H | [H | H]]; [now left| |];
             right.
           ++ apply Exists_cons_tl, Exists_cons_hd.
              unfold inside. cbn [fst snd]. lia.
           ++ apply Exists_cons_hd. unfold inside. cbn [fst snd]. lia.
      * exists a', pl', pr', stack'. split; [exact E|]. split; [exact Hok'|].
        eapply Nat.le_trans; [exact Hw|].
        rewrite ?ranges_of_cons, ?weight_cons. lia.
Qed.

(** With fuel for every pending entry the loop ends with nothing pending. *)
Lemma aquicksort_loop_spec :
  forall fuel a pl pr cdepth stack,
  pending_ok v n a ((pl, pr) :: ranges_of stack) ->
  weight ((pl, pr) :: ranges_of stack) <= fuel ->
  pending_ok v n (np.aquicksort_loop v fuel a pl pr cdepth stack) [].
Proof.
  induction fuel as [|fuel IH]; intros a pl pr cdepth stack Hok Hfuel.
  - rewrite weight_cons in Hfuel. lia.
  - cbn [np.aquicksort_loop].
    assert (Hstep : exists a2 stack2,
              (if (cdepth <? 0)%Z
               then (np.aheapsort v a pl (pr - pl + 1), stack)
               else
                 let '(tosort, pl0, pr0, stack0) :=
                   np.partition_while v (pr - pl) a pl pr cdepth stack in
                 (np.insertion_sort v tosort pl0 pr0, stack0))
              = (a2, stack2) /\
              pending_ok v n a2 (ranges_of stack2) /\
              weight (ranges_of stack2) < weight ((pl, pr) :: ranges_of stack)).
    { pose proof Hok as (HL & _ & HR & _).
      pose proof (Forall_inv HR) as [Hle Hpr]. cbn [fst snd] in Hle, Hpr.
      destruct (cdepth <? 0)%Z.
      - exists (np.aheapsort v a pl (pr - pl + 1)), stack.
        split; [reflexivity|].
        destruct (aheapsort_spec v pl a (pr - pl + 1)) as [H1 H2]; [lia | lia|].
        replace (pl + (pr - pl + 1) - 1) with pr in H1, H2 by lia.
        split; [eapply sorted_range_done; eassumption|].
        rewrite ?ranges_of_cons, ?weight_cons. lia.
      - destruct (partition_while_spec (pr - pl) a pl pr cdepth stack Hok)
          as (a' & pl' & pr' & stack' & E & Hok' & Hw).
        rewrite E. exists (np.insertion_sort v a' pl' pr'), stack'.
        split; [reflexivity|].
        pose proof Hok' as (HL' & _ & HR' & _).
        pose proof (Forall_inv HR') as [Hle' Hpr'].
        cbn [fst snd] in Hle', Hpr'.
        destruct (insertion_sort_spec v a' pl' pr') as [H1 H2]; [lia | lia|].
        split; [eapply sorted_range_done; eassumption|].
        rewrite ?ranges_of_cons, ?weight_cons in *. lia. }
    destruct Hstep as (a2 & stack2 & -> & Hok2 & Hw2).
    destruct stack2 as [|[[pl' pr'] cdepth'] stack2]; [exact Hok2|].
    apply IH; [exact Hok2|].
    rewrite ranges_of_cons in Hw2. lia.
Qed.

End Introsort.

Section ArgsortSorted.

Variable v : list Q.

Local Open Scope nat_scope.

Lemma StronglySorted_of_nth {A : Type} (R : A -> A -> Prop) (d : A) :
  forall l : list A,
  (forall i j, i < j -> j < length l -> R (nth i l d) (nth j l d)) ->
  StronglySorted R l.
Proof.
  induction l as [|a l IH]; intro H; [constructor|]. constructor.
  - apply IH. intros i j Hij Hj. apply (H (S i) (S j)); cbn [length]; lia.
  - rewrite Forall_forall. intros x Hx.
    destruct (In_nth l x d Hx) as (k & Hk & <-).
    apply (H 0 (S k)); cbn [length]; lia.
Qed.

Lemma take_sorted (idx : list nat) :
  StronglySorted (fun x y => (keyv v x <= keyv v y)%Q) idx ->
  StronglySorted Qle (np.take 0%Q v idx).
Proof.
  induction idx as [|a idx IH]; intro Hs; [constructor|].
  apply StronglySorted_inv in Hs. destruct Hs as [Hs Ha].
  cbn [np.take map]. constructor; [now apply IH|].
  rewrite Forall_forall in Ha |- *. intros x Hx.
  apply in_map_iff in Hx. destruct Hx as (b & <- & Hb).
  exact (Ha b Hb).
Qed.

(** [np.argsort] on keys of any number: a permutation of the indices that
    puts the keys in ascending order. *)
Lemma argsort_sorted :
  Permutation (np.argsort v) (seq 0 (length v)) /\
  StronglySorted Qle (np.take 0%Q v (np.argsort v)).
Proof.
  destruct (Nat.eq_dec (length v) 0) as [E0 | Hpos].
  { destruct v; [|discriminate E0]. cbn. split; constructor. }
  assert (Hfinal : pending_ok v (length v) (np.argsort v) []).
  { unfold np.argsort, np.aquicksort. apply aquicksort_loop_spec.
    - split; [apply length_seq|]. split; [reflexivity|].
      split; [repeat constructor; cbn [fst snd]; lia|].
      split; [cbn; auto|].
      intros i j Hij Hj. right. apply Exists_cons_hd.
      unfold inside. cbn [fst snd]. lia.
    - rewrite weight_cons. change (weight (ranges_of [])) with 0. lia. }
  destruct Hfinal as (HL & HP & _ & _ & HO). split; [exact HP|].
  apply take_sorted. apply StronglySorted_of_nth with (d := 0).
  intros i j Hij Hj. rewrite HL in Hj.
  destruct (HO i j Hij Hj) as [H | H]; [exact H | inversion H].
Qed.

End ArgsortSorted.

(** [np.sort]: the same entries in ascending order. *)
Lemma sort_sorted (a : list Q) :
  Permutation (np.sort a) a /\ StronglySorted Qle (np.sort a).
Proof.
  destruct (argsort_sorted a) as [Hperm Hsorted]. split; [|exact Hsorted].
  unfold np.sort. now apply take_perm.
Qed.

(** ** BasisMixerMidiThread: the order of the notes of one position *)

Section NoteOrder.

Import mido BasisMixerMidiThread.

Lemma broadcast2_same_length {A B C : Type} (f : A -> B -> C) (a : list A) :
  forall b : list B,
  length a = length b -> np.broadcast2 f a b = Some (zip_with f a b).
Proof.
  intros b Hl. unfold np.broadcast2. rewrite Hl, Nat.eqb_refl. f_equal.
  revert b Hl. induction a as [|x a IH]; intros [|y b] Hl; try discriminate;
    [reflexivity|].
  cbn [combine map zip_with fst snd]. f_equal. apply IH. now injection Hl.
Qed.

Lemma same_shape_lengths (p : position) :
  same_shape p = true ->
  length (dur p) = length (pitch p) /\ length (vd p) = length (pitch p) /\
  length (tim p) = length (pitch p) /\ length (lart p) = length (pitch p).
Proof.
  unfold same_shape. intro H.
  apply andb_prop in H. destruct H as [H H4].
  apply andb_prop in H. destruct H as [H H3].
  apply andb_prop in H. destruct H as [H1 H2].
  apply Nat.eqb_eq in H1, H2, H3, H4. now repeat split.
Qed.

Lemma durations_same_shape (pow2_frac : Q -> Q) (bpr_a : Q) (p : position) :
  same_shape p = true ->
  duration_product pow2_frac bpr_a p =
    Some (zip_with (fun l d => exp2 pow2_frac l * bpr_a * d) (lart p) (dur p)) /\
  durations pow2_frac bpr_a p =
    zip_with (fun l d => exp2 pow2_frac l * bpr_a * d) (lart p) (dur p).
Proof.
  intro Hshape. destruct (same_shape_lengths p Hshape) as (H1 & _ & _ & H4).
  unfold durations, duration_product.
  rewrite broadcast2_same_length by congruence. now split.
Qed.

(** C5 (amended): for every score position the notes are reordered by
    ascending [perf_onset], and the onset, pitch, duration and velocity
    arrays are all indexed by that one order, each a permutation of the
    array it comes from; at a position with at most 16 notes, notes of equal
    [perf_onset] keep their array order.  (From 17 notes on [np.argsort]
    partitions the array and notes of equal onset can change places.) *)
Theorem project_orders_notes (pow2_frac : Q -> Q) (self : t) (prev : Q)
  (p : position) :
  same_shape p = true ->
  let pr := project pow2_frac self prev p in
  let onsets := map (fun x => eq_onset pr - x) (tim p) in
  let idx := perf_onset_idx pr in
  Permutation idx (seq 0 (length (pitch p))) /\
  StronglySorted Qle (perf_onset pr) /\
  ((length (pitch p) <= 16)%nat -> StronglySorted (precedes onsets) idx) /\
  perf_onset pr = np.take 0 onsets idx /\
  perf_pitch pr = np.take 0%Z (pitch p) idx /\
  perf_duration pr =
    np.take 0 (zip_with (fun l d => exp2 pow2_frac l * tempo self * d)
                        (lart p) (dur p)) idx /\
  perf_vel pr =
    np.take 0%Z (map (perf_vel_of self (vt p) (vel self)) (vd p)) idx /\
  Permutation (perf_onset pr) onsets /\
  Permutation (perf_pitch pr) (pitch p).
Proof.
  intros Hshape pr onsets idx. pose proof Hshape as Hshape0.
  unfold same_shape in Hshape.
  apply andb_prop in Hshape. destruct Hshape as [Hshape Hlart].
  apply andb_prop in Hshape. destruct Hshape as [Hshape Htim].
  apply Nat.eqb_eq in Htim.
  assert (Hlen : length onsets = length (pitch p)).
  { unfold onsets. now rewrite length_map. }
  assert (Hidx : idx = np.argsort onsets) by reflexivity.
  destruct (argsort_sorted onsets) as [Hperm Hsorted].
  rewrite <- Hidx, Hlen in Hperm. rewrite <- Hidx in Hsorted.
  split; [exact Hperm|]. split; [exact Hsorted|].
  split.
  { intro Hn. rewrite Hidx. apply argsort_small_stable. lia. }
  split; [reflexivity|]. split; [reflexivity|].
  split.
  { unfold pr, project. cbn [perf_duration].
    now rewrite (proj2 (durations_same_shape pow2_frac (tempo self) p Hshape0)). }
  split; [reflexivity|].
  split; apply take_perm; rewrite ?Hlen; exact Hperm.
Qed.

Lemma project_orders_notes_witness :
  let pr := project pow2_frac_unused default_thread 0.5 scenario_d in
  Forall2 Qeq (map (fun x => eq_onset pr - x) (tim scenario_d))
          [2.0; 1.5] /\
  perf_onset_idx pr = [1%nat; 0%nat] /\
  perf_pitch pr = [64%Z; 60%Z] /\
  StronglySorted Qle (perf_onset pr) /\
  Permutation (perf_pitch pr) [60%Z; 64%Z].
Proof.
  cbv zeta.
  destruct (project_orders_notes pow2_frac_unused default_thread 0.5
              scenario_d) as (_ & Hs & _ & _ & _ & _ & _ & _ & Hp).
  - reflexivity.
  - split; [repeat constructor; reflexivity|].
    split; [reflexivity|]. split; [reflexivity|].
    split; [exact Hs | exact Hp].
Defined.

(** C5, as stated, fails: the 17 notes of [chord17] have one and the same
    [perf_onset], so a stable sort would leave them in array order, yet the
    order [np.argsort] returns moves fourteen of them, and the pitches are
    emitted in that order. *)
Lemma project_reorders_equal_onsets :
  let pr := project pow2_frac_unused default_thread 0.5 chord17 in
  let onsets := map (fun x => eq_onset pr - x) (tim chord17) in
  same_shape chord17 = true /\
  onsets = repeat (0.5 + 1 * 1 * 0 - 0) 17 /\
  perf_onset_idx pr =
    [0; 14; 13; 12; 11; 10; 9; 15; 8; 6; 5; 4; 3; 2; 1; 7; 16]%nat /\
  perf_pitch pr =
    [60; 74; 73; 72; 71; 70; 69; 75; 68; 66; 65; 64; 63; 62; 61; 67; 76]%Z /\
  ~ StronglySorted (precedes onsets) (perf_onset_idx pr).
Proof.
  cbv zeta. split; [reflexivity|]. split; [reflexivity|].
  split; [vm_compute; reflexivity|]. split; [vm_compute; reflexivity|].
  intro H.
  replace (perf_onset_idx
             (project pow2_frac_unused default_thread 0.5 chord17))
    with [0; 14; 13; 12; 11; 10; 9; 15; 8; 6; 5; 4; 3; 2; 1; 7; 16]%nat
    in H by (vm_compute; reflexivity).
  apply StronglySorted_inv in H. destruct H as [H _].
  apply StronglySorted_inv in H. destruct H as [_ H].
  inversion H as [|? ? H1413 _]; subst.
  destruct H1413 as [Hlt | [_ Hlt]].
  - vm_compute in Hlt. discriminate Hlt.
  - lia.
Qed.

End NoteOrder.

(** ** The dispatch loops *)

Section InterleaveFacts.

Context {A : Type}.

Lemma Interleave_left_only (l : list A) : Interleave l [] l.
Proof. induction l; constructor; assumption. Qed.

Lemma Interleave_right_only (l : list A) : Interleave [] l l.
Proof. induction l; constructor; assumption. Qed.

Lemma Interleave_app_right (pre l1 l2 l : list A) :
  Interleave l1 l2 l -> Interleave l1 (pre ++ l2) (pre ++ l).
Proof. intro H. induction pre; cbn [app]; [exact H | now constructor]. Qed.

Lemma Interleave_app_left (pre l1 l2 l : list A) :
  Interleave l1 l2 l -> Interleave (pre ++ l1) l2 (pre ++ l).
Proof. intro H. induction pre; cbn [app]; [exact H | now constructor]. Qed.

Lemma Interleave_In (l1 l2 l : list A) (x : A) :
  Interleave l1 l2 l -> (In x l <-> In x l1 \/ In x l2).
Proof.
  induction 1 as [|a l1 l2 l _ IH|a l1 l2 l _ IH]; cbn [In]; tauto.
Qed.

Lemma Interleave_length (l1 l2 l : list A) :
  Interleave l1 l2 l -> length l = (length l1 + length l2)%nat.
Proof. induction 1; cbn [length]; lia. Qed.

End InterleaveFacts.

Section Dispatch.

Import mido BasisMixerMidiThread.

Lemma due_split (current_time : Q) (m : Message) (rest : list Message) :
  let due := Qle_bool (time m) current_time in
  exists pre,
    m :: rest = pre ++ (if due then rest else m :: rest) /\
    map snd (if due then [(current_time, m)] else []) = pre /\
    on_time (if due then [(current_time, m)] else []).
Proof.
  cbv zeta. destruct (Qle_bool (time m) current_time) eqn:E.
  - exists [m]. repeat split. constructor; [|constructor].
    now apply Qle_bool_iff.
  - exists []. repeat split. constructor.
Qed.

(** What Streaming does to the two queues: it sends a front part of each,
    merged, keeps the rest of the note-off queue, and has sent every
    note-on unless a stop request ended it. *)
Lemma stream_loop_spec (n : nat) :
  forall (init_time : Q) (clock : list Q) (stop_after : option nat)
         (ons offs : list Message) out offs' clock' stop_after' stopped,
  (length clock <= n)%nat ->
  BMThread.stream_loop init_time clock stop_after ons offs
    = Done (out, offs', clock', stop_after', stopped) ->
  exists ons_sent ons_left offs_sent,
    ons = ons_sent ++ ons_left /\
    offs = offs_sent ++ offs' /\
    Interleave ons_sent offs_sent (map snd out) /\
    on_time out /\
    (stopped = false -> ons_left = []) /\
    (stop_after = None -> stopped = false).
Proof.
  induction n as [|n IH];
    intros init_time clock stop_after ons offs out offs' clock' sa' stopped Hlen H.
  - destruct clock; [|cbn in Hlen; lia].
    destruct ons as [|on_msg on_rest].
    + cbn in H. injection H as <- <- <- <- <-.
      exists [], [], []. repeat split; constructor.
    + cbn in H. destruct stop_after as [[|k]|]; try discriminate.
      injection H as <- <- <- <- <-.
      exists [], (on_msg :: on_rest), []. repeat split; try constructor;
        discriminate.
  - destruct ons as [|on_msg on_rest].
    { destruct clock; cbn in H; injection H as <- <- <- <- <-;
        exists [], [], []; repeat split; constructor. }
    assert (Hstop : stop_after = Some O \/ stop_after <> Some O).
    { destruct stop_after as [[|k]|]; [now left | right | right]; discriminate. }
    destruct Hstop as [-> | Hgo].
    { destruct clock; cbn in H; injection H as <- <- <- <- <-;
        exists [], (on_msg :: on_rest), []; repeat split; try constructor;
        discriminate. }
    assert (H' :
      match clock with
      | [] => ClockEnd
      | t1 :: clock1 =>
          let current_time := t1 - init_time in
          let due := Qle_bool (time on_msg) current_time in
          let out1 := if due then [(current_time, on_msg)] else [] in
          let on_messages := if due then on_rest else on_msg :: on_rest in
          match offs with
          | [] =>
              bind (BMThread.stream_loop init_time clock1
                      (option_map Nat.pred stop_after) on_messages [])
                   (fun '(out, offs, clock', stop_after', stopped) =>
                      Done (out1 ++ out, offs, clock', stop_after', stopped))
          | off_msg :: off_rest =>
              match clock1 with
              | [] => ClockEnd
              | t2 :: clock2 =>
                  let current_time := t2 - init_time in
                  let due := Qle_bool (time off_msg) current_time in
                  let out2 := if due then [(current_time, off_msg)] else [] in
                  let off_messages := if due then off_rest else off_msg :: off_rest in
                  bind (BMThread.stream_loop init_time clock2
                          (option_map Nat.pred stop_after) on_messages off_messages)
                       (fun '(out, offs, clock', stop_after', stopped) =>
                          Done (out1 ++ out2 ++ out, offs, clock',
                                stop_after', stopped))
              end
          end
      end = Done (out, offs', clock', sa', stopped)).
    { rewrite <- H.
      destruct stop_after as [[|k]|]; [congruence | |];
        destruct clock as [|? [|? ?]]; destruct offs; reflexivity. }
    clear H. destruct clock as [|t1 clock1]; [discriminate|].
    cbv zeta in H'. cbn [length] in Hlen.
    destruct (due_split (t1 - init_time) on_msg on_rest)
      as (pre1 & Hons & Hout1 & Htime1).
    cbv zeta in Hons, Hout1, Htime1.
    assert (Hnone : stop_after = None -> option_map Nat.pred stop_after = None)
      by (intros ->; reflexivity).
    destruct offs as [|off_msg off_rest].
    + destruct (BMThread.stream_loop init_time clock1 _ _ [])
        as [[[[[o f] c] s] b]| |] eqn:E; try discriminate.
      cbn [bind] in H'. injection H' as <- <- <- <- <-.
      apply IH in E; [|lia].
      destruct E as (s1 & l1 & os & E1 & E2 & E3 & E4 & E5 & E6).
      exists (pre1 ++ s1), l1, os. rewrite Hons, E1, app_assoc.
      repeat split; try assumption.
      * rewrite map_app, Hout1. now apply Interleave_app_left.
      * apply Forall_app. now split.
      * intro Hn. apply E6. now apply Hnone.
    + destruct clock1 as [|t2 clock2]; [discriminate|].
      cbn [length] in Hlen.
      destruct (due_split (t2 - init_time) off_msg off_rest)
        as (pre2 & Hoffs & Hout2 & Htime2).
      cbv zeta in Hoffs, Hout2, Htime2.
      destruct (BMThread.stream_loop init_time clock2 _ _ _)
        as [[[[[o f] c] s] b]| |] eqn:E; try discriminate.
      cbn [bind] in H'. injection H' as <- <- <- <- <-.
      apply IH in E; [|lia].
      destruct E as (s1 & l1 & os & E1 & E2 & E3 & E4 & E5 & E6).
      exists (pre1 ++ s1), l1, (pre2 ++ os).
      rewrite Hons, E1, app_assoc, Hoffs, E2, app_assoc.
      repeat split; try assumption.
      * rewrite !map_app, Hout1, Hout2.
        apply Interleave_app_left. now apply Interleave_app_right.
      * apply Forall_app. split; [assumption|].
        apply Forall_app. now split.
      * intro Hn. apply E6. now apply Hnone.
Qed.

(** Without a stop request Streaming is the loop of the source. *)
Lemma stream_loop_no_stop (init_time : Q) (clock : list Q) :
  forall ons offs,
  BMThread.stream_loop init_time clock None ons offs =
  bind (send_loop init_time clock ons offs)
       (fun '(out, offs', clock') => Done (out, offs', clock', None, false)).
Proof.
  enough (H : forall n clock, (length clock <= n)%nat -> forall ons offs,
             BMThread.stream_loop init_time clock None ons offs =
             bind (send_loop init_time clock ons offs)
                  (fun '(out, offs', clock') =>
                     Done (out, offs', clock', None, false)))
    by (intros; now apply (H (length clock))).
  clear clock. induction n as [|n IH]; intros clock Hlen ons offs.
  - destruct clock; [|cbn in Hlen; lia]. destruct ons; reflexivity.
  - destruct clock as [|t1 clock1]; [destruct ons; reflexivity|].
    cbn [length] in Hlen.
    destruct ons as [|on_msg on_rest]; [reflexivity|].
    cbn [BMThread.stream_loop send_loop option_map].
    destruct offs as [|off_msg off_rest].
    + rewrite IH by lia.
      destruct (send_loop init_time clock1 _ []) as [[[o f] c]| |]; reflexivity.
    + destruct clock1 as [|t2 clock2]; [reflexivity|]. cbn [length] in Hlen.
      rewrite IH by lia.
      destruct (send_loop init_time clock2 _ _) as [[[o f] c]| |]; reflexivity.
Qed.

(** Draining sends the whole queue, in queue order, and leaves it empty. *)
Lemma drain_loop_spec (init_time : Q) (clock : list Q) :
  forall offs out offs' clock',
  drain_loop init_time clock offs = Done (out, offs', clock') ->
  map snd out = offs /\ offs' = [] /\ on_time out.
Proof.
  induction clock as [|t1 clock1 IH]; intros offs out offs' clock' H.
  - destruct offs; [|discriminate]. cbn in H. injection H as <- <- <-.
    repeat split. constructor.
  - destruct offs as [|off_msg off_rest].
    + cbn in H. injection H as <- <- <-. repeat split. constructor.
    + cbn [drain_loop] in H.
      destruct (Qle_bool (time off_msg) (t1 - init_time)) eqn:E.
      * destruct (drain_loop init_time clock1 off_rest) as [[[o f] c]| |] eqn:E1;
          try discriminate.
        cbn [bind] in H. injection H as <- <- <-.
        apply IH in E1. destruct E1 as (E1 & E2 & E3).
        cbn [map snd]. rewrite E1. repeat split; [exact E2|].
        constructor; [now apply Qle_bool_iff | exact E3].
      * now apply IH in H.
Qed.

(** Draining ends once the clock has shown, once per queued note-off, a time
    at or after the latest of them. *)
Lemma drain_loop_completes (init_time deadline : Q) (clock : list Q) :
  forall offs,
  Forall (fun m => time m <= deadline) offs ->
  (length offs <= readings_from init_time deadline clock)%nat ->
  exists out clock', drain_loop init_time clock offs = Done (out, [], clock').
Proof.
  unfold readings_from.
  induction clock as [|t1 clock1 IH]; intros offs Hdue Hlate.
  - destruct offs; [|cbn in Hlate; lia]. now exists [], [].
  - destruct offs as [|m offs]; [now exists [], (t1 :: clock1)|].
    inversion Hdue as [|? ? Hm Hrest]; subst.
    cbn [drain_loop filter] in *.
    destruct (Qle_bool (time m) (t1 - init_time)) eqn:E.
    + destruct (IH offs Hrest) as (out & clock' & Hout).
      { destruct (Qle_bool deadline (t1 - init_time)); cbn [length] in Hlate; lia. }
      rewrite Hout. cbn [bind]. eauto.
    + apply IH; [exact Hdue|].
      destruct (Qle_bool deadline (t1 - init_time)) eqn:E'; [|exact Hlate].
      apply Qle_bool_iff in E'. apply Qle_bool_false_iff in E. lra.
Qed.

Lemma send_loop_spec (init_time : Q) (clock : list Q) (ons offs : list Message)
  out offs' clock' :
  send_loop init_time clock ons offs = Done (out, offs', clock') ->
  exists offs_sent,
    offs = offs_sent ++ offs' /\
    Interleave ons offs_sent (map snd out) /\
    on_time out.
Proof.
  intro H.
  pose proof (stream_loop_no_stop init_time clock ons offs) as Hs.
  rewrite H in Hs. cbn [bind] in Hs.
  apply (stream_loop_spec (length clock)) in Hs; [|lia].
  destruct Hs as (s1 & l1 & os & E1 & E2 & E3 & E4 & E5 & _).
  rewrite (E5 eq_refl), app_nil_r in E1. subst s1.
  exists os. now repeat split.
Qed.

(** *** The queues across score positions *)

Lemma make_messages_spec (ps : list Z) :
  forall (os ds : list Q) (vs : list Z) ons offs,
  make_messages ps os ds vs = Some (ons, offs) ->
  Forall (fun m => type m = note_on) ons /\
  Forall (fun m => type m = note_off) offs /\
  (forall on, In on ons -> answered_in on offs) /\
  Forall2 (fun on off => exists d, In d ds /\ time off = time on + d) ons offs.
Proof.
  induction ps as [|p ps IH]; intros os ds vs ons offs H.
  - cbn in H. injection H as <- <-. repeat split; try constructor.
    intros on [].
  - destruct os as [|o os], ds as [|d ds], vs as [|v vs];
      try (cbn in H; injection H as <- <-; repeat split; try constructor;
           intros on []).
    cbn [make_messages] in H. unfold new in H.
    destruct (check_data_byte v && check_data_byte p); [|discriminate].
    destruct (make_messages ps os ds vs) as [[ons' offs']|] eqn:E;
      [|discriminate].
    injection H as <- <-.
    destruct (IH _ _ _ _ _ E) as (H1 & H2 & H3 & H4).
    repeat split.
    + constructor; [reflexivity | exact H1].
    + constructor; [reflexivity | exact H2].
    + intros on [<- | Hin].
      * eexists. split; [left; reflexivity|]. now repeat split.
      * destruct (H3 on Hin) as (off & Hoff & Hans).
        exists off. split; [now right | exact Hans].
    + constructor.
      * exists d. split; [now left | reflexivity].
      * eapply Forall2_impl; [|exact H4].
        intros on off (d' & Hd' & Ht). exists d'. split; [now right | exact Ht].
Qed.

Lemma insert_by_time_perm (m : Message) (l : list Message) :
  Permutation (insert_by_time m l) (m :: l).
Proof.
  induction l as [|h l IH]; [reflexivity|].
  cbn [insert_by_time]. destruct (Qlt_bool _ _); [reflexivity|].
  rewrite IH. apply perm_swap.
Qed.

Lemma sort_by_time_perm (l : list Message) : Permutation (sort_by_time l) l.
Proof.
  unfold sort_by_time.
  enough (H : forall acc, Permutation
                            (fold_left (fun acc m => insert_by_time m acc) l acc)
                            (acc ++ l))
    by exact (H []).
  induction l as [|m l IH]; intro acc.
  - cbn. now rewrite app_nil_r.
  - cbn [fold_left]. rewrite IH, insert_by_time_perm.
    cbn [app]. apply Permutation_middle.
Qed.

Lemma insert_by_time_sorted (m : Message) (l : list Message) :
  StronglySorted (fun a b => time a <= time b) l ->
  StronglySorted (fun a b => time a <= time b) (insert_by_time m l).
Proof.
  induction l as [|h l IH]; intro Hs.
  - repeat constructor.
  - apply StronglySorted_inv in Hs. destruct Hs as [Hs Hh].
    cbn [insert_by_time]. destruct (Qlt_bool (time m) (time h)) eqn:E.
    + apply Qlt_bool_iff in E. constructor; [now constructor|].
      constructor; [lra|]. rewrite Forall_forall in Hh |- *.
      intros x Hx. specialize (Hh x Hx). cbn in Hh. lra.
    + apply Qlt_bool_false_iff in E. constructor; [now apply IH|].
      rewrite (insert_by_time_perm m l). now constructor.
Qed.

(** After each append-and-sort step the note-off queue is in time order. *)
Lemma sort_by_time_sorted (l : list Message) :
  StronglySorted (fun a b => time a <= time b) (sort_by_time l).
Proof.
  unfold sort_by_time.
  enough (H : forall acc,
             StronglySorted (fun a b => time a <= time b) acc ->
             StronglySorted (fun a b => time a <= time b)
               (fold_left (fun acc m => insert_by_time m acc) l acc))
    by (apply H; constructor).
  induction l as [|m l IH]; intros acc Hacc; [exact Hacc|].
  cbn [fold_left]. apply IH. now apply insert_by_time_sorted.
Qed.

(** One position keeps [queues_ok], whatever front parts of the two queues
    its loop has sent. *)
Lemma queues_ok_step (port out : list sent) (off_queue new_ons new_offs : list Message)
  (ons_sent ons_left offs_sent offs' : list Message) :
  queues_ok port off_queue ->
  Forall (fun m => type m = note_on) new_ons ->
  Forall (fun m => type m = note_off) new_offs ->
  (forall on, In on new_ons -> answered_in on new_offs) ->
  new_ons = ons_sent ++ ons_left ->
  sort_by_time (off_queue ++ new_offs) = offs_sent ++ offs' ->
  Interleave ons_sent offs_sent (map snd out) ->
  on_time out ->
  queues_ok (port ++ out) offs'.
Proof.
  intros (Hq & Ht & Hans) Hons Hoffs Hpairs Esplit Esort Hil Htime.
  assert (Hall : forall m, In m (off_queue ++ new_offs) <->
                           In m offs_sent \/ In m offs').
  { intro m. rewrite <- in_app_iff, <- Esort.
    split; apply Permutation_in;
      [symmetry|]; apply sort_by_time_perm. }
  assert (Hkept : forall m, In m (off_queue ++ new_offs) ->
                            In m (map snd (port ++ out) ++ offs')).
  { intros m Hm. apply Hall in Hm. rewrite map_app, !in_app_iff.
    destruct Hm as [Hm | Hm]; [|now right].
    left. right. apply (Interleave_In _ _ _ m Hil). now right. }
  split; [|split].
  - rewrite Forall_forall. intros m Hm.
    assert (Hin : In m (off_queue ++ new_offs)) by (apply Hall; now right).
    apply in_app_iff in Hin. rewrite Forall_forall in Hq, Hoffs.
    destruct Hin; auto.
  - apply Forall_app. now split.
  - intros on Hin Hty. rewrite map_app, in_app_iff in Hin.
    destruct Hin as [Hin | Hin].
    + destruct (Hans on Hin Hty) as (off & Hoff & Ha).
      exists off. split; [|exact Ha].
      rewrite in_app_iff in Hoff. destruct Hoff as [Hoff | Hoff].
      * rewrite map_app, !in_app_iff. now left; left.
      * apply Hkept. rewrite in_app_iff. now left.
    + apply (Interleave_In _ _ _ on Hil) in Hin.
      destruct Hin as [Hin | Hin].
      * destruct (Hpairs on) as (off & Hoff & Ha).
        { rewrite Esplit, in_app_iff. now left. }
        exists off. split; [|exact Ha].
        apply Hkept. rewrite in_app_iff. now right.
      * exfalso.
        assert (Hin' : In on (off_queue ++ new_offs)) by (apply Hall; now left).
        apply in_app_iff in Hin'. rewrite Forall_forall in Hq, Hoffs.
        destruct Hin' as [Hin' | Hin'];
          [apply Hq in Hin' | apply Hoffs in Hin']; congruence.
Qed.

End Dispatch.

(** ** Whole runs *)

Section Runs.

Import mido BasisMixerMidiThread.

Variable pow2_frac : Q -> Q.

Lemma stopped_run_position_ok (init_time : Q) (calls : list call)
  (stop_after : option nat) (st : state) (on : Q) st' stop_after' stopped :
  BMThread.run_position pow2_frac init_time calls stop_after st on
    = Done (st', stop_after', stopped) ->
  queues_ok (outport st) (off_messages st) ->
  queues_ok (outport st') (off_messages st') /\
  (stop_after = None -> stop_after' = None /\ stopped = false).
Proof.
  unfold BMThread.run_position. intros H Hok.
  destruct (dict_get (score_dict (self_now st)) on) as [p|]; [|discriminate].
  destruct (project_raises _ _ _ _); [discriminate|].
  destruct (make_messages _ _ _ _) as [[ons offs]|] eqn:Emk; [|discriminate].
  destruct (BMThread.stream_loop _ _ _ _ _) as [[[[[o f] c] s] b]| |] eqn:E;
    try discriminate.
  cbn [bind] in H. injection H as <- <- <-. cbn [outport off_messages].
  apply make_messages_spec in Emk. destruct Emk as (H1 & H2 & H3 & _).
  pose proof E as E'.
  apply (stream_loop_spec (length (readings st))) in E; [|lia].
  destruct E as (s1 & l1 & os & E1 & E2 & E3 & E4 & E5 & E6).
  split.
  - eapply queues_ok_step; eassumption.
  - intros ->. split; [|now apply E6].
    rewrite stream_loop_no_stop in E'.
    destruct (send_loop _ _ _ _) as [[[o' f'] c']| |]; try discriminate.
    cbn [bind] in E'. congruence.
Qed.

Lemma stopped_run_positions_ok (init_time : Q) (unique_onsets : list Q) :
  forall (controller : list (list call)) (stop_after : option nat)
         (st st' : state) (stopped : bool),
  BMThread.run_positions pow2_frac init_time controller stop_after st unique_onsets
    = Done (st', stopped) ->
  queues_ok (outport st) (off_messages st) ->
  queues_ok (outport st') (off_messages st') /\
  (stop_after = None -> stopped = false).
Proof.
  induction unique_onsets as [|on rest IH];
    intros controller stop_after st st' stopped H Hok.
  - cbn in H. injection H as <- <-. now split.
  - cbn [BMThread.run_positions] in H.
    destruct (BMThread.run_position pow2_frac init_time (hd [] controller)
                stop_after st on) as [[[st1 sa1] b1]| |] eqn:E; try discriminate.
    cbn [bind] in H.
    destruct (stopped_run_position_ok _ _ _ _ _ _ _ _ E Hok) as [Hok1 Hnone].
    destruct b1.
    + injection H as <- <-. split; [exact Hok1|].
      intro Hn. now destruct (Hnone Hn).
    + destruct (IH _ _ _ _ _ H Hok1) as [Hok' Hnone'].
      split; [exact Hok'|]. intro Hn. apply Hnone'. now destruct (Hnone Hn).
Qed.

Lemma queues_ok_start : queues_ok [] [].
Proof. repeat split; try constructor. intros on []. Qed.

Lemma note_ons_in_app (a b : list sent) :
  note_ons_in (a ++ b) = (note_ons_in a + note_ons_in b)%nat.
Proof. unfold note_ons_in. now rewrite map_app, filter_app, length_app. Qed.

Lemma note_ons_in_single (due : bool) (s : sent) :
  (note_ons_in (if due then [s] else []) <= 1)%nat.
Proof.
  unfold note_ons_in. destruct due; cbn [map filter length]; [|lia].
  destruct (is_note_on (snd s)); cbn [length]; lia.
Qed.

Lemma note_ons_in_note_off (due : bool) (t : Q) (m : Message) :
  type m = note_off -> note_ons_in (if due then [(t, m)] else []) = 0%nat.
Proof.
  intro Hm. unfold note_ons_in. destruct due; [|reflexivity].
  cbn [map filter snd]. unfold is_note_on. now rewrite Hm.
Qed.

(** Streaming under a stop request that becomes visible at check [k]: every
    check before it sends one note-on at most and reads the clock twice at
    most. *)
Lemma stream_loop_budget (n : nat) :
  forall (init_time : Q) (clock : list Q) (k : nat) (ons offs : list Message)
         out offs' clock' stop_after' stopped,
  (length clock <= n)%nat ->
  BMThread.stream_loop init_time clock (Some k) ons offs
    = Done (out, offs', clock', stop_after', stopped) ->
  Forall (fun m => type m = note_off) offs ->
  exists k',
    stop_after' = Some k' /\
    (note_ons_in out + k' <= k)%nat /\
    (length clock <= length clock' + 2 * (k - k'))%nat.
Proof.
  induction n as [|n IH];
    intros init_time clock k ons offs out offs' clock' sa' stopped Hlen H Hoffs.
  - destruct clock; [|cbn in Hlen; lia].
    destruct ons as [|on_msg on_rest].
    + cbn in H. injection H as <- <- <- <- <-. exists k. cbn. repeat split; lia.
    + destruct k as [|j]; [|discriminate].
      cbn in H. injection H as <- <- <- <- <-. exists 0%nat. cbn.
      repeat split; lia.
  - destruct ons as [|on_msg on_rest].
    { destruct clock; cbn in H; injection H as <- <- <- <- <-; exists k; cbn;
        repeat split; lia. }
    destruct k as [|j].
    { destruct clock; cbn in H; injection H as <- <- <- <- <-; exists 0%nat;
        cbn; repeat split; lia. }
    destruct clock as [|t1 clock1]; [discriminate|].
    cbn [length] in Hlen.
    destruct offs as [|off_msg off_rest].
    + cbn [BMThread.stream_loop option_map Nat.pred] in H. cbv zeta in H.
      destruct (BMThread.stream_loop init_time clock1 (Some j) _ [])
        as [[[[[o f] c] s] b]| |] eqn:E; try discriminate.
      cbn [bind] in H. injection H as <- <- <- <- <-.
      apply IH in E; [|lia|constructor].
      destruct E as (k' & -> & Hk & Hc). exists k'. split; [reflexivity|].
      rewrite note_ons_in_app.
      pose proof (note_ons_in_single
                    (Qle_bool (time on_msg) (t1 - init_time))
                    (t1 - init_time, on_msg)).
      cbn [length]. split; lia.
    + destruct clock1 as [|t2 clock2]; [discriminate|].
      cbn [length] in Hlen.
      cbn [BMThread.stream_loop option_map Nat.pred] in H. cbv zeta in H.
      inversion Hoffs as [|? ? Hoff Hrest]; subst.
      destruct (BMThread.stream_loop init_time clock2 (Some j) _ _)
        as [[[[[o f] c] s] b]| |] eqn:E; try discriminate.
      cbn [bind] in H. injection H as <- <- <- <- <-.
      apply IH in E; [|lia|now destruct (Qle_bool (time off_msg) _)].
      destruct E as (k' & -> & Hk & Hc). exists k'. split; [reflexivity|].
      rewrite !note_ons_in_app.
      rewrite (note_ons_in_note_off _ _ off_msg Hoff).
      pose proof (note_ons_in_single
                    (Qle_bool (time on_msg) (t1 - init_time))
                    (t1 - init_time, on_msg)).
      cbn [length]. split; lia.
Qed.

Lemma stopped_run_position_budget (init_time : Q) (calls : list call)
  (k : nat) (st : state) (on : Q) st' stop_after' stopped :
  BMThread.run_position pow2_frac init_time calls (Some k) st on
    = Done (st', stop_after', stopped) ->
  Forall (fun m => type m = note_off) (off_messages st) ->
  exists k' out,
    stop_after' = Some k' /\
    outport st' = outport st ++ out /\
    (note_ons_in out + k' <= k)%nat /\
    (length (readings st) <= length (readings st') + 2 * (k - k'))%nat.
Proof.
  unfold BMThread.run_position. intros H Hq.
  destruct (dict_get (score_dict (self_now st)) on) as [p|]; [|discriminate].
  destruct (project_raises _ _ _ _); [discriminate|].
  destruct (make_messages _ _ _ _) as [[ons offs]|] eqn:Emk; [|discriminate].
  destruct (BMThread.stream_loop _ _ _ _ _) as [[[[[o f] c] s] b]| |] eqn:E;
    try discriminate.
  cbn [bind] in H. injection H as <- <- <-. cbn [outport readings].
  apply make_messages_spec in Emk. destruct Emk as (_ & Hnew & _).
  apply (stream_loop_budget (length (readings st))) in E; [|lia|].
  - destruct E as (k' & -> & Hk & Hc). exists k', o. now repeat split.
  - rewrite sort_by_time_perm. apply Forall_app. now split.
Qed.

(** A run under a stop request that becomes visible at check [k] sends [k]
    note-ons at most and reads the clock [2 * k] times at most before
    Streaming ends. *)
Lemma stopped_run_positions_budget (init_time : Q) (unique_onsets : list Q) :
  forall (controller : list (list call)) (k : nat) (st st' : state)
         (stopped : bool),
  BMThread.run_positions pow2_frac init_time controller (Some k) st unique_onsets
    = Done (st', stopped) ->
  queues_ok (outport st) (off_messages st) ->
  exists out,
    outport st' = outport st ++ out /\
    (note_ons_in out <= k)%nat /\
    (length (readings st) <= length (readings st') + 2 * k)%nat.
Proof.
  induction unique_onsets as [|on rest IH];
    intros controller k st st' stopped H Hok.
  - cbn in H. injection H as <- <-. exists []. rewrite app_nil_r.
    cbn. repeat split; lia.
  - cbn [BMThread.run_positions] in H.
    destruct (BMThread.run_position pow2_frac init_time (hd [] controller)
                (Some k) st on) as [[[st1 sa1] b1]| |] eqn:E; try discriminate.
    cbn [bind] in H.
    destruct (stopped_run_position_ok _ _ _ _ _ _ _ _ E Hok) as [Hok1 _].
    destruct (stopped_run_position_budget _ _ _ _ _ _ _ _ E (proj1 Hok))
      as (k' & out1 & -> & Hport1 & Hk & Hc).
    destruct b1.
    + injection H as <- <-. exists out1. repeat split; [exact Hport1|lia|lia].
    + destruct (IH _ _ _ _ _ H Hok1) as (out2 & Hport2 & Hk2 & Hc2).
      exists (out1 ++ out2). rewrite Hport2, Hport1, app_assoc.
      rewrite note_ons_in_app. repeat split; lia.
Qed.

(** C4: a playback run that has seen a stop request, visible from the
    check number [k] of Streaming on, sends no further note-on: the run
    has sent [k] note-ons at most, one per check before the request, and
    has read the clock [2 * k] times at most when Streaming ends.  It
    reaches its end as soon as the clock has shown, once per queued
    note-off, a time at or after the latest of them, and what it has sent
    by then after the request are exactly the note-offs that were queued
    when the request was seen, in queue order, each at or after its
    scheduled time.  Every note-on sent before the request has a note-off
    for its note and velocity on the port, sent before the request or among
    those. *)
Theorem stop_request_flushes_note_offs (self : t) (controller : list (list call))
  (stop_after : option nat) (init_time deadline : Q) (clock : list Q) (st : state) :
  BMThread.run_positions pow2_frac init_time controller stop_after
    (mkState self 0.5 [] clock []) (np.sort (map fst (score_dict self)))
    = Done (st, true) ->
  Forall (fun m => time m <= deadline) (off_messages st) ->
  (length (off_messages st) <= readings_from init_time deadline (readings st))%nat ->
  exists r k,
    BMThread.run pow2_frac self controller stop_after (init_time :: clock) = Done r /\
    stop_after = Some k /\
    BMThread.stop_seen r = true /\
    (note_ons_in (BMThread.sent_streaming r ++ BMThread.sent_draining r) <= k)%nat /\
    (length clock <= length (readings st) + 2 * k)%nat /\
    BMThread.sent_streaming r = outport st /\
    BMThread.pending_offs r = off_messages st /\
    map snd (BMThread.sent_draining r) = off_messages st /\
    Forall (fun s => type (snd s) = note_off) (BMThread.sent_draining r) /\
    on_time (BMThread.sent_draining r) /\
    forall on,
      In on (map snd (BMThread.sent_streaming r)) -> type on = note_on ->
      answered_in on
        (map snd (BMThread.sent_streaming r ++ BMThread.sent_draining r)).
Proof.
  intros E Hdue Hlate. unfold BMThread.run. rewrite E. cbn [bind].
  destruct (drain_loop_completes init_time deadline (readings st)
              (off_messages st) Hdue Hlate) as (out & clock' & Hd).
  rewrite Hd. cbn [bind].
  pose proof E as Eok.
  apply stopped_run_positions_ok in Eok; [|apply queues_ok_start].
  destruct Eok as [(Hq & Ht & Hans) Hnone].
  destruct stop_after as [k|]; [|now discriminate Hnone].
  apply stopped_run_positions_budget in E; [|apply queues_ok_start].
  cbn [outport readings app] in E. destruct E as (sent & Hsent & Hk & Hc).
  apply drain_loop_spec in Hd. destruct Hd as (Hout & _ & Htime).
  assert (Hoffs : Forall (fun s => type (snd s) = note_off) out).
  { rewrite Forall_forall in Hq |- *. intros s Hs. apply Hq.
    rewrite <- Hout. now apply in_map. }
  assert (Hnone_on : note_ons_in out = 0%nat).
  { clear - Hoffs. unfold note_ons_in.
    induction Hoffs as [|s out Hs _ IH]; [reflexivity|].
    cbn [map filter]. unfold is_note_on at 1. now rewrite Hs. }
  eexists. exists k. split; [reflexivity|].
  cbn [BMThread.stop_seen BMThread.sent_streaming BMThread.pending_offs
       BMThread.sent_draining].
  split; [reflexivity|]. split; [reflexivity|].
  split; [rewrite note_ons_in_app, Hnone_on, Hsent; lia|].
  split; [exact Hc|].
  split; [reflexivity|]. split; [reflexivity|]. split; [exact Hout|].
  split; [exact Hoffs|]. split; [exact Htime|].
  intros on Hin Hty. rewrite map_app, Hout. now apply Hans.
Qed.

(** The source loop is the modelled one without a stop request. *)
Lemma run_positions_no_stop (init_time : Q) (unique_onsets : list Q) :
  forall (controller : list (list call)) (st : state),
  BMThread.run_positions pow2_frac init_time controller None st unique_onsets =
  bind (run_positions pow2_frac init_time controller st unique_onsets)
       (fun st' => Done (st', false)).
Proof.
  induction unique_onsets as [|on rest IH]; intros controller st; [reflexivity|].
  cbn [BMThread.run_positions run_positions].
  unfold BMThread.run_position, run_position.
  destruct (dict_get (score_dict (self_now st)) on) as [p|]; [|reflexivity].
  destruct (project_raises _ _ _ _); [reflexivity|].
  destruct (make_messages _ _ _ _) as [[ons offs]|]; [|reflexivity].
  rewrite stream_loop_no_stop.
  destruct (send_loop _ _ _ _) as [[[o f] c]| |]; [|reflexivity|reflexivity].
  cbn [bind]. apply IH.
Qed.

(** What does hold of every completed run of the source: the note-off queue
    ends empty, every message went out at or after its scheduled time, and
    every note-on sent has a note-off for its note and velocity somewhere on
    the port. *)
Lemma run_answers_every_note_on (self : t) (controller : list (list call))
  (clock : list Q) (st : state) :
  run pow2_frac self controller clock = Done st ->
  off_messages st = [] /\
  on_time (outport st) /\
  forall on, In on (map snd (outport st)) -> type on = note_on ->
             answered_in on (map snd (outport st)).
Proof.
  unfold run. intro H.
  destruct clock as [|init_time clock]; [discriminate|].
  destruct (run_positions _ _ _ _ _) as [st1| |] eqn:E; try discriminate.
  cbn [bind] in H.
  destruct (drain_loop _ _ _) as [[[out offs] clock']| |] eqn:Ed;
    try discriminate.
  cbn [bind] in H. injection H as <-. cbn [off_messages outport].
  pose proof (run_positions_no_stop init_time
                (np.sort (map fst (score_dict self))) controller
                (mkState self 0.5 [] clock [])) as Hns.
  rewrite E in Hns. cbn [bind] in Hns.
  apply stopped_run_positions_ok in Hns; [|apply queues_ok_start].
  destruct Hns as [(Hq & Ht & Hans) _].
  apply drain_loop_spec in Ed. destruct Ed as (Hout & -> & Htime).
  split; [reflexivity|]. split; [apply Forall_app; now split|].
  intros on Hin Hty. rewrite map_app, Hout.
  rewrite map_app, in_app_iff in Hin. destruct Hin as [Hin | Hin].
  - now apply Hans.
  - exfalso. rewrite Hout in Hin. rewrite Forall_forall in Hq.
    apply Hq in Hin. congruence.
Qed.

End Runs.

(** ** Two runs *)

Section RunExamples.

Import mido BasisMixerMidiThread.

Lemma stop_request_flushes_note_offs_witness :
  (exists r,
     BMThread.run pow2_frac_unused scenario_e [] (Some 3%nat) scenario_e_clock
       = Done r /\
     BMThread.stop_seen r = true /\
     map (fun s => (type (snd s), note (snd s))) (BMThread.sent_streaming r) =
       [(note_on, 60%Z); (note_on, 64%Z)] /\
     map (fun s => (type (snd s), note (snd s))) (BMThread.sent_draining r) =
       [(note_off, 60%Z); (note_off, 64%Z); (note_off, 67%Z)] /\
     Forall (fun s => type (snd s) = note_off) (BMThread.sent_draining r) /\
     (note_ons_in (BMThread.sent_streaming r ++ BMThread.sent_draining r)
      <= 3)%nat) /\
  (exists r,
     BMThread.run pow2_frac_unused scenario_e [] (Some 1%nat) scenario_e_clock
       = Done r /\
     BMThread.stop_seen r = true /\
     map (fun s => (type (snd s), note (snd s))) (BMThread.sent_streaming r) =
       [(note_on, 60%Z)] /\
     map (fun s => (type (snd s), note (snd s))) (BMThread.sent_draining r) =
       [(note_off, 60%Z); (note_off, 64%Z)] /\
     (note_ons_in (BMThread.sent_streaming r ++ BMThread.sent_draining r)
      <= 1)%nat).
Proof.
  split.
  - assert (Hst : exists st,
               BMThread.run_positions pow2_frac_unused 100 [] (Some 3%nat)
                 (mkState scenario_e 0.5 [] (tl scenario_e_clock) [])
                 (np.sort (map fst (score_dict scenario_e))) = Done (st, true) /\
               Forall (fun m => time m <= 2.5) (off_messages st) /\
               (length (off_messages st)
                <= readings_from 100 2.5 (readings st))%nat /\
               map (fun s => (type (snd s), note (snd s))) (outport st) =
                 [(note_on, 60%Z); (note_on, 64%Z)] /\
               map (fun m => (type m, note m)) (off_messages st) =
                 [(note_off, 60%Z); (note_off, 64%Z); (note_off, 67%Z)]).
    { eexists. split; [vm_compute; reflexivity|].
      split; [repeat constructor; discriminate|].
      split; [vm_compute; lia|]. split; reflexivity. }
    destruct Hst as (st & Hrun & Hdue & Hlate & Hbefore & Hqueue).
    destruct (stop_request_flushes_note_offs pow2_frac_unused scenario_e []
                (Some 3%nat) 100 2.5 (tl scenario_e_clock) st Hrun Hdue Hlate)
      as (r & k & Hr & Hk & Hstop & Hons & _ & Hs & _ & Hd & Hoff & _).
    injection Hk as <-.
    exists r. split; [exact Hr|]. split; [exact Hstop|].
    split; [now rewrite Hs|]. split; [|split; [exact Hoff | exact Hons]].
    rewrite <- (map_map snd (fun m => (type m, note m))), Hd. exact Hqueue.
  - assert (Hst : exists st,
               BMThread.run_positions pow2_frac_unused 100 [] (Some 1%nat)
                 (mkState scenario_e 0.5 [] (tl scenario_e_clock) [])
                 (np.sort (map fst (score_dict scenario_e))) = Done (st, true) /\
               Forall (fun m => time m <= 2.5) (off_messages st) /\
               (length (off_messages st)
                <= readings_from 100 2.5 (readings st))%nat /\
               map (fun s => (type (snd s), note (snd s))) (outport st) =
                 [(note_on, 60%Z)] /\
               map (fun m => (type m, note m)) (off_messages st) =
                 [(note_off, 60%Z); (note_off, 64%Z)]).
    { eexists. split; [vm_compute; reflexivity|].
      split; [repeat constructor; discriminate|].
      split; [vm_compute; lia|]. split; reflexivity. }
    destruct Hst as (st & Hrun & Hdue & Hlate & Hbefore & Hqueue).
    destruct (stop_request_flushes_note_offs pow2_frac_unused scenario_e []
                (Some 1%nat) 100 2.5 (tl scenario_e_clock) st Hrun Hdue Hlate)
      as (r & k & Hr & Hk & Hstop & Hons & _ & Hs & _ & Hd & _).
    injection Hk as <-.
    exists r. split; [exact Hr|]. split; [exact Hstop|].
    split; [now rewrite Hs|]. split; [|exact Hons].
    rewrite <- (map_map snd (fun m => (type m, note m))), Hd. exact Hqueue.
Defined.

(** C3 at this input: the run completes and its note-off queue ends empty,
    but the note-off of note 67 goes out at 0.601, in the loop turn that
    sends the note-on of note 64, and the note-on of note 67 only in the
    next turn, at 0.602; no note-off for note 67 follows. *)
Theorem run_sends_note_off_before_note_on :
  exists st,
    run pow2_frac_unused late_chord [] late_chord_clock = Done st /\
    off_messages st = [] /\
    map (fun s => (Qred (fst s), type (snd s), note (snd s))) (outport st) =
      [(3 # 5, note_on, 60%Z); (601 # 1000, note_on, 64%Z);
       (601 # 1000, note_off, 67%Z); (301 # 500, note_on, 67%Z);
       (11 # 10, note_off, 60%Z); (153 # 100, note_off, 64%Z)] /\
    ~ answered_later (outport st).
Proof.
  eexists. split; [vm_compute; reflexivity|].
  split; [reflexivity|]. split; [reflexivity|].
  intro H.
  match goal with
  | H : answered_later ?port |- _ =>
      destruct (H (nth 3 port (0, mkMessage note_on 0 0 0)))
        as (off & Hin & (Hty & Hnote & _) & Hlater)
  end.
  - cbn. tauto.
  - reflexivity.
  - cbn [nth] in Hnote, Hlater. cbn [snd fst note] in Hnote, Hlater.
    cbn [In] in Hin.
    destruct Hin as [<- | [<- | [<- | [<- | [<- | [<- | []]]]]]];
      cbn [snd fst type note] in Hty, Hnote, Hlater;
      try discriminate Hty; try discriminate Hnote.
    vm_compute in Hlater. apply Hlater. reflexivity.
Qed.

End RunExamples.

(** * Further properties *)

(** ** LeapControl: the controller mappings and the message dispatch *)

Section LeapControlDispatch.

Import LeapControl.

Variable fresh : string -> BMThread.

Lemma set_tempo_out_cases (val : Q) :
  (val <= 64 /\ set_tempo_out val = Some (- (2.0 / 128.0) * val + 2.0)) \/
  (64 < val /\ set_tempo_out val = Some (- (1.0 / 127.0) * val + 1.5)).
Proof.
  unfold set_tempo_out, Qlt_bool.
  destruct (Qle_bool val 64) eqn:E; cbn [negb].
  - left. split; [now apply Qle_bool_iff|reflexivity].
  - right. split; [|reflexivity].
    apply Qnot_le_lt. intro H. apply Qle_bool_iff in H. congruence.
Qed.

Lemma tempo_low_value (val : Q) :
  - (2.0 / 128.0) * val + 2.0 == 2 - (1 # 64) * val.
Proof. field. Qed.

Lemma tempo_high_value (val : Q) :
  - (1.0 / 127.0) * val + 1.5 == (3 # 2) - (1 # 127) * val.
Proof. field. Qed.

Lemma velocity_low_value (val : Q) :
  (0.5 / 64.0) * val + 0.5 == (1 # 128) * val + (1 # 2).
Proof. field. Qed.

Lemma velocity_high_value (val : Q) :
  (2.0 / 127.0) * val == (2 # 127) * val.
Proof. field. Qed.

(** X1: The tempo mapping: every raw value in [0, 127] goes to a tempo
    multiplier in [0.5, 2], which is handed to the thread's tempo setter. *)
Theorem set_tempo_scale_range (val : Q) (self : t) (th : BMThread) :
  0 <= val <= 127 ->
  playback_thread self = Some th ->
  exists out,
    set_tempo val self =
      Returned (mkLeapControl (song_list self) (cur_song_id self) (cur_song self)
                  (Some (thread_set_tempo out th))) /\
    1 # 2 <= out <= 2 /\
    (val <= 64 -> out == 2 - (1 # 64) * val) /\
    (64 < val -> out == (3 # 2) - (1 # 127) * val).
Proof.
  intros [H0 H127] Hth. unfold set_tempo. rewrite Hth.
  destruct (set_tempo_out_cases val) as [[Hle ->] | [Hgt ->]].
  - eexists. split; [reflexivity|].
    rewrite tempo_low_value. split; [split; lra|].
    split; [intros _; reflexivity | intro; lra].
  - eexists. split; [reflexivity|].
    rewrite tempo_high_value. split; [split; lra|].
    split; [intro; lra | intros _; reflexivity].
Qed.

Lemma set_tempo_scale_range_witness :
  exists out,
    set_tempo 0 playing_control =
      Returned (mkLeapControl ["beethoven"%string; "chopin"%string] 0
                  "beethoven"%string (Some (thread_set_tempo out idle_thread))) /\
    out == 2.
Proof.
  destruct (set_tempo_scale_range 0 playing_control idle_thread)
    as (out & E & _ & Hlow & _).
  - split; lra.
  - reflexivity.
  - exists out. split; [exact E|]. rewrite Hlow by lra. reflexivity.
Defined.

(** X2: The scaler mapping: every raw value in [0, 127] goes to [100/127] times
    itself, a value in [0, 100]. *)
Theorem set_ml_scaler_range (val : Q) (self : t) (th : BMThread) :
  0 <= val <= 127 ->
  playback_thread self = Some th ->
  exists out,
    set_ml_scaler val self =
      Returned (mkLeapControl (song_list self) (cur_song_id self) (cur_song self)
                  (Some (thread_set_scaler out th))) /\
    0 <= out <= 100 /\ out == (100 # 127) * val.
Proof.
  intros [H0 H127] Hth. unfold set_ml_scaler. rewrite Hth.
  eexists. split; [reflexivity|].
  assert (E : 100 / 127 * val == (100 # 127) * val) by field.
  rewrite E. split; [split; lra | reflexivity].
Qed.

Lemma set_ml_scaler_range_witness :
  exists out,
    set_ml_scaler 127 playing_control =
      Returned (mkLeapControl ["beethoven"%string; "chopin"%string] 0
                  "beethoven"%string (Some (thread_set_scaler out idle_thread))) /\
    out == 100.
Proof.
  destruct (set_ml_scaler_range 127 playing_control idle_thread)
    as (out & E & _ & Hv).
  - split; lra.
  - reflexivity.
  - exists out. split; [exact E|]. rewrite Hv. reflexivity.
Defined.

(** X3: Both two-piece mappings keep their direction across the break at 64: a
    larger raw value gives a larger velocity factor and a smaller tempo
    multiplier, for any two raw values. *)
Theorem controller_maps_monotone (a b : Q) :
  a < b ->
  (exists x y, set_velocity_out a = Some x /\ set_velocity_out b = Some y /\
               x < y) /\
  (exists x y, set_tempo_out a = Some x /\ set_tempo_out b = Some y /\
               y < x).
Proof.
  intro Hab. split.
  - destruct (set_velocity_out_cases a) as [[Ha ->] | [Ha ->]];
      destruct (set_velocity_out_cases b) as [[Hb ->] | [Hb ->]];
      eexists; eexists; (split; [reflexivity|]); (split; [reflexivity|]);
      rewrite ?velocity_low_value, ?velocity_high_value; lra.
  - destruct (set_tempo_out_cases a) as [[Ha ->] | [Ha ->]];
      destruct (set_tempo_out_cases b) as [[Hb ->] | [Hb ->]];
      eexists; eexists; (split; [reflexivity|]); (split; [reflexivity|]);
      rewrite ?tempo_low_value, ?tempo_high_value; lra.
Qed.

Lemma controller_maps_monotone_witness :
  (exists x y, set_velocity_out 64 = Some x /\ set_velocity_out 65 = Some y /\
               x < y) /\
  (exists x y, set_tempo_out 64 = Some x /\ set_tempo_out 65 = Some y /\
               y < x).
Proof. apply (controller_maps_monotone 64 65). reflexivity. Defined.

Lemma setters_without_thread (val : Q) (self : t) :
  playback_thread self = None ->
  set_tempo val self = Raised AttributeError self /\
  set_velocity val self = Raised AttributeError self /\
  set_ml_scaler val self = Raised AttributeError self /\
  stop self = self.
Proof.
  intro Hth. unfold set_tempo, set_velocity, set_ml_scaler, stop. rewrite Hth.
  destruct (set_tempo_out_cases val) as [[_ ->] | [_ ->]];
    destruct (set_velocity_out_cases val) as [[_ ->] | [_ ->]];
    repeat split; reflexivity.
Qed.

(** X4: Before the first [play] there is no thread: each of the three setters
    raises [AttributeError] for every value and leaves the object as it
    was, while [stop] does nothing and returns. *)
Theorem setters_need_thread (val : Q) (self : t) :
  playback_thread self = None ->
  set_tempo val self = Raised AttributeError self /\
  set_velocity val self = Raised AttributeError self /\
  set_ml_scaler val self = Raised AttributeError self /\
  stop self = self.
Proof. exact (setters_without_thread val self). Qed.

Lemma setters_need_thread_witness :
  set_tempo 64 two_songs = Raised AttributeError two_songs /\
  set_velocity 64 two_songs = Raised AttributeError two_songs /\
  set_ml_scaler 64 two_songs = Raised AttributeError two_songs /\
  stop two_songs = two_songs.
Proof. apply (setters_need_thread 64 two_songs). reflexivity. Defined.

(** With a thread in place no setter raises, whatever the value, and none
    of them touches the song fields. *)
Lemma setters_return (val : Q) (self : t) (th : BMThread) :
  playback_thread self = Some th ->
  (exists th', set_tempo val self =
     Returned (mkLeapControl (song_list self) (cur_song_id self) (cur_song self)
                             (Some th'))) /\
  (exists th', set_velocity val self =
     Returned (mkLeapControl (song_list self) (cur_song_id self) (cur_song self)
                             (Some th'))) /\
  (exists th', set_ml_scaler val self =
     Returned (mkLeapControl (song_list self) (cur_song_id self) (cur_song self)
                             (Some th'))).
Proof.
  intro Hth. unfold set_tempo, set_velocity, set_ml_scaler. rewrite Hth.
  destruct (set_tempo_out_cases val) as [[_ ->] | [_ ->]];
    destruct (set_velocity_out_cases val) as [[_ ->] | [_ ->]];
    repeat split; eexists; reflexivity.
Qed.

(** X5: [play] makes a new thread and sets it to tempo 1.0, scaler 0.0 and
    velocity 50.0, whatever the values of the thread it replaces; the song
    fields stay, and from then on the three setters return for every
    value. *)
Theorem play_resets_controls (self : t) :
  let self' := play fresh self in
  song_list self' = song_list self /\
  cur_song_id self' = cur_song_id self /\
  cur_song self' = cur_song self /\
  (exists th,
     playback_thread self' = Some th /\
     tempo th == 1 /\ scaler th == 0 /\ vel th == 50 /\ play_flag th = true) /\
  forall val,
    (exists s, set_tempo val self' = Returned s) /\
    (exists s, set_velocity val self' = Returned s) /\
    (exists s, set_ml_scaler val self' = Returned s).
Proof.
  cbv zeta. repeat (split; [reflexivity|]). split.
  - eexists. split; [reflexivity|]. cbn. repeat split; reflexivity.
  - intro val.
    destruct (setters_return val (play fresh self) _ eq_refl)
      as ((t1 & E1) & (t2 & E2) & (t3 & E3)).
    rewrite E1, E2, E3. repeat split; eexists; reflexivity.
Qed.

Lemma when_false (body : t -> printing) (self : t) :
  when false body self = silent (Returned self).
Proof. reflexivity. Qed.

Lemma and_then_silent (self : t) (k : t -> printing) :
  and_then (silent (Returned self)) k = k self.
Proof. unfold and_then, silent. cbn. now destruct (k self). Qed.

(** What [parse_midi_msg] does on a control change on channel 0, by control
    number. *)
Lemma parse_control (number value : Z) (self : t) :
  parse_midi_msg fresh (control number value) self =
  if (number =? 20)%Z then silent (set_tempo (inject_Z value) self)
  else if (number =? 21)%Z then silent (set_velocity (inject_Z value) self)
  else if (number =? 22)%Z then silent (set_ml_scaler (inject_Z value) self)
  else if (number =? 23)%Z then
    ([format "Received Song change. New value: " value], select_song value self)
  else if (number =? 24)%Z then
    ([format "Received Play command. New value: " value],
     Returned (if (value =? 127)%Z then play fresh self else self))
  else if (number =? 25)%Z then
    ([format "Received Stop command. New value: " value],
     Returned (if (value =? 127)%Z then stop self else self))
  else silent (Returned self).
Proof.
  unfold parse_midi_msg, control.
  cbn [msg_type msg_channel msg_control msg_value].
  change (String.eqb "control_change" "control_change") with true.
  change (0 =? 0)%Z with true. cbv iota.
  destruct (number =? 20)%Z eqn:E20.
  { apply Z.eqb_eq in E20. subst number.
    cbn [Z.eqb Pos.eqb when]. unfold and_then, silent. cbn [snd fst].
    destruct (set_tempo (inject_Z value) self); reflexivity. }
  rewrite when_false, and_then_silent.
  destruct (number =? 21)%Z eqn:E21.
  { apply Z.eqb_eq in E21. subst number.
    cbn [Z.eqb Pos.eqb when]. unfold and_then, silent. cbn [snd fst].
    destruct (set_velocity (inject_Z value) self); reflexivity. }
  rewrite when_false, and_then_silent.
  destruct (number =? 22)%Z eqn:E22.
  { apply Z.eqb_eq in E22. subst number.
    cbn [Z.eqb Pos.eqb when]. unfold and_then, silent. cbn [snd fst].
    destruct (set_ml_scaler (inject_Z value) self); reflexivity. }
  rewrite when_false, and_then_silent.
  destruct (number =? 23)%Z eqn:E23.
  { apply Z.eqb_eq in E23. subst number.
    cbn [Z.eqb Pos.eqb when]. unfold and_then, silent. cbn [snd fst].
    destruct (select_song value self); cbn [app]; reflexivity. }
  rewrite when_false, and_then_silent.
  destruct (number =? 24)%Z eqn:E24.
  { apply Z.eqb_eq in E24. subst number.
    cbn [Z.eqb Pos.eqb when]. unfold and_then, silent. cbn [snd fst app].
    reflexivity. }
  rewrite when_false, and_then_silent.
  destruct (number =? 25)%Z; reflexivity.
Qed.

Lemma in_message_control (msg : in_message) :
  String.eqb (msg_type msg) "control_change" = true ->
  (msg_channel msg =? 0)%Z = true ->
  msg = control (msg_control msg) (msg_value msg).
Proof.
  intros Ht Hc. apply String.eqb_eq in Ht. apply Z.eqb_eq in Hc.
  destruct msg as [ty ch co va]. cbn in *. now subst.
Qed.

(** X6: Messages that are no control change, that come on another channel than
    0, or whose control number is outside 20..25 are dropped: nothing is
    printed, nothing raised, the object stays as it is. *)
Theorem parse_midi_msg_ignores (msg : in_message) (self : t) :
  msg_type msg <> "control_change"%string \/ msg_channel msg <> 0%Z \/
  (msg_control msg < 20 \/ 25 < msg_control msg)%Z ->
  parse_midi_msg fresh msg self = ([], Returned self).
Proof.
  intros H.
  destruct (String.eqb (msg_type msg) "control_change") eqn:Ht.
  2:{ unfold parse_midi_msg. now rewrite Ht. }
  destruct (msg_channel msg =? 0)%Z eqn:Hc.
  2:{ unfold parse_midi_msg. now rewrite Ht, Hc. }
  rewrite (in_message_control msg Ht Hc), parse_control.
  apply String.eqb_eq in Ht. apply Z.eqb_eq in Hc.
  destruct H as [H | [H | H]]; [contradiction | contradiction|].
  repeat match goal with
         | |- context [(?a =? ?b)%Z] =>
             destruct (Z.eqb_spec a b); [lia|]
         end.
  reflexivity.
Qed.

(** X7: The play and the stop command act on the value 127 only: with any
    other value the message is reported on the console and the object stays
    as it is. *)
Theorem play_stop_need_127 (number value : Z) (self : t) :
  number = 24%Z \/ number = 25%Z ->
  value <> 127%Z ->
  exists line,
    parse_midi_msg fresh (control number value) self = ([line], Returned self).
Proof.
  intros Hn Hv. rewrite parse_control.
  apply Z.eqb_neq in Hv. rewrite Hv.
  destruct Hn as [-> | ->]; eexists; reflexivity.
Qed.

Lemma select_song_in_step (val : Z) (self : t) :
  song_in_step self ->
  (- Z.of_nat (length (song_list self)) <= val)%Z ->
  exists self',
    select_song val self = Returned self' /\ song_in_step self' /\
    song_list self' = song_list self /\
    playback_thread self' = playback_thread self.
Proof.
  intros Hstep Hval. unfold select_song.
  destruct (val <? Z.of_nat (length (song_list self)))%Z eqn:E.
  - apply Z.ltb_lt in E. cbn [song_list cur_song_id].
    destruct (py_getitem_in_range (song_list self) val) as [song Hsong]; [lia|].
    rewrite Hsong. eexists. split; [reflexivity|].
    split; [exact Hsong|]. split; reflexivity.
  - exists self. repeat split. exact Hstep.
Qed.

(** X8: [cur_song] stays the entry of [song_list] at [cur_song_id]:
    [__init__] sets the two up that way, and no incoming message with a
    data byte as value (0..127) breaks it or changes the song list, whether
    [parse_midi_msg] returns or raises. *)
Theorem song_in_step_invariant :
  (forall songs self, init songs = Some self ->
     song_in_step self /\ song_list self = songs) /\
  (forall msg self,
     song_in_step self -> (0 <= msg_value msg <= 127)%Z ->
     let self' := state_of (snd (parse_midi_msg fresh msg self)) in
     song_in_step self' /\ song_list self' = song_list self).
Proof.
  split.
  - intros songs self. unfold init.
    destruct (py_getitem songs 0) as [song|] eqn:E; [|discriminate].
    intros [= <-]. split; [exact E | reflexivity].
  - intros msg self Hstep Hv. cbv zeta.
    destruct (String.eqb (msg_type msg) "control_change") eqn:Ht.
    2:{ unfold parse_midi_msg. rewrite Ht. now split. }
    destruct (msg_channel msg =? 0)%Z eqn:Hc.
    2:{ unfold parse_midi_msg. rewrite Ht, Hc. now split. }
    rewrite (in_message_control msg Ht Hc), parse_control.
    cbn [control msg_value msg_control].
    assert (Hset : forall o th',
               o = Raised AttributeError self \/
               o = Returned (mkLeapControl (song_list self) (cur_song_id self)
                               (cur_song self) th') ->
               song_in_step (state_of o) /\
               song_list (state_of o) = song_list self).
    { intros o th' [-> | ->]; now split. }
    destruct (msg_control msg =? 20)%Z.
    { cbn [silent snd]. unfold set_tempo.
      destruct (set_tempo_out_cases (inject_Z (msg_value msg)))
        as [[_ ->] | [_ ->]];
        destruct (playback_thread self); now split. }
    destruct (msg_control msg =? 21)%Z.
    { cbn [silent snd]. unfold set_velocity.
      destruct (set_velocity_out_cases (inject_Z (msg_value msg)))
        as [[_ ->] | [_ ->]];
        destruct (playback_thread self); now split. }
    destruct (msg_control msg =? 22)%Z.
    { cbn [silent snd]. unfold set_ml_scaler.
      destruct (playback_thread self); now split. }
    destruct (msg_control msg =? 23)%Z.
    { cbn [snd].
      destruct (select_song_in_step (msg_value msg) self Hstep)
        as (self' & -> & H1 & H2 & _); [lia|]. now split. }
    destruct (msg_control msg =? 24)%Z.
    { cbn [snd state_of]. destruct (msg_value msg =? 127)%Z; now split. }
    destruct (msg_control msg =? 25)%Z.
    { cbn [snd state_of]. destruct (msg_value msg =? 127)%Z; [|now split].
      unfold stop. destruct (playback_thread self); now split. }
    now split.
Qed.

Lemma select_song_thread (val : Z) (self : t) :
  playback_thread (state_of (select_song val self)) = playback_thread self.
Proof.
  unfold select_song.
  destruct (val <? Z.of_nat (length (song_list self)))%Z; [|reflexivity].
  cbn [song_list cur_song_id].
  destruct (py_getitem (song_list self) val); reflexivity.
Qed.

Lemma and_then_state (r : printing) (k : t -> printing) :
  state_of (snd (and_then r k)) =
  match snd r with
  | Returned self => state_of (snd (k self))
  | Raised _ self => self
  end.
Proof. unfold and_then. destruct (snd r) eqn:E; cbn [snd]; now rewrite ?E. Qed.

(** Without a play command the thread is never made. *)
Lemma parse_without_play (msg : in_message) (self : t) :
  is_play_command msg = false ->
  playback_thread self = None ->
  playback_thread (state_of (snd (parse_midi_msg fresh msg self))) = None.
Proof.
  intros Hplay Hth. unfold is_play_command in Hplay.
  destruct (String.eqb (msg_type msg) "control_change") eqn:Ht.
  2:{ unfold parse_midi_msg. now rewrite Ht. }
  destruct (msg_channel msg =? 0)%Z eqn:Hc.
  2:{ unfold parse_midi_msg. now rewrite Ht, Hc. }
  cbn [andb] in Hplay.
  rewrite (in_message_control msg Ht Hc), parse_control.
  destruct (setters_without_thread (inject_Z (msg_value msg)) self Hth)
    as (E1 & E2 & E3 & E4).
  rewrite E1, E2, E3.
  repeat match goal with
         | |- context [if (msg_control msg =? ?b)%Z then _ else _] =>
             destruct (msg_control msg =? b)%Z eqn:?
         end; cbn [silent snd state_of]; try exact Hth.
  - now rewrite select_song_thread.
  - cbn [andb] in Hplay. now rewrite Hplay.
  - rewrite E4. now destruct (msg_value msg =? 127)%Z.
Qed.

Lemma listen_without_play (inport : list in_message) :
  forall self,
  Forall (fun msg => is_play_command msg = false) inport ->
  playback_thread self = None ->
  playback_thread (state_of (snd (listen fresh inport self))) = None.
Proof.
  induction inport as [|msg rest IH]; intros self Hall Hth; [exact Hth|].
  inversion Hall as [|? ? Hmsg Hrest]; subst.
  cbn [listen]. rewrite and_then_state.
  pose proof (parse_without_play msg self Hmsg Hth) as Hp.
  destruct (snd (parse_midi_msg fresh msg self)) as [self' | e self'];
    cbn [state_of] in Hp; [now apply IH | exact Hp].
Qed.

(** X9: [main] cannot shut down cleanly unless a play command (control 24 with
    value 127 on channel 0) has arrived: without one there is no thread
    when the [finally] block calls [lc.playback_thread.join()], and [main]
    ends with [AttributeError], also when no message arrived at all. *)
Theorem main_without_play_crashes (inport : list in_message) :
  Forall (fun msg => is_play_command msg = false) inport ->
  snd (main fresh inport) = Crashed AttributeError.
Proof.
  intro Hall. unfold main.
  change (init SONG_LIST)
    with (Some (mkLeapControl SONG_LIST 0
                  "bm_files/beethoven_op027_no2_mv1_bm_z.txt" None)).
  set (lc0 := mkLeapControl SONG_LIST 0
                "bm_files/beethoven_op027_no2_mv1_bm_z.txt" None).
  pose proof (listen_without_play inport lc0 Hall eq_refl) as Hth.
  cbv zeta iota.
  destruct (snd (listen fresh inport lc0)) as [s1 | e s1];
    cbn [state_of] in Hth; cbn [snd]; unfold clean_up, stop;
    rewrite Hth; cbv zeta; now rewrite Hth.
Qed.

(** With a thread in place no message with a data byte as value makes
    [parse_midi_msg] raise, and the thread stays in place. *)
Lemma parse_with_thread (msg : in_message) (self : t) :
  (0 <= msg_value msg <= 127)%Z ->
  playback_thread self <> None ->
  exists self',
    snd (parse_midi_msg fresh msg self) = Returned self' /\
    playback_thread self' <> None.
Proof.
  intros Hv Hth.
  destruct (String.eqb (msg_type msg) "control_change") eqn:Ht.
  2:{ unfold parse_midi_msg. rewrite Ht. now exists self. }
  destruct (msg_channel msg =? 0)%Z eqn:Hc.
  2:{ unfold parse_midi_msg. rewrite Ht, Hc. now exists self. }
  rewrite (in_message_control msg Ht Hc), parse_control.
  destruct (playback_thread self) as [th|] eqn:Eth; [|contradiction].
  destruct (setters_return (inject_Z (msg_value msg)) self th Eth)
    as ((t1 & E1) & (t2 & E2) & (t3 & E3)).
  rewrite E1, E2, E3.
  repeat match goal with
         | |- context [if (msg_control msg =? ?b)%Z then _ else _] =>
             destruct (msg_control msg =? b)%Z eqn:?
         end; cbn [silent snd];
    try (eexists; split; [reflexivity|]; cbn [playback_thread];
         rewrite ?Eth; discriminate).
  - pose proof (select_song_thread (msg_value msg) self) as Hs.
    unfold select_song in *.
    destruct (msg_value msg <? Z.of_nat (length (song_list self)))%Z eqn:E.
    + cbn [song_list cur_song_id] in *. apply Z.ltb_lt in E.
      destruct (py_getitem_in_range (song_list self) (msg_value msg))
        as [song Hsong]; [lia|].
      rewrite Hsong. eexists. split; [reflexivity|].
      cbn [playback_thread]. rewrite Eth. discriminate.
    + exists self. split; [reflexivity|]. rewrite Eth. discriminate.
  - eexists. split; [reflexivity|].
    destruct (msg_value msg =? 127)%Z; cbn [play playback_thread];
      rewrite ?Eth; discriminate.
  - eexists. split; [reflexivity|].
    destruct (msg_value msg =? 127)%Z; unfold stop; rewrite ?Eth;
      cbn [playback_thread]; discriminate.
Qed.

Lemma listen_with_thread (inport : list in_message) :
  forall self,
  Forall (fun msg => (0 <= msg_value msg <= 127)%Z) inport ->
  playback_thread self <> None ->
  exists self',
    snd (listen fresh inport self) = Returned self' /\
    playback_thread self' <> None.
Proof.
  induction inport as [|msg rest IH]; intros self Hall Hth.
  - now exists self.
  - inversion Hall as [|? ? Hmsg Hrest]; subst.
    destruct (parse_with_thread msg self Hmsg Hth) as (s1 & E1 & H1).
    destruct (IH s1 Hrest H1) as (s2 & E2 & H2).
    exists s2. split; [|exact H2].
    cbn [listen]. unfold and_then. rewrite E1. cbn [snd]. exact E2.
Qed.

(** X10: When the first message to arrive is the play command, and every later
    one carries a data byte (0..127) as its value, nothing raises: [main]
    runs until the keyboard interrupt, reports it, and shuts down. *)
Theorem main_after_play_finishes (inport : list in_message) :
  Forall (fun msg => (0 <= msg_value msg <= 127)%Z) inport ->
  let r := main fresh (control 24 127 :: inport) in
  snd r = Finished /\
  last (fst r) EmptyString =
    "Received keyboard interrupt. Shutting down..."%string.
Proof.
  intro Hall. cbv zeta. unfold main.
  change (init SONG_LIST)
    with (Some (mkLeapControl SONG_LIST 0
                  "bm_files/beethoven_op027_no2_mv1_bm_z.txt" None)).
  cbn [listen]. rewrite parse_control. cbn [Z.eqb Pos.eqb].
  set (lc := play fresh _).
  destruct (listen_with_thread inport lc Hall) as (s & E & Hs);
    [discriminate|].
  unfold and_then. cbn [snd fst]. rewrite E. cbn [snd fst].
  split.
  - unfold clean_up, stop. destruct (playback_thread s); [reflexivity|].
    contradiction.
  - now rewrite last_last.
Qed.

End LeapControlDispatch.

Section LeapControlExamples.

Import LeapControl.

Lemma parse_midi_msg_ignores_witness :
  parse_midi_msg fresh_thread (mkInMessage "note_on" 0 24 127) two_songs
  = ([], Returned two_songs) /\
  parse_midi_msg fresh_thread (mkInMessage "control_change" 1 24 127) two_songs
  = ([], Returned two_songs) /\
  parse_midi_msg fresh_thread (mkInMessage "control_change" 0 26 127) two_songs
  = ([], Returned two_songs).
Proof.
  split; [|split]; apply parse_midi_msg_ignores.
  - left. discriminate.
  - right. left. discriminate.
  - right. right. right. reflexivity.
Defined.

Lemma play_stop_need_127_witness :
  exists line,
    parse_midi_msg fresh_thread (control 24 126) two_songs = ([line], Returned two_songs).
Proof. apply play_stop_need_127; [now left | discriminate]. Defined.

Lemma song_in_step_invariant_witness :
  (exists self, init SONG_LIST = Some self /\ song_in_step self) /\
  (let self' := state_of (snd (parse_midi_msg fresh_thread (control 23 1) two_songs)) in
   song_in_step self' /\ cur_song self' = "chopin"%string).
Proof.
  destruct (song_in_step_invariant fresh_thread) as [Hinit Hparse]. split.
  - eexists. split; [reflexivity|].
    apply (Hinit SONG_LIST). reflexivity.
  - cbv zeta. split; [|reflexivity].
    apply (Hparse (control 23 1) two_songs); [reflexivity|].
    cbn. lia.
Defined.

Lemma main_without_play_crashes_witness :
  main fresh_thread [control 25 127] =
  (["Received Stop command. New value: 127"%string;
    "Received keyboard interrupt. Shutting down..."%string],
   Crashed AttributeError).
Proof.
  pose proof (main_without_play_crashes fresh_thread [control 25 127]) as H.
  destruct (main fresh_thread [control 25 127]) as [lines e] eqn:E.
  cbn [snd] in H. rewrite H by (repeat constructor).
  vm_compute in E. now inversion E.
Defined.

Lemma main_after_play_finishes_witness :
  snd (main fresh_thread [control 24 127; control 20 0; control 23 1;
                          control 25 127]) = Finished.
Proof.
  apply (main_after_play_finishes fresh_thread).
  repeat constructor; cbn; lia.
Defined.

End LeapControlExamples.

(** ** MidiThread: what literal playback changes, and where it stops *)

Section LiteralPlaybackMore.

Import mido MidiThread.

Lemma play_msg_keeps (self : t) (msg pm : Message) :
  play_msg self msg = Some pm ->
  type pm = type msg /\ note pm = note msg /\ time pm = time msg /\
  (sounding msg = false -> pm = msg).
Proof.
  unfold play_msg, sounding, is_note_on.
  destruct (type msg) eqn:Ety; try (intros [= <-]; now repeat split).
  destruct (velocity msg =? 0)%Z; cbn [negb andb];
    try (intros [= <-]; now repeat split).
  destruct (vel self) as [v|]; try (intros [= <-]; now repeat split).
  unfold copy_velocity. destruct (check_data_byte v); [|discriminate].
  intros [= <-]. cbn. repeat split; [now symmetry | discriminate].
Qed.

(** The run up to the first meta message [m] of the file. *)
Lemma run_stops_at_meta (self : t) (pre post : list Message) (m : Message) :
  midi self = pre ++ m :: post ->
  override_ok (vel self) ->
  Forall (fun x => is_meta x = false) pre -> is_meta m = true ->
  (forall x, In x (pre ++ [m]) -> 0 <= time x * tempo self) ->
  exists out,
    run self [] = Raised TypeError (out ++ [sleep (time m * tempo self)]) /\
    sleep_lengths out = map (fun x => time x * tempo self) pre /\
    Forall2 (fun msg pm => play_msg self msg = Some pm) pre (sent_messages out).
Proof.
  intros Hmidi Hov Hpre Hm Htimes.
  destruct (run_loop_plays self pre Hov Hpre) as (out & E & Hs & Hf).
  { intros x Hx. apply Htimes. apply in_or_app. now left. }
  exists out. split; [|now split].
  unfold run. rewrite Hmidi, run_loop_app, E, run_loop_meta; [reflexivity | exact Hm|].
  apply Htimes. apply in_or_app. right. now left.
Qed.

(** X11: literal playback stops at the first meta message of the file
    (every MIDI file has at least the closing end of track): the messages
    before it have been sent one for one, in file order, each with the
    type, the note number and the delay it has in the file, only a note-on
    that starts a note possibly with another velocity; then [send] raises
    [TypeError], and neither the meta message nor anything after it is
    sent. *)
Theorem literal_run_passes_through (self : t) (pre post : list Message)
  (m : Message) :
  midi self = pre ++ m :: post ->
  override_ok (vel self) ->
  Forall (fun x => is_meta x = false) pre -> is_meta m = true ->
  (forall x, In x (pre ++ [m]) -> 0 <= time x * tempo self) ->
  exists out,
    run self [] = Raised TypeError out /\
    Forall2 (fun msg pm =>
               type pm = type msg /\ note pm = note msg /\ time pm = time msg /\
               (sounding msg = false -> pm = msg))
            pre (sent_messages out).
Proof.
  intros Hmidi Hov Hpre Hm Htimes.
  destruct (run_stops_at_meta self pre post m Hmidi Hov Hpre Hm Htimes)
    as (out & E & _ & Hf).
  eexists. split; [exact E|].
  rewrite sent_messages_app. cbn [sent_messages]. rewrite app_nil_r.
  eapply Forall2_impl; [|exact Hf]. intros msg pm. apply play_msg_keeps.
Qed.

Lemma pedal_track_delays (c : Q) (x : Message) :
  0 <= c -> In x pedal_track -> 0 <= time x * c.
Proof.
  intros Hc Hx. cbn in Hx.
  destruct Hx as [<- | [<- | [<- | [<- | []]]]]; cbn [time];
    apply Qmult_le_0_compat; try exact Hc; discriminate.
Qed.

Lemma literal_run_passes_through_witness :
  exists out,
    run (set_velocity (Some 100%Z) (init pedal_track)) [] = Raised TypeError out /\
    Forall2 (fun msg pm =>
               type pm = type msg /\ note pm = note msg /\ time pm = time msg /\
               (sounding msg = false -> pm = msg))
            pedal_file (sent_messages out).
Proof.
  apply (literal_run_passes_through
           (set_velocity (Some 100%Z) (init pedal_track))
           pedal_file [] end_of_track).
  - reflexivity.
  - cbn. lia.
  - repeat constructor.
  - reflexivity.
  - intros x Hx. apply pedal_track_delays; [discriminate | exact Hx].
Defined.

Lemma Qsum_scale (c : Q) (l : list Q) :
  Qsum (map (fun x => x * c) l) == c * Qsum l.
Proof.
  induction l as [|x l IH]; cbn [map Qsum fold_right].
  - ring.
  - fold (Qsum (map (fun x => x * c) l)). fold (Qsum l). rewrite IH. ring.
Qed.

(** X12: with the tempo left alone during playback, the time [run] has
    slept when it stops at its first meta message is the tempo value times
    the delays of the file up to and with that message, the whole length
    of a file whose only meta message is the closing end of track: the
    tempo value stretches time, 2 plays at half speed. *)
Theorem literal_run_duration (self : t) (pre post : list Message)
  (m : Message) :
  midi self = pre ++ m :: post ->
  override_ok (vel self) ->
  Forall (fun x => is_meta x = false) pre -> is_meta m = true ->
  (forall x, In x (pre ++ [m]) -> 0 <= time x * tempo self) ->
  exists out,
    run self [] = Raised TypeError out /\
    Qsum (sleep_lengths out) == tempo self * Qsum (map time (pre ++ [m])).
Proof.
  intros Hmidi Hov Hpre Hm Htimes.
  destruct (run_stops_at_meta self pre post m Hmidi Hov Hpre Hm Htimes)
    as (out & E & Hs & _).
  eexists. split; [exact E|].
  rewrite sleep_lengths_app, Hs. cbn [sleep_lengths].
  rewrite <- Qsum_scale, map_map, map_app. cbn [map]. reflexivity.
Qed.

Lemma literal_run_duration_witness :
  exists out,
    run (set_tempo 2 (init pedal_track)) [] = Raised TypeError out /\
    Qsum (sleep_lengths out) == 3.
Proof.
  destruct (literal_run_duration (set_tempo 2 (init pedal_track))
              pedal_file [] end_of_track) as (out & E & Hd).
  - reflexivity.
  - exact I.
  - repeat constructor.
  - reflexivity.
  - intros x Hx. apply pedal_track_delays; [discriminate | exact Hx].
  - exists out. split; [exact E|]. rewrite Hd. reflexivity.
Defined.

(** X13: an override that is no data byte (outside 0..127) goes unnoticed
    while the file brings neither a meta message nor a note-on that starts
    a note: those messages are sent as they are in the file; at the first
    note-on that starts a note [msg.copy] raises [ValueError], and the rest
    of the file is not played. *)
Theorem literal_run_bad_override_aborts (self : t) (pre post : list Message)
  (m : Message) (v : Z) :
  midi self = pre ++ m :: post ->
  vel self = Some v -> (v < 0 \/ 127 < v)%Z ->
  Forall (fun x => is_meta x = false) pre ->
  Forall (fun x => sounding x = false) pre -> sounding m = true ->
  (forall x, In x pre -> 0 <= time x * tempo self) ->
  exists out,
    run self [] = Raised ValueError out /\ sent_messages out = pre.
Proof.
  intros Hmidi Hvel Hv Hmeta Hpre Hm Htimes. unfold run.
  rewrite Hmidi, run_loop_app.
  assert (Hplays : exists out, run_loop self pre [] = Returned out /\
                               sent_messages out = pre).
  { clear Hmidi. induction pre as [|x pre IH].
    - exists []. now split.
    - inversion Hpre as [|? ? Hx Hpre']; subst.
      inversion Hmeta as [|? ? Hxm Hmeta']; subst.
      destruct IH as (out & E & Hs);
        [exact Hmeta' | exact Hpre' | intros y Hy; apply Htimes; now right|].
      cbn [run_loop hd tl apply_calls fold_left].
      assert (Hpm : play_msg self x = Some x).
      { unfold play_msg, sounding, is_note_on in *.
        destruct (type x); try reflexivity.
        cbn [andb] in Hx. now rewrite Hx. }
      rewrite Hpm, Hxm.
      replace (Qlt_bool (time x * tempo self) 0) with false.
      2:{ symmetry. apply Qlt_bool_false_iff. apply Htimes. now left. }
      rewrite E. eexists. split; [reflexivity|].
      cbn [emit app sent_messages]. now rewrite Hs. }
  destruct Hplays as (out & -> & Hs).
  cbn [run_loop hd tl apply_calls fold_left].
  assert (Hpm : play_msg self m = None).
  { unfold play_msg, sounding, is_note_on in *.
    destruct (type m); try discriminate Hm. cbn [andb] in Hm.
    rewrite Hm, Hvel. unfold copy_velocity, check_data_byte.
    replace ((0 <=? v) && (v <=? 127))%Z with false; [reflexivity|].
    symmetry. apply andb_false_iff.
    destruct Hv; [left; apply Z.leb_gt | right; apply Z.leb_gt]; lia. }
  rewrite Hpm. cbn [emit]. exists (out ++ []). split; [reflexivity|].
  now rewrite app_nil_r.
Qed.

Lemma literal_run_bad_override_aborts_witness :
  exists out,
    run (set_velocity (Some 200%Z) (init pedal_track)) [] = Raised ValueError out /\
    sent_messages out = [mkMessage (other "control_change") 64 127 0].
Proof.
  apply (literal_run_bad_override_aborts
           (set_velocity (Some 200%Z) (init pedal_track))
           [mkMessage (other "control_change") 64 127 0]
           [mkMessage note_off 60 64 1; end_of_track]
           (mkMessage note_on 60 64 (1 # 2)) 200).
  - reflexivity.
  - reflexivity.
  - right. lia.
  - repeat constructor.
  - repeat constructor.
  - reflexivity.
  - intros x [<- | []]. cbn. lra.
Defined.

(** X14: a delay times the tempo value that comes out negative stops
    playback: [time.sleep] raises [ValueError] before the message is sent;
    the messages before it, no meta message among them, have been sent one
    for one, and nothing after. *)
Theorem literal_run_negative_delay_aborts (self : t) (pre post : list Message)
  (m : Message) :
  midi self = pre ++ m :: post ->
  override_ok (vel self) ->
  Forall (fun x => is_meta x = false) pre ->
  (forall x, In x pre -> 0 <= time x * tempo self) ->
  time m * tempo self < 0 ->
  exists out,
    run self [] = Raised ValueError out /\
    length (sent_messages out) = length pre /\
    sleep_lengths out = map (fun x => time x * tempo self) pre.
Proof.
  intros Hmidi Hov Hmeta Htimes Hneg. unfold run. rewrite Hmidi, run_loop_app.
  destruct (run_loop_plays self pre Hov Hmeta Htimes) as (out & -> & Hs & Hf).
  cbn [run_loop hd tl apply_calls fold_left].
  destruct (play_msg_total self m Hov) as [pm Hpm]. rewrite Hpm.
  rewrite (play_msg_time self m pm Hpm).
  replace (Qlt_bool (time m * tempo self) 0) with true
    by (symmetry; now apply Qlt_bool_iff).
  cbn [emit]. exists (out ++ []). split; [reflexivity|].
  rewrite app_nil_r. split; [|exact Hs].
  symmetry. eapply Forall2_length. exact Hf.
Qed.

Lemma literal_run_negative_delay_aborts_witness :
  exists out,
    run (set_tempo (-1) (init pedal_track)) [] = Raised ValueError out /\
    length (sent_messages out) = 1%nat.
Proof.
  destruct (literal_run_negative_delay_aborts
              (set_tempo (-1) (init pedal_track))
              [mkMessage (other "control_change") 64 127 0]
              [mkMessage note_off 60 64 1; end_of_track]
              (mkMessage note_on 60 64 (1 # 2)))
    as (out & E & Hl & _).
  - reflexivity.
  - exact I.
  - repeat constructor.
  - intros x [<- | []]. cbn. lra.
  - cbn. lra.
  - exists out. split; [exact E | exact Hl].
Defined.

End LiteralPlaybackMore.

(** ** BasisMixerMidiThread: what a run sends, and when it raises *)

Section ExpressiveRuns.

Import mido BasisMixerMidiThread.

Variable pow2_frac : Q -> Q.

(** *** The loops raise nothing *)

Lemma send_loop_raises_nothing (init_time : Q) (n : nat) :
  forall (clock : list Q) (ons offs : list Message) (e : exception),
  (length clock <= n)%nat ->
  send_loop init_time clock ons offs <> Raised e.
Proof.
  induction n as [|n IH]; intros clock ons offs e Hn.
  - destruct clock; [|cbn in Hn; lia].
    destruct ons; cbn; discriminate.
  - destruct ons as [|on ons]; [cbn; destruct clock; discriminate|].
    destruct clock as [|t1 clock1]; [cbn; discriminate|].
    cbn [length] in Hn. cbn [send_loop].
    destruct offs as [|off offs].
    + match goal with
      | |- bind (send_loop _ _ ?a ?b) _ <> _ =>
          pose proof (IH clock1 a b e ltac:(lia)) as H;
          destruct (send_loop init_time clock1 a b) as [[[? ?] ?]| |];
          cbn [bind]; congruence
      end.
    + destruct clock1 as [|t2 clock2]; [discriminate|].
      cbn [length] in Hn.
      match goal with
      | |- bind (send_loop _ _ ?a ?b) _ <> _ =>
          pose proof (IH clock2 a b e ltac:(lia)) as H;
          destruct (send_loop init_time clock2 a b) as [[[? ?] ?]| |];
          cbn [bind]; congruence
      end.
Qed.

Lemma drain_loop_raises_nothing (init_time : Q) (clock : list Q) :
  forall (offs : list Message) (e : exception),
  drain_loop init_time clock offs <> Raised e.
Proof.
  induction clock as [|t1 clock IH]; intros offs e.
  - destruct offs; cbn; discriminate.
  - destruct offs as [|off offs]; [cbn; discriminate|].
    cbn [drain_loop]. destruct (Qle_bool _ _); [|apply IH].
    pose proof (IH offs e) as H.
    destruct (drain_loop init_time clock offs) as [[[? ?] ?]| |];
      cbn [bind]; congruence.
Qed.

(** *** One score position, taken apart *)

Lemma apply_calls_band (cs : list call) (s : t) :
  vel_min (apply_calls cs s) = vel_min s /\
  vel_max (apply_calls cs s) = vel_max s.
Proof.
  revert s. induction cs as [|c cs IH]; intro s; [now split|].
  cbn [apply_calls fold_left]. fold (apply_calls cs (apply_call s c)).
  destruct (IH (apply_call s c)) as [-> ->]. now destruct c.
Qed.

(** What lines 111-124 can raise. *)
Lemma project_raises_kinds (self : t) (prev : Q) (p : position) (e : exception) :
  project_raises pow2_frac self prev p = Some e ->
  e = IndexError \/ e = ValueError.
Proof.
  unfold project_raises.
  destruct (negb (np.index_ok (pitch p) _)); [intros [= <-]; now left|].
  destruct (duration_product _ _ _) as [product|]; [|intros [= <-]; now right].
  destruct (negb (np.index_ok product _)); [intros [= <-]; now left|].
  destruct (negb (np.index_ok (vd p) _)); [intros [= <-]; now left|].
  discriminate.
Qed.

(** When they raise nothing, every index lies inside the array it is used
    on. *)
Lemma project_raises_none (self : t) (prev : Q) (p : position) :
  project_raises pow2_frac self prev p = None ->
  let idx := perf_onset_idx (project pow2_frac self prev p) in
  np.index_ok (pitch p) idx = true /\
  np.index_ok (vd p) idx = true /\
  np.index_ok (durations pow2_frac (tempo self) p) idx = true.
Proof.
  unfold project_raises, durations. cbv zeta.
  destruct (np.index_ok (pitch p) _); cbn [negb]; [|discriminate].
  destruct (duration_product _ _ _) as [product|]; [|discriminate].
  destruct (np.index_ok product _); cbn [negb]; [|discriminate].
  destruct (np.index_ok (vd p) _); cbn [negb]; [|discriminate].
  now repeat split.
Qed.

Lemma index_ok_perm {A : Type} (a : list A) (idx : list nat) :
  Permutation idx (seq 0 (length a)) -> np.index_ok a idx = true.
Proof.
  intro Hperm. unfold np.index_ok. apply forallb_forall. intros i Hi.
  apply Nat.ltb_lt.
  apply (Permutation_in _ Hperm) in Hi. apply in_seq in Hi. lia.
Qed.

Lemma zip_with_length {A B C : Type} (f : A -> B -> C) (a : list A) :
  forall b : list B, length a = length b -> length (zip_with f a b) = length a.
Proof.
  induction a as [|x a IH]; intros [|y b] Hl; try discriminate; [reflexivity|].
  cbn [zip_with length]. f_equal. apply IH. now injection Hl.
Qed.

Lemma project_idx_perm (self : t) (prev : Q) (p : position) :
  Permutation (perf_onset_idx (project pow2_frac self prev p))
              (seq 0 (length (tim p))).
Proof.
  unfold project. cbn [perf_onset_idx].
  destruct (argsort_sorted
              (map (fun x => eq_onset_of pow2_frac prev (tempo self) p - x)
                   (tim p))) as [Hp _].
  now rewrite length_map in Hp.
Qed.

(** On arrays of one length they raise nothing. *)
Lemma project_raises_same_shape (self : t) (prev : Q) (p : position) :
  same_shape p = true -> project_raises pow2_frac self prev p = None.
Proof.
  intro Hshape. destruct (same_shape_lengths p Hshape) as (H1 & H2 & H3 & H4).
  pose proof (project_idx_perm self prev p) as Hperm. rewrite H3 in Hperm.
  unfold project_raises. cbv zeta.
  rewrite (index_ok_perm (pitch p)) by exact Hperm. cbn [negb].
  rewrite (proj1 (durations_same_shape pow2_frac (tempo self) p Hshape)).
  rewrite (index_ok_perm (zip_with _ (lart p) (dur p)))
    by (rewrite zip_with_length; [now rewrite H4 | congruence]).
  cbn [negb].
  rewrite (index_ok_perm (vd p)) by (now rewrite H2).
  reflexivity.
Qed.

(** What a position that went through has done. *)
Lemma run_position_done (init_time : Q) (calls : list call) (st st' : state)
  (on : Q) :
  run_position pow2_frac init_time calls st on = Done st' ->
  exists p ons new_off out offs_sent,
    dict_get (score_dict (self_now st)) on = Some p /\
    project_raises pow2_frac (self_now st') (prev_eq_onset st) p = None /\
    self_now st' = apply_calls calls (self_now st) /\
    let pr := project pow2_frac (self_now st') (prev_eq_onset st) p in
    prev_eq_onset st' = eq_onset pr /\
    make_messages (perf_pitch pr) (perf_onset pr) (perf_duration pr)
                  (perf_vel pr) = Some (ons, new_off) /\
    sort_by_time (off_messages st ++ new_off) = offs_sent ++ off_messages st' /\
    Interleave ons offs_sent (map snd out) /\
    on_time out /\
    outport st' = outport st ++ out.
Proof.
  unfold run_position. intro H.
  destruct (dict_get (score_dict (self_now st)) on) as [p|]; [|discriminate].
  destruct (project_raises _ _ _ _) eqn:Hraises; [discriminate|].
  destruct (make_messages _ _ _ _) as [[ons new_off]|] eqn:Hmsgs;
    [|discriminate].
  destruct (send_loop _ _ _ _) as [[[out offs'] clock']| |] eqn:Hsend;
    try discriminate.
  cbn [bind] in H. injection H as <-.
  destruct (send_loop_spec _ _ _ _ _ _ _ Hsend) as (offs_sent & H1 & H2 & H3).
  exists p, ons, new_off, out, offs_sent.
  cbn [self_now prev_eq_onset off_messages outport].
  repeat split; try assumption; reflexivity.
Qed.

(** How a position ends otherwise. *)
Lemma run_position_cases (init_time : Q) (calls : list call) (st : state)
  (on : Q) :
  (exists st', run_position pow2_frac init_time calls st on = Done st') \/
  run_position pow2_frac init_time calls st on = ClockEnd \/
  (run_position pow2_frac init_time calls st on = Raised KeyError /\
   dict_get (score_dict (self_now st)) on = None) \/
  (exists p e,
     run_position pow2_frac init_time calls st on = Raised e /\
     dict_get (score_dict (self_now st)) on = Some p /\
     project_raises pow2_frac (apply_calls calls (self_now st))
                    (prev_eq_onset st) p = Some e) \/
  (run_position pow2_frac init_time calls st on = Raised ValueError /\
   exists p, dict_get (score_dict (self_now st)) on = Some p /\
     let pr := project pow2_frac (apply_calls calls (self_now st))
                       (prev_eq_onset st) p in
     make_messages (perf_pitch pr) (perf_onset pr) (perf_duration pr)
                   (perf_vel pr) = None).
Proof.
  unfold run_position.
  destruct (dict_get (score_dict (self_now st)) on) as [p|];
    [|right; right; left; now split].
  destruct (project_raises _ _ _ _) as [e|] eqn:Hraises.
  { right. right. right. left. exists p, e. now repeat split. }
  destruct (make_messages _ _ _ _) as [[ons new_off]|] eqn:Hmsgs.
  2:{ right. right. right. right. split; [reflexivity|]. exists p.
      split; auto. }
  destruct (send_loop _ _ _ _) as [[[out offs'] clock']| |] eqn:Hsend;
    cbn [bind].
  - left. eexists. reflexivity.
  - exfalso. eapply send_loop_raises_nothing; [|exact Hsend]. apply Nat.le_refl.
  - right. now left.
Qed.

(** The messages of one position, field by field. *)
Lemma make_messages_fields (ps : list Z) :
  forall (os ds : list Q) (vs : list Z) ons offs,
  length os = length ps -> length ds = length ps -> length vs = length ps ->
  make_messages ps os ds vs = Some (ons, offs) ->
  map type ons = map (fun _ => note_on) ps /\
  map type offs = map (fun _ => note_off) ps /\
  map note ons = ps /\ map note offs = ps /\
  map velocity ons = vs /\ map velocity offs = vs /\
  map time ons = os /\ map time offs = zip_with Qplus os ds.
Proof.
  induction ps as [|p ps IH]; intros os ds vs ons offs Ho Hd Hv H.
  - destruct os, ds, vs; try discriminate.
    cbn in H. injection H as <- <-. now repeat split.
  - destruct os as [|o os], ds as [|d ds], vs as [|v vs]; try discriminate.
    cbn [make_messages] in H. unfold new in H.
    destruct (check_data_byte v && check_data_byte p); [|discriminate].
    destruct (make_messages ps os ds vs) as [[ons' offs']|] eqn:E;
      [|discriminate].
    injection H as <- <-. cbn [length] in Ho, Hd, Hv.
    destruct (IH os ds vs ons' offs') as (H1 & H2 & H3 & H4 & H5 & H6 & H7 & H8);
      try lia; [exact E|].
    cbn [map zip_with type note velocity time].
    now rewrite H1, H2, H3, H4, H5, H6, H7, H8.
Qed.

Lemma make_messages_some (ps : list Z) :
  forall (os ds : list Q) (vs : list Z),
  Forall (fun x => (0 <= x <= 127)%Z) ps ->
  Forall (fun x => (0 <= x <= 127)%Z) vs ->
  exists r, make_messages ps os ds vs = Some r.
Proof.
  induction ps as [|p ps IH]; intros os ds vs Hp Hv.
  - eexists. reflexivity.
  - destruct os as [|o os], ds as [|d ds], vs as [|v vs];
      try (eexists; reflexivity).
    inversion Hp as [|? ? Hp1 Hp2]; subst.
    inversion Hv as [|? ? Hv1 Hv2]; subst.
    cbn [make_messages]. unfold new.
    rewrite (check_data_byte_true v Hv1), (check_data_byte_true p Hp1).
    cbn [andb].
    destruct (IH os ds vs Hp2 Hv2) as ([ons offs] & ->).
    eexists. reflexivity.
Qed.

Lemma make_messages_none (ps : list Z) :
  forall (os ds : list Q) (vs : list Z) (j : nat),
  length os = length ps -> length ds = length ps -> length vs = length ps ->
  (j < length vs)%nat ->
  check_data_byte (nth j vs 0%Z) = false ->
  make_messages ps os ds vs = None.
Proof.
  induction ps as [|p ps IH]; intros os ds vs j Ho Hd Hv Hj Hbad.
  - destruct vs; [cbn in Hj; lia | discriminate].
  - destruct os as [|o os], ds as [|d ds], vs as [|v vs]; try discriminate.
    cbn [length] in *. cbn [make_messages]. unfold new.
    destruct j as [|j].
    + cbn [nth] in Hbad. now rewrite Hbad.
    + cbn [nth] in Hbad.
      rewrite (IH os ds vs j) by (try lia; exact Hbad).
      now destruct (check_data_byte v && check_data_byte p).
Qed.

Lemma take_length {A : Type} (d : A) (a : list A) (idx : list nat) :
  length (np.take d a idx) = length idx.
Proof. unfold np.take. apply length_map. Qed.

Lemma take_Forall {A : Type} (P : A -> Prop) (d : A) (a : list A)
  (idx : list nat) :
  Forall P a -> Permutation idx (seq 0 (length a)) ->
  Forall P (np.take d a idx).
Proof.
  intros Ha Hperm. now rewrite (take_perm d a idx Hperm).
Qed.

Lemma take_Forall_index_ok {A : Type} (P : A -> Prop) (d : A) (a : list A)
  (idx : list nat) :
  Forall P a -> np.index_ok a idx = true -> Forall P (np.take d a idx).
Proof.
  intros Ha Hok. unfold np.take. apply Forall_map. rewrite Forall_forall.
  intros i Hi. unfold np.index_ok in Hok.
  rewrite forallb_forall in Hok. apply Hok in Hi. apply Nat.ltb_lt in Hi.
  rewrite Forall_forall in Ha. apply Ha. now apply nth_In.
Qed.

(** The four arrays handed to the message loop have one entry per entry of
    [tim], whatever the lengths of the other arrays. *)
Lemma project_lengths (self : t) (prev : Q) (p : position) :
  let pr := project pow2_frac self prev p in
  let n := length (tim p) in
  length (perf_pitch pr) = n /\ length (perf_onset pr) = n /\
  length (perf_duration pr) = n /\ length (perf_vel pr) = n.
Proof.
  cbv zeta.
  pose proof (Permutation_length (project_idx_perm self prev p)) as Hn.
  rewrite length_seq in Hn.
  unfold project in *.
  cbn [perf_pitch perf_onset perf_duration perf_vel perf_onset_idx] in *.
  rewrite !take_length. now repeat split.
Qed.

(** The arrays a projection hands to the message loop, on arrays of one
    length. *)
Lemma project_shapes (self : t) (prev : Q) (p : position) :
  same_shape p = true ->
  let pr := project pow2_frac self prev p in
  let n := length (pitch p) in
  Permutation (perf_onset_idx pr) (seq 0 n) /\
  length (perf_pitch pr) = n /\ length (perf_onset pr) = n /\
  length (perf_duration pr) = n /\ length (perf_vel pr) = n /\
  length (zip_with (fun l d => exp2 pow2_frac l * tempo self * d)
                   (lart p) (dur p)) = n /\
  Permutation (perf_pitch pr) (pitch p) /\
  Permutation (perf_vel pr)
              (map (perf_vel_of self (vt p) (vel self)) (vd p)).
Proof.
  intros Hshape pr n.
  destruct (same_shape_lengths p Hshape) as (Hdur & Hvd & Htim & Hlart).
  pose proof (project_idx_perm self prev p) as Hperm. rewrite Htim in Hperm.
  fold pr in Hperm. fold n in Hperm.
  destruct (project_lengths self prev p) as (L1 & L2 & L3 & L4).
  fold pr in L1, L2, L3, L4. rewrite Htim in L1, L2, L3, L4.
  split; [exact Hperm|].
  repeat (split; [assumption|]).
  split; [rewrite zip_with_length; [now rewrite Hlart | congruence]|].
  split.
  - apply take_perm. exact Hperm.
  - apply take_perm. rewrite length_map, Hvd. exact Hperm.
Qed.

(** *** The keys *)

Lemma dict_get_in (d : list (Q * position)) (on : Q) :
  In on (map fst d) -> exists p, dict_get d on = Some p.
Proof.
  induction d as [|[k p] d IH]; intro Hin; [destruct Hin|].
  cbn [dict_get]. destruct (Qeq_bool k on) eqn:E; [now exists p|].
  destruct Hin as [<- | Hin]; [|now apply IH].
  cbn [fst] in E. rewrite (proj2 (Qeq_bool_iff k k) (Qeq_refl k)) in E.
  discriminate.
Qed.

Lemma dict_get_some_in (d : list (Q * position)) (on : Q) (p : position) :
  dict_get d on = Some p -> exists k, In (k, p) d.
Proof.
  induction d as [|[k q] d IH]; [discriminate|].
  cbn [dict_get]. destruct (Qeq_bool k on).
  - intros [= ->]. exists k. now left.
  - intro H. destruct (IH H) as [k' Hk']. exists k'. now right.
Qed.

Lemma run_position_score_dict (init_time : Q) (calls : list call)
  (st st' : state) (on : Q) :
  run_position pow2_frac init_time calls st on = Done st' ->
  score_dict (self_now st') = score_dict (self_now st) /\
  vel_min (self_now st') = vel_min (self_now st) /\
  vel_max (self_now st') = vel_max (self_now st).
Proof.
  intro H. apply run_position_done in H.
  destruct H as (p & ons & new_off & out & offs_sent & _ & _ & -> & _).
  split; [apply apply_calls_score_dict | apply apply_calls_band].
Qed.

Lemma run_positions_no_KeyError (init_time : Q) (onsets : list Q) :
  forall (controller : list (list call)) (st : state),
  (forall on, In on onsets ->
     exists p, dict_get (score_dict (self_now st)) on = Some p) ->
  run_positions pow2_frac init_time controller st onsets <> Raised KeyError.
Proof.
  induction onsets as [|on rest IH]; intros controller st Hkeys;
    [discriminate|].
  cbn [run_positions].
  destruct (run_position_cases init_time (hd [] controller) st on)
    as [[st' E] | [E | [[E Hnone] | [(p & e & E & _ & He) | [E _]]]]];
    rewrite E; cbn [bind]; try discriminate.
  - apply IH. intros on' Hin.
    destruct (run_position_score_dict _ _ _ _ _ E) as [-> _].
    apply Hkeys. now right.
  - destruct (Hkeys on (or_introl eq_refl)) as [p Hp]. congruence.
  - destruct (project_raises_kinds _ _ _ _ He) as [-> | ->]; discriminate.
Qed.

(** X15: [run] goes through the keys of [score_dict] in ascending order, each
    key once, and finds a position under every one of them: it never raises
    [KeyError]. *)
Theorem run_visits_keys_in_order (self : t) :
  let unique_onsets := np.sort (map fst (score_dict self)) in
  Permutation unique_onsets (map fst (score_dict self)) /\
  StronglySorted Qle unique_onsets /\
  (forall on, In on unique_onsets ->
     exists p, dict_get (score_dict self) on = Some p) /\
  forall controller clock,
    run pow2_frac self controller clock <> Raised KeyError.
Proof.
  cbv zeta. destruct (sort_sorted (map fst (score_dict self))) as [Hperm Hs].
  assert (Hkeys : forall on, In on (np.sort (map fst (score_dict self))) ->
                    exists p, dict_get (score_dict self) on = Some p).
  { intros on Hin. apply dict_get_in.
    eapply Permutation_in; [exact Hperm | exact Hin]. }
  repeat split; try assumption.
  intros controller clock. unfold run.
  destruct clock as [|init_time clock]; [discriminate|].
  pose proof (run_positions_no_KeyError init_time _ controller
                (mkState self 0.5 [] clock []) Hkeys) as Hno.
  destruct (run_positions _ _ _ _ _) as [st| |]; cbn [bind];
    [|exact Hno | discriminate].
  pose proof (drain_loop_raises_nothing init_time (readings st)
                (off_messages st) KeyError) as Hd.
  destruct (drain_loop _ _ _) as [[[out offs] clock']| |]; cbn [bind];
    congruence.
Qed.

(** *** No exception on a MIDI-sized score *)

Lemma perf_vel_of_band (self : t) (vt vel_a vd : Q) :
  (vel_min self <= vel_max self)%Z ->
  (vel_min self <= perf_vel_of self vt vel_a vd <= vel_max self)%Z.
Proof. intro H. rewrite perf_vel_of_clip. lia. Qed.

Lemma run_positions_raise_nothing (init_time : Q) (onsets : list Q) :
  forall (controller : list (list call)) (st : state) (e : exception),
  well_formed_score (score_dict (self_now st)) ->
  midi_band (self_now st) ->
  (forall on, In on onsets ->
     exists p, dict_get (score_dict (self_now st)) on = Some p) ->
  run_positions pow2_frac init_time controller st onsets <> Raised e.
Proof.
  induction onsets as [|on rest IH]; intros controller st e Hwf Hband Hkeys;
    [discriminate|].
  cbn [run_positions].
  destruct (run_position_cases init_time (hd [] controller) st on)
    as [[st' E] | [E | [[E Hnone] | [(p & e' & E & Hp & He)
                                    | [E (p & Hp & Hbad)]]]]];
    rewrite E; cbn [bind]; try discriminate.
  - destruct (run_position_score_dict _ _ _ _ _ E) as (Hd & Hmin & Hmax).
    apply IH.
    + now rewrite Hd.
    + unfold midi_band in *. now rewrite Hmin, Hmax.
    + intros on' Hin. rewrite Hd. apply Hkeys. now right.
  - destruct (Hkeys on (or_introl eq_refl)) as [p Hp]. congruence.
  - exfalso. destruct (dict_get_some_in _ _ _ Hp) as [k Hk].
    unfold well_formed_score in Hwf. rewrite Forall_forall in Hwf.
    destruct (Hwf (k, p) Hk) as [Hshape _]. cbn [snd] in Hshape.
    rewrite (project_raises_same_shape _ _ p Hshape) in He. discriminate.
  - exfalso. destruct (dict_get_some_in _ _ _ Hp) as [k Hk].
    unfold well_formed_score in Hwf. rewrite Forall_forall in Hwf.
    destruct (Hwf (k, p) Hk) as [Hshape Hpitch]. cbn [snd] in Hshape, Hpitch.
    cbv zeta in Hbad.
    set (self' := apply_calls (hd [] controller) (self_now st)) in *.
    destruct (project_shapes self' (prev_eq_onset st) p Hshape)
      as (Hperm & _ & _ & _ & _ & _ & Hpp & Hpv).
    destruct (make_messages_some
                (perf_pitch (project pow2_frac self' (prev_eq_onset st) p))
                (perf_onset (project pow2_frac self' (prev_eq_onset st) p))
                (perf_duration (project pow2_frac self' (prev_eq_onset st) p))
                (perf_vel (project pow2_frac self' (prev_eq_onset st) p)))
      as [r Hr]; [| |congruence].
    + now rewrite Hpp.
    + rewrite Hpv. apply Forall_map. rewrite Forall_forall. intros x _.
      destruct (apply_calls_band (hd [] controller) (self_now st))
        as [Hmin Hmax].
      destruct Hband as (B1 & B2 & B3).
      pose proof (perf_vel_of_band self' (vt p) (vel self') x) as Hb.
      fold self' in Hmin, Hmax. rewrite Hmin, Hmax in Hb. lia.
Qed.

(** X16: When the arrays of every position have one length, the pitches are
    data bytes and the band [vel_min .. vel_max] lies inside 0..127, [run]
    raises no exception, whatever tempo and velocity the controller sets
    and whatever the clock shows. *)
Theorem run_raises_nothing (self : t) (controller : list (list call))
  (clock : list Q) (e : exception) :
  well_formed_score (score_dict self) -> midi_band self ->
  run pow2_frac self controller clock <> Raised e.
Proof.
  intros Hwf Hband. unfold run.
  destruct clock as [|init_time clock]; [discriminate|].
  pose proof (run_positions_raise_nothing init_time
                (np.sort (map fst (score_dict self))) controller
                (mkState self 0.5 [] clock []) e Hwf Hband) as Hno.
  destruct (run_positions _ _ _ _ _) as [st| |]; cbn [bind];
    [| |discriminate].
  - pose proof (drain_loop_raises_nothing init_time (readings st)
                  (off_messages st) e) as Hd.
    destruct (drain_loop _ _ _) as [[[out offs] clock']| |]; cbn [bind];
      congruence.
  - apply Hno. cbn [self_now]. intros on Hin. apply dict_get_in.
    eapply Permutation_in; [apply sort_sorted | exact Hin].
Qed.

(** X17: A computed velocity outside 0..127, which takes a band that reaches
    outside the data bytes, makes the [Message] constructor raise
    [ValueError]: the position is not played, and [run] ends there. *)
Theorem velocity_outside_midi_raises (init_time : Q) (calls : list call)
  (st : state) (on : Q) (p : position) (i : nat) :
  dict_get (score_dict (self_now st)) on = Some p ->
  same_shape p = true ->
  (i < length (pitch p))%nat ->
  let self := apply_calls calls (self_now st) in
  let v := perf_vel_of self (vt p) (vel self) (nth i (vd p) 0) in
  (v < 0 \/ 127 < v)%Z ->
  run_position pow2_frac init_time calls st on = Raised ValueError.
Proof.
  intros Hp Hshape Hi self v Hv.
  unfold run_position. rewrite Hp. cbv zeta. fold self.
  rewrite (project_raises_same_shape self (prev_eq_onset st) p Hshape).
  destruct (project_shapes self (prev_eq_onset st) p Hshape)
    as (Hperm & L1 & L2 & L3 & L4 & _).
  set (pr := project pow2_frac self (prev_eq_onset st) p) in *.
  assert (Hvd : length (vd p) = length (pitch p)).
  { unfold same_shape in Hshape.
    repeat (apply andb_prop in Hshape; destruct Hshape as [Hshape ?]).
    now apply Nat.eqb_eq. }
  assert (Hin : In i (perf_onset_idx pr)).
  { eapply Permutation_in; [apply Permutation_sym; exact Hperm|].
    apply in_seq. lia. }
  destruct (In_nth _ _ 0%nat Hin) as (j & Hj & Hnth).
  rewrite (make_messages_none _ _ _ _ j); try lia; [reflexivity| |].
  - rewrite L4. rewrite (Permutation_length Hperm), length_seq in Hj.
    exact Hj.
  - unfold pr, project. cbn [perf_vel]. fold (perf_onset_idx pr).
    unfold np.take.
    rewrite (nth_indep _ 0%Z
               (nth 0 (map (fun x => perf_vel_of self (vt p) (vel self) x)
                           (vd p)) 0%Z))
      by (rewrite length_map; exact Hj).
    rewrite (map_nth (fun k => nth k (map (fun x => perf_vel_of self (vt p)
                                              (vel self) x) (vd p)) 0%Z)).
    unfold pr, project in Hnth. cbn [perf_onset_idx] in Hnth. rewrite Hnth.
    rewrite (nth_indep _ 0%Z (perf_vel_of self (vt p) (vel self) 0))
      by (rewrite length_map; lia).
    rewrite (map_nth (fun x => perf_vel_of self (vt p) (vel self) x)).
    fold v. unfold check_data_byte. apply andb_false_iff.
    destruct Hv; [left | right]; apply Z.leb_gt; lia.
Qed.

(** X18: With the bounds the wrong way round ([vel_max < vel_min]) every note
    gets the velocity [vel_max], whatever was computed for it. *)
Theorem swapped_band_gives_vel_max (self : t) (vt vel_a vd : Q) :
  (vel_max self < vel_min self)%Z ->
  perf_vel_of self vt vel_a vd = vel_max self.
Proof. intro H. rewrite perf_vel_of_clip. lia. Qed.

(** *** Every note once *)

Lemma Interleave_perm {A : Type} (l1 l2 l : list A) :
  Interleave l1 l2 l -> Permutation l (l1 ++ l2).
Proof.
  induction 1 as [|a l1 l2 l _ IH|a l1 l2 l _ IH].
  - constructor.
  - cbn [app]. now constructor.
  - rewrite IH. apply Permutation_middle.
Qed.

Lemma filter_perm {A : Type} (f : A -> bool) (l l' : list A) :
  Permutation l l' -> Permutation (filter f l) (filter f l').
Proof.
  induction 1 as [|x l l' _ IH|x y l|l l' l'' _ IH1 _ IH2]; cbn [filter].
  - constructor.
  - destruct (f x); [now constructor | exact IH].
  - destruct (f x), (f y); try reflexivity. apply perm_swap.
  - now transitivity (filter f l').
Qed.

Lemma filter_note_ons (l : list Message) :
  Forall (fun m => type m = note_on) l ->
  filter is_note_on l = l /\ filter is_note_off l = [].
Proof.
  induction 1 as [|m l Hm _ [IH1 IH2]]; [now split|].
  assert (Hon : is_note_on m = true) by (unfold is_note_on; now rewrite Hm).
  assert (Hoff : is_note_off m = false) by (unfold is_note_off; now rewrite Hm).
  cbn [filter]. now rewrite Hon, Hoff, IH1, IH2.
Qed.

Lemma filter_note_offs (l : list Message) :
  Forall (fun m => type m = note_off) l ->
  filter is_note_off l = l /\ filter is_note_on l = [].
Proof.
  induction 1 as [|m l Hm _ [IH1 IH2]]; [now split|].
  assert (Hon : is_note_on m = false) by (unfold is_note_on; now rewrite Hm).
  assert (Hoff : is_note_off m = true) by (unfold is_note_off; now rewrite Hm).
  cbn [filter]. now rewrite Hon, Hoff, IH1, IH2.
Qed.

(** What one position adds to the port and leaves in the queue. *)
Lemma run_position_notes (init_time : Q) (calls : list call) (st st' : state)
  (on : Q) :
  even_shapes (score_dict (self_now st)) ->
  run_position pow2_frac init_time calls st on = Done st' ->
  Forall (fun m => type m = note_off) (off_messages st) ->
  exists p sent_now,
    dict_get (score_dict (self_now st)) on = Some p /\
    Forall (fun m => type m = note_off) (off_messages st') /\
    map snd (outport st') = map snd (outport st) ++ sent_now /\
    Forall (fun m => type m = note_on \/ type m = note_off) sent_now /\
    Permutation (map note (filter is_note_on sent_now)) (pitch p) /\
    Permutation (map note (filter is_note_off sent_now ++ off_messages st'))
                (map note (off_messages st) ++ pitch p).
Proof.
  intros Heven H Hq. apply run_position_done in H.
  destruct H as (p & ons & new_off & out & offs_sent & Hp & _ & Hself
                 & H). cbv zeta in H.
  destruct H as (_ & Hmsgs & Hsort & Hmerge & _ & Hport).
  assert (Hshape : same_shape p = true).
  { destruct (dict_get_some_in _ _ _ Hp) as [k Hk].
    unfold even_shapes in Heven. rewrite Forall_forall in Heven.
    exact (Heven (k, p) Hk). }
  destruct (project_shapes (self_now st') (prev_eq_onset st) p Hshape)
    as (_ & L1 & L2 & L3 & L4 & _ & Hpp & _).
  set (pr := project pow2_frac (self_now st') (prev_eq_onset st) p) in *.
  destruct (make_messages_spec _ _ _ _ _ _ Hmsgs) as (Tons & Toffs & _ & _).
  destruct (make_messages_fields _ _ _ _ _ _ (eq_trans L2 (eq_sym L1))
              (eq_trans L3 (eq_sym L1)) (eq_trans L4 (eq_sym L1)) Hmsgs) as (_ & _ & Nons & Noffs & _).
  assert (Hall : Forall (fun m => type m = note_off)
                        (offs_sent ++ off_messages st')).
  { rewrite <- Hsort, sort_by_time_perm. apply Forall_app. now split. }
  apply Forall_app in Hall. destruct Hall as [Tsent Tleft].
  pose proof (Interleave_perm _ _ _ Hmerge) as Hperm.
  exists p, (map snd out). split; [exact Hp|]. split; [exact Tleft|].
  split; [now rewrite Hport, map_app|]. split; [|split].
  - rewrite Hperm. apply Forall_app. split.
    + eapply Forall_impl; [|exact Tons]. intros m Hm. now left.
    + eapply Forall_impl; [|exact Tsent]. intros m Hm. now right.
  - rewrite (filter_perm is_note_on _ _ Hperm), filter_app.
    rewrite (proj1 (filter_note_ons ons Tons)).
    rewrite (proj2 (filter_note_offs offs_sent Tsent)), app_nil_r.
    now rewrite Nons.
  - rewrite (filter_perm is_note_off _ _ Hperm), filter_app.
    rewrite (proj2 (filter_note_ons ons Tons)).
    rewrite (proj1 (filter_note_offs offs_sent Tsent)). cbn [app].
    rewrite <- Hsort, sort_by_time_perm, map_app, Noffs.
    now rewrite Hpp.
Qed.

Lemma run_positions_notes (init_time : Q) (onsets : list Q) :
  forall (controller : list (list call)) (st st' : state),
  even_shapes (score_dict (self_now st)) ->
  run_positions pow2_frac init_time controller st onsets = Done st' ->
  Forall (fun m => type m = note_off) (off_messages st) ->
  Forall (fun m => type m = note_on \/ type m = note_off)
         (map snd (outport st)) ->
  let played := flat_map pitch (positions_at (score_dict (self_now st)) onsets) in
  Forall (fun m => type m = note_off) (off_messages st') /\
  Forall (fun m => type m = note_on \/ type m = note_off)
         (map snd (outport st')) /\
  Permutation (map note (filter is_note_on (map snd (outport st'))))
              (map note (filter is_note_on (map snd (outport st))) ++ played) /\
  Permutation (map note (filter is_note_off (map snd (outport st'))
                         ++ off_messages st'))
              (map note (filter is_note_off (map snd (outport st))
                         ++ off_messages st) ++ played).
Proof.
  induction onsets as [|on rest IH];
    intros controller st st' Heven H Hq Hport.
  - cbn in H. injection H as <-. cbn. rewrite !app_nil_r. now repeat split.
  - cbn [run_positions] in H.
    destruct (run_position pow2_frac init_time (hd [] controller) st on)
      as [st1| |] eqn:E; try discriminate.
    cbn [bind] in H.
    destruct (run_position_notes _ _ _ _ _ Heven E Hq)
      as (p & sent_now & Hp & Hq1 & Hport1 & Tnow & Pon & Poff).
    destruct (run_position_score_dict _ _ _ _ _ E) as (Hd & _).
    assert (Heven1 : even_shapes (score_dict (self_now st1)))
      by now rewrite Hd.
    assert (Hport1' : Forall (fun m => type m = note_on \/ type m = note_off)
                             (map snd (outport st1))).
    { rewrite Hport1. apply Forall_app. now split. }
    destruct (IH _ _ _ Heven1 H Hq1 Hport1') as (I1 & I2 & I3 & I4).
    cbv zeta. rewrite Hd in I3, I4.
    unfold positions_at in *. cbn [flat_map]. rewrite Hp. cbn [app flat_map].
    fold (positions_at (score_dict (self_now st)) rest) in *.
    split; [exact I1|]. split; [exact I2|]. split.
    + rewrite I3, Hport1, filter_app, map_app, Pon.
      now rewrite <- !app_assoc.
    + rewrite I4, Hport1, filter_app, <- app_assoc, map_app.
      rewrite Poff, !map_app. rewrite <- !app_assoc. reflexivity.
Qed.

(** X19: On a score whose positions have arrays of one length each, a run
    that completes has sent note-on and note-off messages only, and for
    every note of the score exactly one of each, with the note's pitch.
    (With arrays of other lengths a position plays one note per entry of
    [tim], see [run_drops_notes_on_short_tim].) *)
Theorem run_plays_every_note_once (self : t) (controller : list (list call))
  (clock : list Q) (st : state) :
  even_shapes (score_dict self) ->
  run pow2_frac self controller clock = Done st ->
  let port := map snd (outport st) in
  Forall (fun m => type m = note_on \/ type m = note_off) port /\
  Permutation (map note (filter is_note_on port)) (score_pitches self) /\
  Permutation (map note (filter is_note_off port)) (score_pitches self).
Proof.
  unfold run. intros Heven H.
  destruct clock as [|init_time clock]; [discriminate|].
  destruct (run_positions _ _ _ _ _) as [st1| |] eqn:E; try discriminate.
  cbn [bind] in H.
  destruct (drain_loop _ _ _) as [[[out offs] clock']| |] eqn:Ed;
    try discriminate.
  cbn [bind] in H. injection H as <-. cbn [outport].
  apply run_positions_notes in E; [|exact Heven|constructor|constructor].
  cbv zeta in E. cbn [self_now outport off_messages map filter app] in E.
  destruct E as (Tq & Tport & Pon & Poff).
  apply drain_loop_spec in Ed. destruct Ed as (Hout & _ & _).
  cbv zeta. rewrite map_app, Hout, !filter_app.
  rewrite (proj1 (filter_note_offs _ Tq)), (proj2 (filter_note_offs _ Tq)).
  rewrite app_nil_r. split; [|split].
  - apply Forall_app. split; [exact Tport|].
    eapply Forall_impl; [|exact Tq]. intros m Hm. now right.
  - exact Pon.
  - exact Poff.
Qed.

(** *** Velocities stay in the band *)

Lemma run_position_band (lo hi : Z) (init_time : Q) (calls : list call)
  (st st' : state) (on : Q) :
  run_position pow2_frac init_time calls st on = Done st' ->
  vel_min (self_now st) = lo -> vel_max (self_now st) = hi -> (lo <= hi)%Z ->
  Forall (fun m => (lo <= velocity m <= hi)%Z) (off_messages st) ->
  Forall (fun m => (lo <= velocity m <= hi)%Z) (map snd (outport st)) ->
  Forall (fun m => (lo <= velocity m <= hi)%Z) (off_messages st') /\
  Forall (fun m => (lo <= velocity m <= hi)%Z) (map snd (outport st')).
Proof.
  intros H Hlo Hhi Hband Hq Hport. apply run_position_done in H.
  destruct H as (p & ons & new_off & out & offs_sent & Hp & Hraises & Hself
                 & H). cbv zeta in H.
  destruct H as (_ & Hmsgs & Hsort & Hmerge & _ & Hport').
  destruct (project_lengths (self_now st') (prev_eq_onset st) p)
    as (L1 & L2 & L3 & L4).
  destruct (project_raises_none _ _ _ Hraises) as (_ & Hvd & _).
  set (pr := project pow2_frac (self_now st') (prev_eq_onset st) p) in *.
  destruct (make_messages_fields _ _ _ _ _ _ (eq_trans L2 (eq_sym L1))
              (eq_trans L3 (eq_sym L1)) (eq_trans L4 (eq_sym L1)) Hmsgs) as (_ & _ & _ & _ & Vons & Voffs & _).
  destruct (apply_calls_band calls (self_now st)) as [Bmin Bmax].
  rewrite <- Hself, Hlo in Bmin. rewrite <- Hself, Hhi in Bmax.
  assert (Hvel : Forall (fun v => (lo <= v <= hi)%Z) (perf_vel pr)).
  { unfold pr, project. cbn [perf_vel]. fold (perf_onset_idx pr).
    apply take_Forall_index_ok.
    - apply Forall_map. rewrite Forall_forall. intros x _.
      pose proof (perf_vel_of_band (self_now st') (vt p) (vel (self_now st')) x)
        as Hb.
      rewrite Bmin, Bmax in Hb. now apply Hb.
    - unfold np.index_ok in *. now rewrite length_map. }
  assert (Hons : Forall (fun m => (lo <= velocity m <= hi)%Z) ons).
  { rewrite <- Vons in Hvel. now rewrite Forall_map in Hvel. }
  assert (Hnew : Forall (fun m => (lo <= velocity m <= hi)%Z) new_off).
  { rewrite <- Voffs in Hvel. now rewrite Forall_map in Hvel. }
  assert (Hall : Forall (fun m => (lo <= velocity m <= hi)%Z)
                        (offs_sent ++ off_messages st')).
  { rewrite <- Hsort, sort_by_time_perm. apply Forall_app. now split. }
  apply Forall_app in Hall. destruct Hall as [Hsent Hleft].
  split; [exact Hleft|].
  rewrite Hport', map_app. apply Forall_app. split; [exact Hport|].
  rewrite (Interleave_perm _ _ _ Hmerge). apply Forall_app. now split.
Qed.

Lemma run_positions_band (lo hi : Z) (init_time : Q) (onsets : list Q) :
  forall (controller : list (list call)) (st st' : state),
  run_positions pow2_frac init_time controller st onsets = Done st' ->
  vel_min (self_now st) = lo -> vel_max (self_now st) = hi -> (lo <= hi)%Z ->
  Forall (fun m => (lo <= velocity m <= hi)%Z) (off_messages st) ->
  Forall (fun m => (lo <= velocity m <= hi)%Z) (map snd (outport st)) ->
  Forall (fun m => (lo <= velocity m <= hi)%Z) (off_messages st') /\
  Forall (fun m => (lo <= velocity m <= hi)%Z) (map snd (outport st')).
Proof.
  induction onsets as [|on rest IH];
    intros controller st st' H Hlo Hhi Hband Hq Hport.
  - cbn in H. injection H as <-. now split.
  - cbn [run_positions] in H.
    destruct (run_position pow2_frac init_time (hd [] controller) st on)
      as [st1| |] eqn:E; try discriminate.
    cbn [bind] in H.
    destruct (run_position_band lo hi _ _ _ _ _ E Hlo Hhi Hband Hq Hport)
      as [Hq1 Hport1].
    destruct (run_position_score_dict _ _ _ _ _ E) as (_ & Hmin & Hmax).
    apply (IH _ _ _ H); try assumption; congruence.
Qed.

(** X20: Every message of a completed run carries a velocity inside the band
    [vel_min .. vel_max], whatever velocity and tempo the controller set
    during the run. *)
Theorem run_velocities_in_band (self : t) (controller : list (list call))
  (clock : list Q) (st : state) :
  (vel_min self <= vel_max self)%Z ->
  run pow2_frac self controller clock = Done st ->
  Forall (fun s => in_band self (snd s)) (outport st).
Proof.
  unfold run. intros Hband H.
  destruct clock as [|init_time clock]; [discriminate|].
  destruct (run_positions _ _ _ _ _) as [st1| |] eqn:E; try discriminate.
  cbn [bind] in H.
  destruct (drain_loop _ _ _) as [[[out offs] clock']| |] eqn:Ed;
    try discriminate.
  cbn [bind] in H. injection H as <-. cbn [outport].
  apply (run_positions_band (vel_min self) (vel_max self)) in E;
    try reflexivity; try constructor; [|exact Hband].
  destruct E as [Hq Hport].
  apply drain_loop_spec in Ed. destruct Ed as (Hout & _ & _).
  rewrite <- Hout in Hq.
  rewrite Forall_map in Hq, Hport. apply Forall_app. now split.
Qed.

(** *** The times of one position *)

Lemma make_messages_follow (ps : list Z) :
  forall (os ds : list Q) (vs : list Z) ons offs,
  Forall (fun d => 0 <= d) ds ->
  make_messages ps os ds vs = Some (ons, offs) ->
  Forall2 (fun on off => answers on off /\ time on <= time off) ons offs.
Proof.
  induction ps as [|p ps IH]; intros os ds vs ons offs Hd H.
  - cbn in H. injection H as <- <-. constructor.
  - destruct os as [|o os], ds as [|d ds], vs as [|v vs];
      try (cbn in H; injection H as <- <-; constructor).
    cbn [make_messages] in H. unfold new in H.
    destruct (check_data_byte v && check_data_byte p); [|discriminate].
    destruct (make_messages ps os ds vs) as [[ons' offs']|] eqn:E;
      [|discriminate].
    injection H as <- <-. inversion Hd as [|? ? Hd1 Hd2]; subst.
    constructor; [|now apply (IH os ds vs)].
    split; [now repeat split|]. cbn [time]. lra.
Qed.

Lemma zip_with_Forall {A B C : Type} (f : A -> B -> C) (P : C -> Prop)
  (Q' : B -> Prop) (a : list A) :
  forall b : list B,
  (forall x y, Q' y -> P (f x y)) -> Forall Q' b -> Forall P (zip_with f a b).
Proof.
  induction a as [|x a IH]; intros [|y b] Hf Hb; try constructor.
  - inversion Hb; subst. now apply Hf.
  - inversion Hb; subst. now apply IH.
Qed.

(** X21: The messages [run] makes for one position: the note-ons are queued in
    ascending time, and with a tempo and durations that are not negative
    every note-off carries the note and velocity of its note-on and a time
    that is not before it. *)
Theorem note_off_scheduled_after_note_on (self : t) (prev : Q) (p : position)
  (ons offs : list Message) :
  same_shape p = true ->
  (forall y, 0 <= pow2_frac y) -> 0 <= tempo self ->
  Forall (fun d => 0 <= d) (dur p) ->
  let pr := project pow2_frac self prev p in
  make_messages (perf_pitch pr) (perf_onset pr) (perf_duration pr)
                (perf_vel pr) = Some (ons, offs) ->
  StronglySorted Qle (map time ons) /\
  Forall2 (fun on off => answers on off /\ time on <= time off) ons offs.
Proof.
  intros Hshape Hpow Htempo Hdur pr Hmsgs.
  destruct (project_shapes self prev p Hshape)
    as (Hperm & L1 & L2 & L3 & L4 & Lz & _ & _).
  fold pr in Hperm, L1, L2, L3, L4.
  destruct (make_messages_fields _ _ _ _ _ _ (eq_trans L2 (eq_sym L1))
              (eq_trans L3 (eq_sym L1)) (eq_trans L4 (eq_sym L1)) Hmsgs) as (_ & _ & _ & _ & _ & _ & Tons & _).
  split.
  - rewrite Tons. unfold pr, project. cbn [perf_onset].
    apply argsort_sorted.
  - apply (make_messages_follow _ _ _ _ _ _ ) with (2 := Hmsgs).
    unfold pr, project. cbn [perf_duration]. fold (perf_onset_idx pr).
    rewrite (proj2 (durations_same_shape pow2_frac (tempo self) p Hshape)).
    apply take_Forall; [|rewrite Lz; exact Hperm].
    apply (zip_with_Forall _ _ (fun d => 0 <= d)); [|exact Hdur].
    intros l d Hd. pose proof (exp2_nonneg pow2_frac l Hpow) as He.
    apply Qmult_le_0_compat; [apply Qmult_le_0_compat|]; assumption.
Qed.

(** *** The score time and the tempo value *)

Lemma eq_onsets_closed (self : t) (ps : list position) :
  forall prev,
  last (eq_onsets pow2_frac self [] prev ps) prev ==
  prev + tempo self * Qsum (map (fun p => exp2 pow2_frac (lbpr p) * ioi p) ps).
Proof.
  induction ps as [|p ps IH]; intro prev.
  - cbn. ring.
  - cbn [eq_onsets hd tl apply_calls fold_left map].
    rewrite last_cons_seed, IH. unfold eq_onset_of, Qsum. cbn [fold_right].
    ring.
Qed.

Lemma Qsum_map_ext {A : Type} (f g : A -> Q) (l : list A) :
  Forall (fun x => f x == g x) l -> Qsum (map f l) == Qsum (map g l).
Proof.
  induction 1 as [|x l Hx _ IH]; [reflexivity|].
  unfold Qsum in *. cbn [map fold_right]. now rewrite Hx, IH.
Qed.

(** X22: With the tempo left alone during the run, the score time [run] has
    reached at the end is the lead-in of 0.5 plus the tempo value times the
    sum of [2 ** lbpr * ioi] over the positions, which for whole-numbered
    [lbpr] is the sum of [2 ^ lbpr * ioi], the power of two taken exactly:
    the tempo value stretches the score, the lead-in stays. *)
Theorem eq_onset_scales_with_tempo (self : t) (clock : list Q) (st : state) :
  run pow2_frac self [] clock = Done st ->
  prev_eq_onset st ==
    0.5 + tempo self
          * Qsum (map (fun p => exp2 pow2_frac (lbpr p) * ioi p)
                      (ordered_positions self)) /\
  (Forall (fun p => lbpr p == inject_Z (Qfloor (lbpr p)))
          (ordered_positions self) ->
   prev_eq_onset st ==
     0.5 + tempo self
           * Qsum (map (fun p => 2 ^ Qfloor (lbpr p) * ioi p)
                       (ordered_positions self))).
Proof.
  unfold run. intro H.
  destruct clock as [|init_time clock]; [discriminate|].
  destruct (run_positions _ _ _ _ _) as [st1| |] eqn:E; try discriminate.
  cbn [bind] in H.
  destruct (drain_loop _ _ _) as [[[out offs] clock']| |] eqn:Ed;
    try discriminate.
  cbn [bind] in H. injection H as <-. cbn [prev_eq_onset].
  apply run_positions_eq_onset in E. destruct E as [-> _].
  cbn [self_now prev_eq_onset].
  split; [apply eq_onsets_closed|].
  intro Hwhole. rewrite eq_onsets_closed.
  rewrite (Qsum_map_ext (fun p => exp2 pow2_frac (lbpr p) * ioi p)
                        (fun p => 2 ^ Qfloor (lbpr p) * ioi p));
    [reflexivity|].
  eapply Forall_impl; [|exact Hwhole]. cbv beta. intros p Hp.
  now rewrite (exp2_integer pow2_frac (lbpr p) (Qfloor (lbpr p)) Hp).
Qed.

(** *** Timing *)

(** X23: No message leaves before its time: every message of a completed run
    was sent at an elapsed time that is its scheduled time or later. *)
Theorem run_never_sends_early (self : t) (controller : list (list call))
  (clock : list Q) (st : state) :
  run pow2_frac self controller clock = Done st ->
  Forall (fun s => time (snd s) <= fst s) (outport st).
Proof.
  intro H. apply run_answers_every_note_on in H. now destruct H as (_ & H & _).
Qed.

Lemma StronglySorted_app_r {A : Type} (R : A -> A -> Prop) (l1 l2 : list A) :
  StronglySorted R (l1 ++ l2) -> StronglySorted R l2.
Proof.
  induction l1 as [|a l1 IH]; [auto|].
  cbn [app]. intro H. apply StronglySorted_inv in H. now apply IH.
Qed.

(** X24: The note-off queue is in ascending time after every position, so its
    head, the one message the loops look at, is the earliest note-off that
    is still waiting. *)
Theorem off_queue_stays_sorted (init_time : Q) (onsets : list Q) :
  forall (controller : list (list call)) (st st' : state),
  StronglySorted (fun a b => time a <= time b) (off_messages st) ->
  run_positions pow2_frac init_time controller st onsets = Done st' ->
  StronglySorted (fun a b => time a <= time b) (off_messages st').
Proof.
  induction onsets as [|on rest IH]; intros controller st st' Hs H.
  - cbn in H. now injection H as <-.
  - cbn [run_positions] in H.
    destruct (run_position pow2_frac init_time (hd [] controller) st on)
      as [st1| |] eqn:E; try discriminate.
    cbn [bind] in H. apply (IH _ _ _) with (2 := H).
    apply run_position_done in E.
    destruct E as (p & ons & new_off & out & offs_sent & _ & _ & _ & E).
    cbv zeta in E. destruct E as (_ & _ & Hsort & _).
    apply (StronglySorted_app_r _ offs_sent). rewrite <- Hsort.
    apply sort_by_time_sorted.
Qed.

(** *** A run on a clock that is late comes to its end *)

Lemma send_loop_late (init_time deadline : Q) (ons : list Message) :
  forall (clock : list Q) (offs : list Message),
  Forall (fun m => time m <= deadline) ons ->
  all_late init_time deadline clock ->
  (2 * length ons <= length clock)%nat ->
  exists out offs' clock',
    send_loop init_time clock ons offs = Done (out, offs', clock') /\
    (length clock <= length clock' + 2 * length ons)%nat /\
    all_late init_time deadline clock'.
Proof.
  induction ons as [|on rest IH]; intros clock offs Hons Hlate Hlen.
  - exists [], offs, clock. destruct clock; cbn; repeat split; auto; lia.
  - inversion Hons as [|? ? Hon Hrest]; subst.
    destruct clock as [|t1 clock1]; [cbn in Hlen; lia|].
    inversion Hlate as [|? ? Ht1 Hlate1]; subst.
    cbn [length] in Hlen. cbn [send_loop]. cbv zeta.
    replace (Qle_bool (time on) (t1 - init_time)) with true
      by (symmetry; apply Qle_bool_iff; lra).
    destruct offs as [|off offs0].
    + destruct (IH clock1 [] Hrest Hlate1) as (out & offs' & clock' & -> & L & H);
        [lia|].
      cbn [bind]. eexists. eexists. eexists. split; [reflexivity|].
      split; [cbn [length]; lia | exact H].
    + destruct clock1 as [|t2 clock2]; [cbn in Hlen; lia|].
      inversion Hlate1 as [|? ? Ht2 Hlate2]; subst. cbn [length] in Hlen.
      destruct (IH clock2
                  (if Qle_bool (time off) (t2 - init_time)
                   then offs0 else off :: offs0) Hrest Hlate2)
        as (out & offs' & clock' & -> & L & H); [lia|].
      cbn [bind]. eexists. eexists. eexists. split; [reflexivity|].
      split; [cbn [length]; lia | exact H].
Qed.

Lemma readings_from_late (init_time deadline : Q) (clock : list Q) :
  all_late init_time deadline clock ->
  readings_from init_time deadline clock = length clock.
Proof.
  unfold readings_from. induction 1 as [|t clock Ht _ IH]; [reflexivity|].
  cbn [filter]. apply Qle_bool_iff in Ht. rewrite Ht. cbn [length].
  now rewrite IH.
Qed.

(** On a score and a band of MIDI size every position gets its
    messages. *)
Lemma position_messages_exist (self : t) (prev : Q) (p : position) :
  same_shape p = true ->
  Forall (fun x => (0 <= x <= 127)%Z) (pitch p) ->
  midi_band self ->
  let pr := project pow2_frac self prev p in
  exists ons offs,
    make_messages (perf_pitch pr) (perf_onset pr) (perf_duration pr)
                  (perf_vel pr) = Some (ons, offs) /\
    length ons = length offs.
Proof.
  intros Hshape Hpitch (B1 & B2 & B3) pr.
  destruct (project_shapes self prev p Hshape)
    as (Hperm & L1 & L2 & L3 & L4 & _ & Hpp & Hpv).
  fold pr in Hperm, L1, L2, L3, L4, Hpp, Hpv.
  destruct (make_messages_some (perf_pitch pr) (perf_onset pr)
              (perf_duration pr) (perf_vel pr)) as [[ons offs] Hr].
  - now rewrite Hpp.
  - rewrite Hpv. apply Forall_map. rewrite Forall_forall. intros x _.
    pose proof (perf_vel_of_band self (vt p) (vel self) x B2). lia.
  - exists ons, offs. split; [exact Hr|].
    destruct (make_messages_fields _ _ _ _ _ _ (eq_trans L2 (eq_sym L1))
                (eq_trans L3 (eq_sym L1)) (eq_trans L4 (eq_sym L1)) Hr)
      as (_ & _ & N1 & N2 & _).
    rewrite <- (length_map note ons), <- (length_map note offs).
    now rewrite N1, N2.
Qed.

Lemma run_positions_late (init_time deadline : Q) (onsets : list Q) :
  forall (controller : list (list call)) (st : state),
  well_formed_score (score_dict (self_now st)) ->
  midi_band (self_now st) ->
  (forall on, In on onsets ->
     exists p, dict_get (score_dict (self_now st)) on = Some p) ->
  Forall (fun m => time m <= deadline)
         (planned pow2_frac (self_now st) controller (prev_eq_onset st) onsets) ->
  Forall (fun m => time m <= deadline) (off_messages st) ->
  all_late init_time deadline (readings st) ->
  (2 * length (planned pow2_frac (self_now st) controller (prev_eq_onset st)
                       onsets)
   + length (off_messages st) <= length (readings st))%nat ->
  exists st',
    run_positions pow2_frac init_time controller st onsets = Done st' /\
    Forall (fun m => time m <= deadline) (off_messages st') /\
    all_late init_time deadline (readings st') /\
    (length (off_messages st') <= length (readings st'))%nat.
Proof.
  induction onsets as [|on rest IH];
    intros controller st Hwf Hband Hkeys Hplan Hq Hlate Hlen.
  - exists st. cbn in *. repeat split; auto; lia.
  - destruct (Hkeys on (or_introl eq_refl)) as [p Hp].
    destruct (dict_get_some_in _ _ _ Hp) as [k Hk].
    pose proof Hwf as Hwf'. unfold well_formed_score in Hwf'.
    rewrite Forall_forall in Hwf'.
    destruct (Hwf' (k, p) Hk) as [Hshape Hpitch]. cbn [snd] in Hshape, Hpitch.
    set (self' := apply_calls (hd [] controller) (self_now st)) in *.
    assert (Hd : score_dict self' = score_dict (self_now st))
      by apply apply_calls_score_dict.
    assert (Hband' : midi_band self').
    { unfold midi_band in *.
      destruct (apply_calls_band (hd [] controller) (self_now st)) as [E1 E2].
      fold self' in E1, E2. now rewrite E1, E2. }
    destruct (position_messages_exist self' (prev_eq_onset st) p Hshape Hpitch
                Hband') as (ons & new_off & Hmsgs & Hsame).
    pose proof (project_raises_same_shape self' (prev_eq_onset st) p Hshape)
      as Hraises.
    cbn [planned] in Hplan, Hlen. rewrite Hp in Hplan, Hlen.
    fold self' in Hplan, Hlen. cbv zeta in Hplan, Hlen, Hmsgs.
    rewrite Hraises, Hmsgs in Hplan, Hlen.
    apply Forall_app in Hplan. destruct Hplan as [Pons Hplan].
    apply Forall_app in Hplan. destruct Hplan as [Poffs Prest].
    rewrite !length_app in Hlen.
    destruct (send_loop_late init_time deadline ons (readings st)
                (sort_by_time (off_messages st ++ new_off)) Pons Hlate)
      as (out & offs' & clock' & Hsend & Lclock & Hlate'); [lia|].
    destruct (send_loop_spec _ _ _ _ _ _ _ Hsend) as (offs_sent & Hsplit & _).
    assert (Hall : Forall (fun m => time m <= deadline)
                          (offs_sent ++ offs')).
    { rewrite <- Hsplit, sort_by_time_perm. apply Forall_app. now split. }
    apply Forall_app in Hall. destruct Hall as [_ Hq'].
    assert (Lq : (length offs_sent + length offs'
                  = length (off_messages st) + length new_off)%nat).
    { rewrite <- !length_app, <- Hsplit.
      now rewrite (Permutation_length (sort_by_time_perm _)). }
    destruct (IH (tl controller)
                 (mkState self'
                    (eq_onset (project pow2_frac self' (prev_eq_onset st) p))
                    offs' clock' (outport st ++ out)))
      as (st' & E & R1 & R2 & R3); cbn [self_now prev_eq_onset off_messages
                                        readings]; try assumption.
    + now rewrite Hd.
    + intros on' Hin. rewrite Hd. apply Hkeys. now right.
    + lia.
    + exists st'. split; [|now repeat split].
      cbn [run_positions]. unfold run_position.
      rewrite Hp. cbv zeta. fold self'. rewrite Hraises, Hmsgs, Hsend.
      cbn [bind]. exact E.
Qed.

(** X25: On a score and a band of MIDI size, [run] comes to its end when the
    clock is late and long enough: every reading after the first shows an
    elapsed time past the last scheduled time, and there are two readings
    for every message to be sent. *)
Theorem run_completes_on_late_clock (self : t) (controller : list (list call))
  (init_time deadline : Q) (clock : list Q) :
  well_formed_score (score_dict self) -> midi_band self ->
  let messages :=
    planned pow2_frac self controller 0.5 (np.sort (map fst (score_dict self))) in
  Forall (fun m => time m <= deadline) messages ->
  all_late init_time deadline clock ->
  (2 * length messages <= length clock)%nat ->
  exists st,
    run pow2_frac self controller (init_time :: clock) = Done st /\
    off_messages st = [].
Proof.
  intros Hwf Hband messages Hplan Hlate Hlen. unfold run.
  destruct (run_positions_late init_time deadline
              (np.sort (map fst (score_dict self))) controller
              (mkState self 0.5 [] clock []))
    as (st1 & -> & Hq & Hlate1 & Hlen1);
    cbn [self_now prev_eq_onset off_messages readings length];
    try assumption; try constructor.
  - intros on Hin. apply dict_get_in.
    eapply Permutation_in; [apply sort_sorted | exact Hin].
  - fold messages. lia.
  - cbn [bind].
    destruct (drain_loop_completes init_time deadline (readings st1)
                (off_messages st1) Hq) as (out & clock' & ->).
    + now rewrite readings_from_late.
    + cbn [bind]. eexists. split; reflexivity.
Qed.

(** *** The empty score *)

(** X26: On an empty score [run] reads the clock once, for the start time, sends
    nothing and returns; the score time stays at the lead-in of 0.5. *)
Theorem run_on_empty_score (self : t) (controller : list (list call))
  (init_time : Q) (clock : list Q) :
  score_dict self = [] ->
  exists st,
    run pow2_frac self controller (init_time :: clock) = Done st /\
    outport st = [] /\ off_messages st = [] /\ readings st = clock /\
    prev_eq_onset st = 0.5.
Proof.
  intro Hd. unfold run. rewrite Hd.
  change (np.sort (map fst [])) with (@nil Q).
  cbn [run_positions bind off_messages readings].
  destruct clock; eexists; (split; [reflexivity|]); now repeat split.
Qed.

End ExpressiveRuns.

Section ExpressiveRunExamples.

Import mido BasisMixerMidiThread.

Lemma pow2_frac_unused_nonneg (y : Q) : 0 <= pow2_frac_unused y.
Proof. unfold pow2_frac_unused. lra. Qed.

Lemma scenario_e_well_formed : well_formed_score (score_dict scenario_e).
Proof.
  unfold well_formed_score, scenario_e. cbn [init score_dict].
  repeat constructor; cbn; lia.
Qed.

Lemma run_raises_nothing_witness :
  run pow2_frac_unused scenario_e [[call_set_velocity 1000]] scenario_e_clock
  <> Raised ValueError.
Proof.
  apply run_raises_nothing.
  - exact scenario_e_well_formed.
  - unfold midi_band. cbn. lia.
Defined.

Lemma velocity_outside_midi_raises_witness :
  perf_vel_of (set_velocity 200 loud_thread) 1 200 0 = 200%Z /\
  run_position pow2_frac_unused 100 [call_set_velocity 200]
               (mkState loud_thread 0.5 [] [] []) 0
  = Raised ValueError.
Proof.
  split; [reflexivity|].
  apply (velocity_outside_midi_raises pow2_frac_unused 100
           [call_set_velocity 200] (mkState loud_thread 0.5 [] [] []) 0
           (mkPosition [60%Z] 0 [1] 1 [0] 0 [0] [0] [0]) 0).
  - reflexivity.
  - reflexivity.
  - cbn. lia.
  - right. vm_compute. reflexivity.
Defined.

Lemma swapped_band_gives_vel_max_witness :
  perf_vel_of swapped_thread 1 64 0 = 30%Z.
Proof. apply (swapped_band_gives_vel_max swapped_thread). cbn. lia. Defined.

Lemma run_plays_every_note_once_witness :
  exists st,
    run pow2_frac_unused scenario_e [] late_clock = Done st /\
    Permutation (map note (filter is_note_on (map snd (outport st))))
                [60; 64; 67]%Z /\
    Permutation (map note (filter is_note_off (map snd (outport st))))
                [60; 64; 67]%Z.
Proof.
  eexists. split; [vm_compute; reflexivity|].
  match goal with
  | |- context [outport ?s] =>
      destruct (run_plays_every_note_once pow2_frac_unused scenario_e []
                  late_clock s) as (_ & Hon & Hoff);
        [repeat constructor | vm_compute; reflexivity|]
  end.
  split; [exact Hon | exact Hoff].
Defined.

(** With a [tim] array of one entry a chord of two notes plays its first
    note only, and the run completes; with one of three entries indexing
    the pitches raises [IndexError]. *)
Lemma run_drops_notes_on_short_tim :
  score_pitches short_tim_chord = [60; 64]%Z /\
  exists st,
    run pow2_frac_unused short_tim_chord [] late_clock = Done st /\
    map (fun s => (type (snd s), note (snd s))) (outport st) =
      [(note_on, 60%Z); (note_off, 60%Z)].
Proof.
  split; [reflexivity|]. eexists. split; [vm_compute; reflexivity|].
  reflexivity.
Qed.

Lemma run_raises_on_long_tim :
  run pow2_frac_unused long_tim_chord [] late_clock = Raised IndexError.
Proof. vm_compute. reflexivity. Qed.

Lemma run_velocities_in_band_witness :
  exists st,
    run pow2_frac_unused scenario_e [[call_set_velocity 1000]] late_clock
    = Done st /\
    Forall (fun s => (30 <= velocity (snd s) <= 110)%Z) (outport st).
Proof.
  eexists. split; [vm_compute; reflexivity|].
  apply (run_velocities_in_band pow2_frac_unused scenario_e
           [[call_set_velocity 1000]] late_clock).
  - cbn. lia.
  - vm_compute. reflexivity.
Defined.

Lemma note_off_scheduled_after_note_on_witness :
  exists ons offs,
    (let pr := project pow2_frac_unused default_thread 0.5 scenario_d in
     make_messages (perf_pitch pr) (perf_onset pr) (perf_duration pr)
                   (perf_vel pr) = Some (ons, offs)) /\
    map note ons = [64; 60]%Z /\
    Forall2 (fun on off => answers on off /\ time on <= time off) ons offs.
Proof.
  eexists. eexists. split; [vm_compute; reflexivity|].
  split; [reflexivity|].
  refine (proj2 (note_off_scheduled_after_note_on pow2_frac_unused
                   default_thread 0.5 scenario_d _ _ _ _ _ _ _)).
  - reflexivity.
  - exact pow2_frac_unused_nonneg.
  - cbn. lra.
  - repeat constructor; cbn; lra.
  - vm_compute. reflexivity.
Defined.

Lemma eq_onset_scales_with_tempo_witness :
  exists st,
    run pow2_frac_unused (set_tempo 2 doubled_beat) [] late_clock = Done st /\
    prev_eq_onset st == 0.5 + 2 * (2 ^ 1 * 1) /\
    prev_eq_onset st == 4.5.
Proof.
  eexists. split; [vm_compute; reflexivity|].
  match goal with
  | |- context [prev_eq_onset ?s] =>
      destruct (eq_onset_scales_with_tempo pow2_frac_unused
                  (set_tempo 2 doubled_beat) late_clock s) as [_ Hsum];
        [vm_compute; reflexivity|]
  end.
  split; (rewrite Hsum;
          [vm_compute; reflexivity | repeat constructor; vm_compute; reflexivity]).
Defined.

Lemma run_never_sends_early_witness :
  exists st,
    run pow2_frac_unused scenario_e [] scenario_e_clock = Done st /\
    Forall (fun s => time (snd s) <= fst s) (outport st).
Proof.
  eexists. split; [vm_compute; reflexivity|].
  apply (run_never_sends_early pow2_frac_unused scenario_e []
           scenario_e_clock).
  vm_compute. reflexivity.
Defined.

Lemma off_queue_stays_sorted_witness :
  exists st,
    run_positions pow2_frac_unused 100 []
      (mkState scenario_e 0.5 [] (tl scenario_e_clock) []) [0] = Done st /\
    map note (off_messages st) = [60; 64]%Z /\
    StronglySorted (fun a b => time a <= time b) (off_messages st).
Proof.
  eexists. split; [vm_compute; reflexivity|]. split; [reflexivity|].
  apply (off_queue_stays_sorted pow2_frac_unused 100 [0] []
           (mkState scenario_e 0.5 [] (tl scenario_e_clock) [])).
  - constructor.
  - vm_compute. reflexivity.
Defined.

Lemma run_completes_on_late_clock_witness :
  exists st,
    run pow2_frac_unused scenario_e [] late_clock = Done st /\
    length (outport st) = 6%nat.
Proof.
  destruct (run_completes_on_late_clock pow2_frac_unused scenario_e [] 100 2.5
              (repeat 200 12)) as (st & E & _).
  - exact scenario_e_well_formed.
  - unfold midi_band. cbn. lia.
  - vm_compute. repeat constructor; discriminate.
  - unfold all_late. repeat constructor; vm_compute; discriminate.
  - vm_compute. lia.
  - exists st. split; [exact E|].
    vm_compute in E. injection E as <-. reflexivity.
Defined.

Lemma run_on_empty_score_witness :
  exists st,
    run pow2_frac_unused default_thread [] [7; 8] = Done st /\
    outport st = [] /\ off_messages st = [] /\ readings st = [8] /\
    prev_eq_onset st = 0.5.
Proof. apply (run_on_empty_score pow2_frac_unused default_thread). reflexivity. Defined.

End ExpressiveRunExamples.

(** ** numpy: rounding a velocity that lies halfway *)

Section Rounding.

Import BasisMixerMidiThread.

Lemma Qfloor_half (n : Z) : Qfloor (inject_Z n + (1 # 2)) = n.
Proof.
  unfold Qfloor, Qplus, inject_Z. cbn [Qnum Qden].
  rewrite Z.mul_1_l. change (Z.pos (1 * 2)) with 2%Z.
  symmetry. apply (Z.div_unique_pos _ _ _ 1); lia.
Qed.

(** X27: [np.round] sends a value that lies halfway between two integers to the
    even one of the two, and leaves an integer as it is: 64.5 becomes 64,
    65.5 becomes 66. *)
Theorem round_half_goes_to_even (n : Z) (x : Q) :
  (x == inject_Z n + (1 # 2) ->
   np.round_half_even x = if Z.even n then n else (n + 1)%Z) /\
  (x == inject_Z n -> np.round_half_even x = n).
Proof.
  split; intro Hx; unfold np.round_half_even.
  - assert (Hf : Qfloor x = n) by (rewrite Hx; apply Qfloor_half).
    rewrite Hf.
    replace (Qcompare (x - inject_Z n) (1 # 2)) with Eq; [reflexivity|].
    symmetry. apply Qeq_alt. rewrite Hx. ring.
  - assert (Hf : Qfloor x = n) by (rewrite Hx; apply Qfloor_Z).
    rewrite Hf.
    replace (Qcompare (x - inject_Z n) (1 # 2)) with Lt; [reflexivity|].
    symmetry. apply Qlt_alt. rewrite Hx.
    assert (E : inject_Z n - inject_Z n == 0) by ring. rewrite E. reflexivity.
Qed.

Lemma round_half_goes_to_even_witness :
  np.round_half_even 64.5 = 64%Z /\ np.round_half_even 65.5 = 66%Z /\
  perf_vel_of default_thread 1 64.5 0 = 64%Z.
Proof.
  split; [|split].
  - apply (proj1 (round_half_goes_to_even 64 64.5)). reflexivity.
  - apply (proj1 (round_half_goes_to_even 65 65.5)). reflexivity.
  - reflexivity.
Defined.

End Rounding.
